(** * The key-file policy backend of polkit, embedded in Rocq

    A shallow embedding of [polkitbackendpolicyfile.c] (the rule compiler and
    the match evaluator) and of [polkitbackendkeyfileauthority.c] (the rule
    set loader, the reload path, the context preparation, the admin identity
    harvest and the authorization check), with the properties of the
    specification stated and settled against it.

    Conventions.
    - A C string is a [string]; a [gchar **] with its [n_...] length field is
      a [list string] (the length field is the length of the list).
    - A [Policy *] or [PolicyFile *] that may be [NULL] is an [option]; the
      [next] pointers give the chains.
    - [unsigned int constraints] is a [Z] used as a bit mask.
    - A call that does not return (a failed [g_assert], a read through a
      [NULL] pointer) is a [Crash] of the [result] monad.
    - GLib's key-file reader, the directory listing, the user database and
      polkit's identity parser are collaborators: they are the fields of the
      class [Host]. *)

From Stdlib Require Import ZArith Ascii String Bool Lia DecimalString.
From stdpp Require Import base tactics option list sorting strings.

Local Open Scope Z_scope.

(** ** Results of calls that may not return *)

Inductive crash : Type :=
  | AssertionFailed   (* g_assert, g_assert_not_reached *)
  | NullDereference.  (* a member read through a NULL pointer *)

Inductive result (A : Type) : Type :=
  | Ok (a : A)
  | Crash (c : crash).
Arguments Ok {A} a.
Arguments Crash {A} c.

Definition bind {A B : Type} (r : result A) (k : A -> result B) : result B :=
  match r with
  | Ok a => k a
  | Crash c => Crash c
  end.

Notation "x <-- r ;;; k" := (bind r (fun x => k))
  (at level 100, r at next level, right associativity).

(** ** The string functions of GLib and libc the sources call *)

(** [g_ascii_isspace]: space, and the control characters HT, LF, FF and CR. *)
Definition g_ascii_isspace (c : ascii) : bool :=
  match N_of_ascii c with
  | 9%N | 10%N | 12%N | 13%N | 32%N => true
  | _ => false
  end.

(** [g_strchug]: drops the leading white space. *)
Fixpoint g_strchug (s : string) : string :=
  match s with
  | EmptyString => EmptyString
  | String c s' => if g_ascii_isspace c then g_strchug s' else s
  end.

(** [g_strchomp]: drops the trailing white space. *)
Fixpoint g_strchomp (s : string) : string :=
  match s with
  | EmptyString => EmptyString
  | String c s' =>
      match g_strchomp s' with
      | EmptyString => if g_ascii_isspace c then EmptyString else String c EmptyString
      | t => String c t
      end
  end.

(** [g_strstrip (s)] is [g_strchomp (g_strchug (s))]. It works in place; it
    is idempotent ([g_strstrip_idemp] below), so a second evaluation of the
    same rule sees the same strings. *)
Definition g_strstrip (s : string) : string := g_strchomp (g_strchug s).

Definition g_ascii_tolower (c : ascii) : ascii :=
  let n := N_of_ascii c in
  if ((65 <=? n) && (n <=? 90))%N then ascii_of_N (n + 32) else c.

Fixpoint g_ascii_strdown (s : string) : string :=
  match s with
  | EmptyString => EmptyString
  | String c s' => String (g_ascii_tolower c) (g_ascii_strdown s')
  end.

Definition g_str_equal (a b : string) : bool := String.eqb a b.

(** [strstr (haystack, needle) != NULL]. *)
Fixpoint strstr (haystack needle : string) : bool :=
  if String.prefix needle haystack then true
  else match haystack with
       | EmptyString => false
       | String _ h' => strstr h' needle
       end.

(** [g_str_has_suffix (s, suffix)]. *)
Definition g_str_has_suffix (s suffix : string) : bool :=
  let n := String.length s in
  let k := String.length suffix in
  (k <=? n)%nat && String.eqb (String.substring (n - k) k s) suffix.

(** [strrchr (s, c) + 1] when [strrchr] finds [c]: what follows the last
    occurrence of [c] in [s]; [None] when [strrchr] returns [NULL]. *)
Fixpoint strrchr_tail (s : string) (c : ascii) : option string :=
  match s with
  | EmptyString => None
  | String d s' =>
      match strrchr_tail s' c with
      | Some t => Some t
      | None => if Ascii.eqb d c then Some s' else None
      end
  end.

(** [g_strcmp0] on two strings that are not [NULL]: the sign of [strcmp],
    which compares bytes as unsigned characters. *)
Definition g_strcmp0 (a b : string) : comparison := String.compare a b.

(** ** Verdicts, identities and subjects *)

(** Modelled from the spec: the verdict type [PolkitImplicitAuthorization]
    (the "tri-state verdict" with its grant variants, deny and unknown of
    section 4.3 and of the glossary). Its declaration is in polkit's public
    headers, which are not among these sources; the sources name the
    enumerators [UNKNOWN] and [NOT_AUTHORIZED]. *)
Inductive PolkitImplicitAuthorization : Type :=
  | POLKIT_IMPLICIT_AUTHORIZATION_UNKNOWN
  | POLKIT_IMPLICIT_AUTHORIZATION_NOT_AUTHORIZED
  | POLKIT_IMPLICIT_AUTHORIZATION_AUTHENTICATION_REQUIRED
  | POLKIT_IMPLICIT_AUTHORIZATION_ADMINISTRATOR_AUTHENTICATION_REQUIRED
  | POLKIT_IMPLICIT_AUTHORIZATION_AUTHENTICATION_REQUIRED_RETAINED
  | POLKIT_IMPLICIT_AUTHORIZATION_ADMINISTRATOR_AUTHENTICATION_REQUIRED_RETAINED
  | POLKIT_IMPLICIT_AUTHORIZATION_AUTHORIZED.

#[global] Instance PolkitImplicitAuthorization_eq_dec :
  EqDecision PolkitImplicitAuthorization.
Proof. solve_decision. Defined.

Definition is_unknown (r : PolkitImplicitAuthorization) : bool :=
  bool_decide (r = POLKIT_IMPLICIT_AUTHORIZATION_UNKNOWN).

(** Modelled from the spec: the identities of section 4.4, tagged with their
    kind ([unix-user], [unix-group], [unix-netgroup]); [PolkitIdentity] is
    declared in polkit's headers. *)
Inductive PolkitIdentity : Type :=
  | PolkitUnixUser (uid : Z)
  | PolkitUnixGroup (gid : Z)
  | PolkitUnixNetgroup (name : string).

(** [polkit_unix_user_new (uid)]. *)
Definition polkit_unix_user_new (uid : Z) : PolkitIdentity := PolkitUnixUser uid.

(** The subjects polkit hands to a backend. *)
Inductive PolkitSubject : Type :=
  | PolkitUnixProcess (pid : Z)
  | PolkitSystemBusName (name : string)
  | PolkitUnixSession (session : string).

(** ** polkitbackendpolicyfile.h *)

Definition POLICY_MATCH_WHEEL : string := "%sudo%".
Definition POLICY_SECTION : string := "Policy".
Definition POLICY_MATCH_ALL : string := "*".

Definition PF_CONSTRAINT_MIN : Z := Z.shiftl 1 0.
Definition PF_CONSTRAINT_ACTIONS : Z := Z.shiftl 1 1.
Definition PF_CONSTRAINT_ACTION_CONTAINS : Z := Z.shiftl 1 2.
Definition PF_CONSTRAINT_SUBJECT_ACTIVE : Z := Z.shiftl 1 3.
Definition PF_CONSTRAINT_SUBJECT_LOCAL : Z := Z.shiftl 1 4.
Definition PF_CONSTRAINT_UNIX_GROUPS : Z := Z.shiftl 1 5.
Definition PF_CONSTRAINT_UNIX_NAMES : Z := Z.shiftl 1 6.
Definition PF_CONSTRAINT_NET_GROUPS : Z := Z.shiftl 1 7.
Definition PF_CONSTRAINT_RESULT : Z := Z.shiftl 1 8.
Definition PF_CONSTRAINT_RESULT_INVERSE : Z := Z.shiftl 1 9.

(** [(constraints & flag) == flag]. *)
Definition has_constraint (constraints flag : Z) : bool :=
  Z.land constraints flag =? flag.

(** [struct Policy]. The induction principle that follows the chain is
    [Policy_chain_ind] below. *)
#[local] Unset Elimination Schemes.
Inductive Policy : Type := Build_Policy {
  id : string;
  next : option Policy;
  actions : list string;
  action_contains : list string;
  unix_groups : list string;
  unix_names : list string;
  net_groups : list string;
  require_active : bool;
  require_local : bool;
  response : PolkitImplicitAuthorization;
  response_inverse : PolkitImplicitAuthorization;
  constraints : Z
}.

(** [struct PolicyContext], with the members the evaluator and the context
    preparation use ([details], [session_id] and [seat_id] are carried
    along by the C code and never read by it). *)
Record PolicyContext : Type := Build_PolicyContext {
  subject : PolkitSubject;
  user_for_subject : PolkitIdentity;
  subject_is_local : bool;
  subject_is_active : bool;
  groups : list string;
  username : string
}.

(** [struct PolicyFile]; [rules_normal] and [rules_admin] are [rules.normal]
    and [rules.admin]. *)
Inductive PolicyFile : Type := Build_PolicyFile {
  file_next : option PolicyFile;
  rules_normal : option Policy;
  rules_admin : option Policy
}.
#[local] Set Elimination Schemes.

(** Induction along the [next] pointers of a rule chain. *)
Fixpoint Policy_chain_ind (P : Policy -> Prop)
    (Hlast : forall p, next p = None -> P p)
    (Hstep : forall p n, next p = Some n -> P n -> P p)
    (p : Policy) {struct p} : P p :=
  match p as p0 return P p0 with
  | Build_Policy i nx a ac ug un ng ra rl r ri c =>
      match nx as nx0 return P (Build_Policy i nx0 a ac ug un ng ra rl r ri c) with
      | None => Hlast (Build_Policy i None a ac ug un ng ra rl r ri c) eq_refl
      | Some n =>
          Hstep (Build_Policy i (Some n) a ac ug un ng ra rl r ri c) n eq_refl
            (Policy_chain_ind P Hlast Hstep n)
      end
  end.

(** Induction along the [next] pointers of a chain of files. *)
Fixpoint PolicyFile_chain_ind (P : PolicyFile -> Prop)
    (Hlast : forall f, file_next f = None -> P f)
    (Hstep : forall f n, file_next f = Some n -> P n -> P f)
    (f : PolicyFile) {struct f} : P f :=
  match f as f0 return P f0 with
  | Build_PolicyFile nx rn ra =>
      match nx as nx0 return P (Build_PolicyFile nx0 rn ra) with
      | None => Hlast (Build_PolicyFile None rn ra) eq_refl
      | Some n =>
          Hstep (Build_PolicyFile (Some n) rn ra) n eq_refl
            (PolicyFile_chain_ind P Hlast Hstep n)
      end
  end.

(** Field updates of [struct Policy]. *)
Definition set_next (p : Policy) (v : option Policy) : Policy :=
  Build_Policy (id p) v (actions p) (action_contains p) (unix_groups p)
    (unix_names p) (net_groups p) (require_active p) (require_local p)
    (response p) (response_inverse p) (constraints p).
Definition set_actions (p : Policy) (v : list string) : Policy :=
  Build_Policy (id p) (next p) v (action_contains p) (unix_groups p)
    (unix_names p) (net_groups p) (require_active p) (require_local p)
    (response p) (response_inverse p) (constraints p).
Definition set_action_contains (p : Policy) (v : list string) : Policy :=
  Build_Policy (id p) (next p) (actions p) v (unix_groups p)
    (unix_names p) (net_groups p) (require_active p) (require_local p)
    (response p) (response_inverse p) (constraints p).
Definition set_unix_groups (p : Policy) (v : list string) : Policy :=
  Build_Policy (id p) (next p) (actions p) (action_contains p) v
    (unix_names p) (net_groups p) (require_active p) (require_local p)
    (response p) (response_inverse p) (constraints p).
Definition set_unix_names (p : Policy) (v : list string) : Policy :=
  Build_Policy (id p) (next p) (actions p) (action_contains p) (unix_groups p)
    v (net_groups p) (require_active p) (require_local p)
    (response p) (response_inverse p) (constraints p).
Definition set_net_groups (p : Policy) (v : list string) : Policy :=
  Build_Policy (id p) (next p) (actions p) (action_contains p) (unix_groups p)
    (unix_names p) v (require_active p) (require_local p)
    (response p) (response_inverse p) (constraints p).
Definition set_require_active (p : Policy) (v : bool) : Policy :=
  Build_Policy (id p) (next p) (actions p) (action_contains p) (unix_groups p)
    (unix_names p) (net_groups p) v (require_local p)
    (response p) (response_inverse p) (constraints p).
Definition set_require_local (p : Policy) (v : bool) : Policy :=
  Build_Policy (id p) (next p) (actions p) (action_contains p) (unix_groups p)
    (unix_names p) (net_groups p) (require_active p) v
    (response p) (response_inverse p) (constraints p).
Definition set_response (p : Policy) (v : PolkitImplicitAuthorization) : Policy :=
  Build_Policy (id p) (next p) (actions p) (action_contains p) (unix_groups p)
    (unix_names p) (net_groups p) (require_active p) (require_local p)
    v (response_inverse p) (constraints p).
Definition set_response_inverse (p : Policy) (v : PolkitImplicitAuthorization) : Policy :=
  Build_Policy (id p) (next p) (actions p) (action_contains p) (unix_groups p)
    (unix_names p) (net_groups p) (require_active p) (require_local p)
    (response p) v (constraints p).
(** [policy->constraints |= flag]. *)
Definition add_constraint (p : Policy) (flag : Z) : Policy :=
  Build_Policy (id p) (next p) (actions p) (action_contains p) (unix_groups p)
    (unix_names p) (net_groups p) (require_active p) (require_local p)
    (response p) (response_inverse p) (Z.lor (constraints p) flag).

Definition set_file_next (f : PolicyFile) (v : option PolicyFile) : PolicyFile :=
  Build_PolicyFile v (rules_normal f) (rules_admin f).

(** ** The collaborators *)

(** A [GError] that is set. *)
Record GError : Type := Build_GError { message : string }.

(** [struct passwd], with the members the sources read. *)
Record passwd : Type := Build_passwd { pw_name : string; pw_gid : Z }.

(** What the sources take from their build configuration, from GLib, from
    libc and from polkit. A call with a [GError **] argument returns its
    value on the left and the error it sets on the right. *)
Class Host : Type := Build_Host {
  (** [WHEEL_GROUP] of [config.h] *)
  WHEEL_GROUP : string;
  (** the enumerator of [PolkitImplicitAuthorization] whose value is 0: what
      [g_new0] leaves in [response] and [response_inverse] *)
  implicit_authorization_zero : PolkitImplicitAuthorization;
  (** [polkit_implicit_authorization_from_string]: [None] when it returns
      [FALSE] *)
  polkit_implicit_authorization_from_string :
    string -> option PolkitImplicitAuthorization;
  GKeyFile : Type;
  g_key_file_load_from_file : string -> GKeyFile + GError;
  g_key_file_has_group : GKeyFile -> string -> bool;
  g_key_file_has_key : GKeyFile -> string -> string -> bool;
  g_key_file_get_string_list : GKeyFile -> string -> string -> list string + GError;
  g_key_file_get_string : GKeyFile -> string -> string -> string + GError;
  g_key_file_get_boolean : GKeyFile -> string -> string -> bool + GError;
  (** [g_dir_open] followed by [g_dir_read_name] until it returns [NULL]:
      the names in a directory, in the order they are read *)
  g_dir_read_names : string -> list string + GError;
  polkit_system_bus_name_get_process_sync : string -> Z + GError;
  getpwuid : Z -> option passwd;
  (** [getgrouplist (name, gid, gids, &num_gids)]: [None] when it returns a
      negative value *)
  getgrouplist : string -> Z -> option (list Z);
  (** [getgrgid (gid)->gr_name] *)
  getgrgid : Z -> option string;
  polkit_identity_from_string : string -> PolkitIdentity + GError
}.

Definition POLICY_WHEEL_GROUP `{Host} : string := WHEEL_GROUP.

(** ** polkitbackendpolicyfile.c: the rule compiler *)

Section PolicyFileC.
Context `{host : Host}.

(** [g_new0 (Policy, 1)] with [id] set to [section_id]. *)
Definition g_new0_Policy (section_id : string) : Policy :=
  Build_Policy section_id None [] [] [] [] [] false false
    implicit_authorization_zero implicit_authorization_zero 0.

Definition policy_string_to_result (inp : string) : PolkitImplicitAuthorization :=
  let comparison := g_ascii_strdown inp in
  match polkit_implicit_authorization_from_string (g_strstrip comparison) with
  | None => POLKIT_IMPLICIT_AUTHORIZATION_UNKNOWN
  | Some ret => ret
  end.

(** One block of [policy_load]: the policy it leaves on the left, or, on the
    right, [goto handle_err] with the value [err] has there ([None] when
    [err] is still [NULL]). *)
Definition load_step : Type := Policy -> Policy + option GError.

Definition load_string_list (file : GKeyFile) (section_id key : string)
    (set : Policy -> list string -> Policy) (flag : Z) : load_step :=
  fun policy =>
    if g_key_file_has_key file section_id key then
      match g_key_file_get_string_list file section_id key with
      | inr err => inr (Some err)
      | inl segments => inl (add_constraint (set policy segments) flag)
      end
    else inl policy.

Definition load_boolean (file : GKeyFile) (section_id key : string)
    (set : Policy -> bool -> Policy) (flag : Z) : load_step :=
  fun policy =>
    if g_key_file_has_key file section_id key then
      match g_key_file_get_boolean file section_id key with
      | inr err => inr (Some err)
      | inl b => inl (add_constraint (set policy b) flag)
      end
    else inl policy.

(** The block for [Result]. *)
Definition load_result (file : GKeyFile) (section_id : string) : load_step :=
  fun policy =>
    if g_key_file_has_key file section_id "Result" then
      match g_key_file_get_string file section_id "Result" with
      | inr err => inr (Some err)
      | inl result =>
          let policy := set_response policy (policy_string_to_result (g_strstrip result)) in
          if is_unknown (response policy) then inr None
          else inl (add_constraint policy PF_CONSTRAINT_RESULT)
      end
    else inl policy.

(** The block for [ResultInverse]. The test after the assignment reads
    [policy->response], as the source does. *)
Definition load_result_inverse (file : GKeyFile) (section_id : string) : load_step :=
  fun policy =>
    if g_key_file_has_key file section_id "ResultInverse" then
      match g_key_file_get_string file section_id "ResultInverse" with
      | inr err => inr (Some err)
      | inl result =>
          let policy :=
            set_response_inverse policy (policy_string_to_result (g_strstrip result)) in
          if is_unknown (response policy) then inr None
          else inl (add_constraint policy PF_CONSTRAINT_RESULT_INVERSE)
      end
    else inl policy.

Definition and_then (r : Policy + option GError) (k : load_step) : Policy + option GError :=
  match r with
  | inl policy => k policy
  | inr err => inr err
  end.

(** [policy_load]: [Ok None] when it returns [NULL]. Under [handle_err] the
    source prints [err->message]; reached with [err] still [NULL] (from the
    two verdict blocks) that read does not return. *)
Definition policy_load (file : GKeyFile) (section_id : string) : result (option Policy) :=
  if negb (g_key_file_has_group file section_id) then Ok None
  else
    let policy := g_new0_Policy section_id in
    let r := inl policy in
    let r := and_then r (load_string_list file section_id "Actions"
                           set_actions PF_CONSTRAINT_ACTIONS) in
    let r := and_then r (load_string_list file section_id "ActionContains"
                           set_action_contains PF_CONSTRAINT_ACTION_CONTAINS) in
    let r := and_then r (load_string_list file section_id "InUnixGroups"
                           set_unix_groups PF_CONSTRAINT_UNIX_GROUPS) in
    let r := and_then r (load_string_list file section_id "InNetGroups"
                           set_net_groups PF_CONSTRAINT_NET_GROUPS) in
    let r := and_then r (load_result file section_id) in
    let r := and_then r (load_result_inverse file section_id) in
    let r := and_then r (load_string_list file section_id "InUserNames"
                           set_unix_names PF_CONSTRAINT_UNIX_NAMES) in
    let r := and_then r (load_boolean file section_id "SubjectActive"
                           set_require_active PF_CONSTRAINT_SUBJECT_ACTIVE) in
    let r := and_then r (load_boolean file section_id "SubjectLocal"
                           set_require_local PF_CONSTRAINT_SUBJECT_LOCAL) in
    match r with
    | inl policy => Ok (Some policy)
    | inr (Some err) => Ok None
    | inr None => Crash NullDereference
    end.

(** The loop of [policy_file_load_rules] over the section names: [Ok None]
    when it returns [FALSE], [Ok (Some chain)] when it runs to its end with
    [chain] in [*target]. *)
Fixpoint policy_file_load_chain (keyfile : GKeyFile) (sections : list string)
    : result (option (option Policy)) :=
  match sections with
  | [] => Ok (Some None)
  | s :: rest =>
      p <-- policy_load keyfile (g_strstrip s) ;;;
      match p with
      | None => Ok None
      | Some p =>
          tail <-- policy_file_load_chain keyfile rest ;;;
          match tail with
          | None => Ok None
          | Some tail => Ok (Some (Some (set_next p tail)))
          end
      end
  end.

Definition policy_file_load_rules (keyfile : GKeyFile) (section : string)
    : result (option (option Policy)) :=
  match g_key_file_get_string_list keyfile POLICY_SECTION section with
  | inr err => Ok None
  | inl sections => policy_file_load_chain keyfile sections
  end.

(** [policy_file_new_from_path]: the file on the left; on the right it
    returns [NULL], with the error it stored in [*err], if any. *)
Definition policy_file_new_from_path (path : string)
    : result (PolicyFile + option GError) :=
  match g_key_file_load_from_file path with
  | inr err => Ok (inr (Some err))
  | inl keyf =>
      normal <-- (if g_key_file_has_key keyf POLICY_SECTION "Rules"
                  then policy_file_load_rules keyf "Rules"
                  else Ok (Some None)) ;;;
      match normal with
      | None => Ok (inr None)
      | Some normal =>
          admin <-- (if g_key_file_has_key keyf POLICY_SECTION "AdminRules"
                     then policy_file_load_rules keyf "AdminRules"
                     else Ok (Some None)) ;;;
          match admin with
          | None => Ok (inr None)
          | Some admin =>
              let has_rules := g_key_file_has_key keyf POLICY_SECTION "Rules"
                               || g_key_file_has_key keyf POLICY_SECTION "AdminRules" in
              if negb has_rules then Ok (inr None)
              else Ok (inl (Build_PolicyFile None normal admin))
          end
      end
  end.

(** ** polkitbackendpolicyfile.c: the match evaluator *)

(** The loop over [policy->actions]. *)
Definition actions_loop (policy : Policy) (action_id : string) : bool :=
  existsb (fun a => let action := g_strstrip a in
                    g_str_equal action action_id || g_str_equal action POLICY_MATCH_ALL)
          (actions policy).

(** The loop over [policy->action_contains]. *)
Definition action_contains_loop (policy : Policy) (action_id : string) : bool :=
  existsb (fun a => let action := g_strstrip a in strstr action_id action)
          (action_contains policy).

(** The value of [conditions] after the two action blocks: the value
    [id_matched] takes. *)
Definition action_matched (policy : Policy) (action_id : string) : bool :=
  let conditions := false in
  let conditions :=
    if has_constraint (constraints policy) PF_CONSTRAINT_ACTIONS
    then (if actions_loop policy action_id then true else conditions)
    else conditions in
  let conditions :=
    if has_constraint (constraints policy) PF_CONSTRAINT_ACTION_CONTAINS
    then (if action_contains_loop policy action_id then true else conditions)
    else conditions in
  conditions.

(** The [%sudo%] substitution of the group loop. *)
Definition wheel_substitute (spec_group : string) : string :=
  if g_str_equal spec_group POLICY_MATCH_WHEEL then POLICY_WHEEL_GROUP else spec_group.

(** [local_test] after the two nested loops of the [InUnixGroups] block. *)
Definition unix_groups_loop (policy : Policy) (context : PolicyContext) : bool :=
  existsb (fun g =>
    existsb (fun test_group =>
      let spec_group := g_strstrip g in
      let group := wheel_substitute spec_group in
      g_str_equal group test_group) (groups context))
    (unix_groups policy).

(** [local_test] after the loop of the [InUserNames] block. *)
Definition unix_names_loop (policy : Policy) (context : PolicyContext) : bool :=
  existsb (fun n => let username_ := g_strstrip n in
                    g_str_equal username_ (username context))
          (unix_names policy).

(** The locals of [policy_test] on arrival at the label [unmatched]. *)
Record test_locals : Type := Build_test_locals {
  response_ : PolkitImplicitAuthorization;
  conditions_ : bool;
  id_matched_ : bool
}.

(** [policy_test] from its entry to the label [unmatched]. The local
    [response] is still [UNKNOWN] at every [goto unmatched]. *)
Definition policy_test_to_unmatched (policy : Policy) (action_id : string)
    (context : PolicyContext) : test_locals :=
  let unknown := POLKIT_IMPLICIT_AUTHORIZATION_UNKNOWN in
  let conditions := action_matched policy action_id in
  if negb conditions then Build_test_locals unknown conditions false
  else
    (* id_matched = TRUE *)
    if has_constraint (constraints policy) PF_CONSTRAINT_SUBJECT_ACTIVE
       && negb (Bool.eqb (subject_is_active context) (require_active policy))
    then Build_test_locals unknown conditions true
    else if has_constraint (constraints policy) PF_CONSTRAINT_SUBJECT_LOCAL
            && negb (Bool.eqb (subject_is_local context) (require_local policy))
    then Build_test_locals unknown false true
    else if has_constraint (constraints policy) PF_CONSTRAINT_UNIX_GROUPS
            && negb (unix_groups_loop policy context)
    then Build_test_locals unknown false true
    else if has_constraint (constraints policy) PF_CONSTRAINT_UNIX_NAMES
            && negb (unix_names_loop policy context)
    then Build_test_locals unknown false true
    else
      (* every block that was entered left conditions TRUE *)
      let conditions := true in
      Build_test_locals
        (if conditions && has_constraint (constraints policy) PF_CONSTRAINT_RESULT
         then response policy else unknown)
        conditions true.

(** [policy_test], on a [policy] that is not [NULL]. *)
Fixpoint policy_test (policy : Policy) (action_id : string)
    (context : PolicyContext) {struct policy} : PolkitImplicitAuthorization :=
  let l := policy_test_to_unmatched policy action_id context in
  if negb (id_matched_ l) then
    match next policy with
    | Some n => if is_unknown (response_ l) then policy_test n action_id context
                else response_ l
    | None => response_ l
    end
  else if negb (conditions_ l)
          && has_constraint (constraints policy) PF_CONSTRAINT_RESULT_INVERSE
  then response_inverse policy
  else
    match next policy with
    | Some n => if is_unknown (response_ l) then policy_test n action_id context
                else response_ l
    | None => response_ l
    end.

(** [policy_file_test], on a [file] that is not [NULL]. *)
Fixpoint policy_file_test (file : PolicyFile) (action_id : string)
    (context : PolicyContext) {struct file} : PolkitImplicitAuthorization :=
  let response :=
    match rules_normal file with
    | Some normal => policy_test normal action_id context
    | None => POLKIT_IMPLICIT_AUTHORIZATION_UNKNOWN
    end in
  match file_next file with
  | Some n => if is_unknown response then policy_file_test n action_id context
              else response
  | None => response
  end.

End PolicyFileC.

(** ** polkitbackendkeyfileauthority.c *)

(** [struct _PolkitBackendKeyfileAuthorityPrivate], without the directory
    monitors. *)
Record PolkitBackendKeyfileAuthorityPrivate : Type :=
  Build_PolkitBackendKeyfileAuthorityPrivate {
    rules_dirs : option (list string);
    policy : option PolicyFile
  }.

(** [rules_file_name_cmp]: the sign of [ret]; each [g_assert] that fails is
    a [Crash]. *)
Definition rules_file_name_cmp (a b : string) : result comparison :=
  match strrchr_tail a "/", strrchr_tail b "/" with
  | Some a_base, Some b_base =>
      match g_strcmp0 a_base b_base with
      | Eq =>
          (* /etc wins over /usr *)
          match g_strcmp0 a b with
          | Eq => Crash AssertionFailed
          | ret => Ok ret
          end
      | ret => Ok ret
      end
  | _, _ => Crash AssertionFailed
  end.

(** GLib's [g_list_sort] is a stable comparison sort. The model inserts the
    elements one by one through the comparator and stops at the first call
    of the comparator that does not return. Under a comparator that decides
    a strict order, as [rules_file_name_cmp] does, a list has one sorted
    arrangement ([g_list_sort_unique] below), and a sort has to compare two
    equal elements with each other, on which [rules_file_name_cmp] fails its
    last assertion. *)
Fixpoint g_list_insert_sorted {A : Type} (cmp : A -> A -> result comparison)
    (x : A) (l : list A) : result (list A) :=
  match l with
  | [] => Ok [x]
  | y :: l' =>
      c <-- cmp x y ;;;
      match c with
      | Gt => l'' <-- g_list_insert_sorted cmp x l' ;;; Ok (y :: l'')
      | _ => Ok (x :: l)
      end
  end.

Fixpoint g_list_sort {A : Type} (cmp : A -> A -> result comparison)
    (l : list A) : result (list A) :=
  match l with
  | [] => Ok []
  | x :: l' => s <-- g_list_sort cmp l' ;;; g_list_insert_sorted cmp x s
  end.

(** [(gint) n] printed with ["%d"]. *)
Definition printf_d (n : Z) : string :=
  let gint := (n + 2 ^ 31) mod 2 ^ 32 - 2 ^ 31 in
  NilZero.string_of_int (Z.to_int gint).

Section KeyfileAuthorityC.
Context `{host : Host}.

(** The paths [load_rules] collects from one directory, in the order it
    reads them. *)
Definition rules_dir_files (dir_name : string) : list string :=
  match g_dir_read_names dir_name with
  | inr error => []
  | inl names =>
      List.map (fun name => dir_name +:+ "/" +:+ name)
        (List.filter (fun name => g_str_has_suffix name ".keyrules") names)
  end.

(** The first loop of [load_rules]: every path is prepended to [files]. *)
Definition collect_rules_files (dirs : option (list string)) : list string :=
  match dirs with
  | None => []
  | Some dirs => rev (flat_map rules_dir_files dirs)
  end.

(** The second loop of [load_rules]: the chain of the files that compile.
    For a file that does not, the source prints [err->message]; when
    [policy_file_new_from_path] returned [NULL] without setting [err] that
    read does not return. *)
Fixpoint link_rules_files (files : list string) : result (option PolicyFile) :=
  match files with
  | [] => Ok None
  | filename :: l =>
      file <-- policy_file_new_from_path filename ;;;
      match file with
      | inr None => Crash NullDereference
      | inr (Some err) => link_rules_files l
      | inl file =>
          rest <-- link_rules_files l ;;;
          Ok (Some (set_file_next file rest))
      end
  end.

(** [load_rules]: [authority->priv->policy] is assigned when the first file
    compiles, and left as it is when none does. *)
Definition load_rules (authority : PolkitBackendKeyfileAuthorityPrivate)
    : result PolkitBackendKeyfileAuthorityPrivate :=
  let files := collect_rules_files (rules_dirs authority) in
  files <-- g_list_sort rules_file_name_cmp files ;;;
  chain <-- link_rules_files files ;;;
  match chain with
  | None => Ok authority
  | Some file =>
      Ok (Build_PolkitBackendKeyfileAuthorityPrivate (rules_dirs authority) (Some file))
  end.

(** [g_clear_pointer (&authority->priv->policy, policy_file_free)]. *)
Definition clear_policy (authority : PolkitBackendKeyfileAuthorityPrivate)
    : PolkitBackendKeyfileAuthorityPrivate :=
  Build_PolkitBackendKeyfileAuthorityPrivate (rules_dirs authority) None.

(** [reload_rules]: remove the old rules, then [load_rules]. *)
Definition reload_rules (authority : PolkitBackendKeyfileAuthorityPrivate)
    : result PolkitBackendKeyfileAuthorityPrivate :=
  load_rules (clear_policy authority).

(** The name of one group of the subject. *)
Definition group_name (gid : Z) : string :=
  match getgrgid gid with
  | None => printf_d gid
  | Some gr_name => gr_name
  end.

(** [polkit_backend_keyfile_internal_prepare_context]: [Ok None] when it
    returns [FALSE], [Ok (Some context)] when it returns [TRUE] with the
    context filled in. *)
Definition polkit_backend_keyfile_internal_prepare_context (context : PolicyContext)
    : result (option PolicyContext) :=
  let with_pid (k : result (option PolicyContext)) : result (option PolicyContext) :=
    match subject context with
    | PolkitUnixProcess pid => k
    | PolkitSystemBusName name =>
        match polkit_system_bus_name_get_process_sync name with
        | inr err => Ok None
        | inl pid => k
        end
    | PolkitUnixSession _ => Crash AssertionFailed
    end in
  with_pid
    match user_for_subject context with
    | PolkitUnixUser uid =>
        match getpwuid uid with
        | None =>
            Ok (Some (Build_PolicyContext (subject context) (user_for_subject context)
                        (subject_is_local context) (subject_is_active context)
                        [] (printf_d uid)))
        | Some pw =>
            let groups :=
              match getgrouplist (pw_name pw) (pw_gid pw) with
              | None => []
              | Some gids => List.map group_name gids
              end in
            Ok (Some (Build_PolicyContext (subject context) (user_for_subject context)
                        (subject_is_local context) (subject_is_active context)
                        groups (pw_name pw)))
        end
    | _ => Crash AssertionFailed
    end.

(** The context the two entry points set up before they prepare it. *)
Definition initial_context (subject : PolkitSubject) (user_for_subject : PolkitIdentity)
    (subject_is_local subject_is_active : bool) : PolicyContext :=
  Build_PolicyContext subject user_for_subject subject_is_local subject_is_active
    [] EmptyString.

(** [polkit_backend_keyfile_internal_build_admin]: [ret] grows at its head. *)
Definition polkit_backend_keyfile_internal_build_admin (ret : list PolkitIdentity)
    (grouping : list string) (id_prefix : string) : list PolkitIdentity :=
  fold_left
    (fun ret item =>
       let match_item := g_strstrip item in
       let identifier :=
         if g_str_equal match_item POLICY_MATCH_WHEEL then POLICY_WHEEL_GROUP
         else match_item in
       let nom := id_prefix +:+ ":" +:+ identifier in
       match polkit_identity_from_string nom with
       | inr err => ret
       | inl i => i :: ret
       end)
    grouping ret.

(** The body of the inner loop of the harvest, for one admin rule. *)
Definition admin_of_policy (policy : Policy) (ret : list PolkitIdentity)
    : list PolkitIdentity :=
  let ret :=
    if has_constraint (constraints policy) PF_CONSTRAINT_UNIX_GROUPS
    then polkit_backend_keyfile_internal_build_admin ret (unix_groups policy) "unix-group"
    else ret in
  let ret :=
    if has_constraint (constraints policy) PF_CONSTRAINT_UNIX_NAMES
    then polkit_backend_keyfile_internal_build_admin ret (unix_names policy) "unix-user"
    else ret in
  if has_constraint (constraints policy) PF_CONSTRAINT_NET_GROUPS
  then polkit_backend_keyfile_internal_build_admin ret (net_groups policy) "unix-netgroup"
  else ret.

(** The inner loop, from [policy] to the end of its chain. *)
Fixpoint admin_of_chain (policy : Policy) (ret : list PolkitIdentity)
    {struct policy} : list PolkitIdentity :=
  let ret := admin_of_policy policy ret in
  match next policy with
  | Some n => admin_of_chain n ret
  | None => ret
  end.

(** The outer loop, from [file] to the end of its chain. *)
Fixpoint admin_of_files (file : PolicyFile) (ret : list PolkitIdentity)
    {struct file} : list PolkitIdentity :=
  let ret :=
    match rules_admin file with
    | Some policy => admin_of_chain policy ret
    | None => ret
    end in
  match file_next file with
  | Some n => admin_of_files n ret
  | None => ret
  end.

(** The two loops and the [g_list_reverse] that follows them. *)
Definition harvest_admin_identities (authority : PolkitBackendKeyfileAuthorityPrivate)
    : list PolkitIdentity :=
  rev match policy authority with
      | Some file => admin_of_files file []
      | None => []
      end.

Definition polkit_backend_keyfile_authority_get_admin_auth_identities
    (authority : PolkitBackendKeyfileAuthorityPrivate)
    (caller subject : PolkitSubject) (user_for_subject : PolkitIdentity)
    (subject_is_local subject_is_active : bool) (action_id : string)
    : result (list PolkitIdentity) :=
  let context :=
    initial_context subject user_for_subject subject_is_local subject_is_active in
  prepared <-- polkit_backend_keyfile_internal_prepare_context context ;;;
  let ret :=
    match prepared with
    | None => []   (* goto context_fail *)
    | Some context => harvest_admin_identities authority
    end in
  match ret with
  | [] => Ok [polkit_unix_user_new 0]
  | _ => Ok ret
  end.

(** [check_authorization_sync]: [policy_file_test] reads
    [file->rules.normal] at once, which does not return when
    [authority->priv->policy] is [NULL]. *)
Definition polkit_backend_keyfile_authority_check_authorization_sync
    (authority : PolkitBackendKeyfileAuthorityPrivate)
    (caller subject : PolkitSubject) (user_for_subject : PolkitIdentity)
    (subject_is_local subject_is_active : bool) (action_id : string)
    (implicit : PolkitImplicitAuthorization) : result PolkitImplicitAuthorization :=
  let context :=
    initial_context subject user_for_subject subject_is_local subject_is_active in
  prepared <-- polkit_backend_keyfile_internal_prepare_context context ;;;
  match prepared with
  | None => Ok POLKIT_IMPLICIT_AUTHORIZATION_NOT_AUTHORIZED
  | Some context =>
      match policy authority with
      | None => Crash NullDereference
      | Some file =>
          let ret := policy_file_test file action_id context in
          if is_unknown ret then Ok implicit else Ok ret
      end
  end.

End KeyfileAuthorityC.

(** ** Views of the chains, and the notions the properties are stated with *)

(** The rules of a chain, first to last. *)
Fixpoint chain_policies (p : Policy) {struct p} : list Policy :=
  p :: match next p with
       | Some n => chain_policies n
       | None => []
       end.

(** The files of a chain, first to last. *)
Fixpoint chain_files (f : PolicyFile) {struct f} : list PolicyFile :=
  f :: match file_next f with
       | Some n => chain_files n
       | None => []
       end.

Definition rule_set_files (set : option PolicyFile) : list PolicyFile :=
  match set with
  | Some f => chain_files f
  | None => []
  end.

(** What [policy_file_test] takes from one file: the verdict of its normal
    chain. *)
Definition file_verdict `{Host} (file : PolicyFile) (action_id : string)
    (context : PolicyContext) : PolkitImplicitAuthorization :=
  match rules_normal file with
  | Some normal => policy_test normal action_id context
  | None => POLKIT_IMPLICIT_AUTHORIZATION_UNKNOWN
  end.

(** What [policy_test] returns when the rule leaves [response] at
    [UNKNOWN] and does not return its inverse verdict: the verdict of the
    rest of the chain. *)
Definition rest_of_chain `{Host} (policy : Policy) (action_id : string)
    (context : PolicyContext) : PolkitImplicitAuthorization :=
  match next policy with
  | Some n => policy_test n action_id context
  | None => POLKIT_IMPLICIT_AUTHORIZATION_UNKNOWN
  end.

(** Every constraint [policy] declares on the subject passes on [context]:
    the two flags agree with the context, and some listed group (the wheel
    alias replaced) or user name, white space stripped, is one of the
    context. *)
Definition constraints_pass `{Host} (policy : Policy) (context : PolicyContext) : Prop :=
  (has_constraint (constraints policy) PF_CONSTRAINT_SUBJECT_ACTIVE = true ->
   subject_is_active context = require_active policy)
  /\ (has_constraint (constraints policy) PF_CONSTRAINT_SUBJECT_LOCAL = true ->
      subject_is_local context = require_local policy)
  /\ (has_constraint (constraints policy) PF_CONSTRAINT_UNIX_GROUPS = true ->
      exists g t, g ∈ unix_groups policy /\ t ∈ groups context
                  /\ wheel_substitute (g_strstrip g) = t)
  /\ (has_constraint (constraints policy) PF_CONSTRAINT_UNIX_NAMES = true ->
      exists n, n ∈ unix_names policy /\ g_strstrip n = username context).

(** The two chains of a file. *)
Definition file_rules (file : PolicyFile) : option Policy * option Policy :=
  (rules_normal file, rules_admin file).

(** [file_verdict], from the two chains of the file. *)
Definition rules_verdict `{Host} (action_id : string) (context : PolicyContext)
    (rules : option Policy * option Policy) : PolkitImplicitAuthorization :=
  match fst rules with
  | Some normal => policy_test normal action_id context
  | None => POLKIT_IMPLICIT_AUTHORIZATION_UNKNOWN
  end.

(** The second loop of [load_rules] in two steps: the files that compile,
    in the order of the paths ... *)
Fixpoint compile_rules_files `{Host} (files : list string) : result (list PolicyFile) :=
  match files with
  | [] => Ok []
  | filename :: l =>
      file <-- policy_file_new_from_path filename ;;;
      match file with
      | inr None => Crash NullDereference
      | inr (Some err) => compile_rules_files l
      | inl file => rest <-- compile_rules_files l ;;; Ok (file :: rest)
      end
  end.

(** ... and their chain. *)
Fixpoint link_files (files : list PolicyFile) : option PolicyFile :=
  match files with
  | [] => None
  | file :: rest => Some (set_file_next file (link_files rest))
  end.

(** The first verdict of a list that is not [UNKNOWN]. *)
Fixpoint first_known (l : list PolkitImplicitAuthorization) : PolkitImplicitAuthorization :=
  match l with
  | [] => POLKIT_IMPLICIT_AUTHORIZATION_UNKNOWN
  | v :: l' => if is_unknown v then first_known l' else v
  end.

(** [needle] occurs in [haystack]. *)
Definition is_substring (needle haystack : string) : Prop :=
  exists pre post, haystack = pre +:+ needle +:+ post.

(** [x] comes before [y] in [l]. *)
Definition precedes {A : Type} (x y : A) (l : list A) : Prop :=
  exists l1 l2 l3, l = l1 ++ x :: l2 ++ y :: l3.

(** The strict order a comparator decides. *)
Definition cmp_lt {A : Type} (cmp : A -> A -> result comparison) (a b : A) : Prop :=
  cmp a b = Ok Lt.

(** The order of the rule files. *)
Definition rules_file_lt : string -> string -> Prop := cmp_lt rules_file_name_cmp.

(** Two rules that differ at most in their [net_groups] and in the bit
    [PF_CONSTRAINT_NET_GROUPS]. *)
Definition policy_eq_but_net_groups (p q : Policy) : Prop :=
  id p = id q /\ actions p = actions q /\ action_contains p = action_contains q
  /\ unix_groups p = unix_groups q /\ unix_names p = unix_names q
  /\ require_active p = require_active q /\ require_local p = require_local q
  /\ response p = response q /\ response_inverse p = response_inverse q
  /\ Z.lor (constraints p) PF_CONSTRAINT_NET_GROUPS
     = Z.lor (constraints q) PF_CONSTRAINT_NET_GROUPS.

(** Two chains of rules that differ at most in that way, rule by rule. *)
Fixpoint chain_eq_but_net_groups (p q : Policy) {struct p} : Prop :=
  policy_eq_but_net_groups p q
  /\ match next p, next q with
     | Some n, Some m => chain_eq_but_net_groups n m
     | None, None => True
     | _, _ => False
     end.

Definition opt_chain_eq_but_net_groups (p q : option Policy) : Prop :=
  match p, q with
  | Some p, Some q => chain_eq_but_net_groups p q
  | None, None => True
  | _, _ => False
  end.

(** Two rule sets that differ at most in that way, file by file. *)
Fixpoint files_eq_but_net_groups (f g : PolicyFile) {struct f} : Prop :=
  opt_chain_eq_but_net_groups (rules_normal f) (rules_normal g)
  /\ opt_chain_eq_but_net_groups (rules_admin f) (rules_admin g)
  /\ match file_next f, file_next g with
     | Some n, Some m => files_eq_but_net_groups n m
     | None, None => True
     | _, _ => False
     end.

(** ** A host to run the model on

    A small file system of key files, a user database and polkit's tables,
    for the examples below. *)
Module Demo.

(** A key file: its groups, each with its keys and their raw values. *)
Definition KeyFileData : Type := list (string * list (string * string)).

Fixpoint assoc {V : Type} (k : string) (l : list (string * V)) : option V :=
  match l with
  | [] => None
  | (k', v) :: l' => if String.eqb k k' then Some v else assoc k l'
  end.

Definition lookup_value (kf : KeyFileData) (group key : string) : option string :=
  match assoc group kf with
  | Some keys => assoc key keys
  | None => None
  end.

(** The pieces of a list value: the text before the first [;], and the
    pieces after it. *)
Fixpoint pieces (s : string) : string * list string :=
  match s with
  | EmptyString => (EmptyString, [])
  | String c s' =>
      let (h, t) := pieces s' in
      if Ascii.eqb c ";" then (EmptyString, h :: t) else (String c h, t)
  end.

(** A list value: its pieces, a last empty piece left out. *)
Definition split_list (s : string) : list string :=
  let (h, t) := pieces s in
  let l := h :: t in
  match List.last l EmptyString with
  | EmptyString => List.removelast l
  | _ => l
  end.

Definition missing : GError := Build_GError "Key file does not have the key".

Definition parse_boolean (s : string) : bool + GError :=
  if String.eqb s "true" || String.eqb s "1" then inl true
  else if String.eqb s "false" || String.eqb s "0" then inl false
  else inr (Build_GError "Value cannot be interpreted as a boolean").

(** polkit's names of the verdicts. *)
Definition implicit_authorization_from_string (s : string)
    : option PolkitImplicitAuthorization :=
  if String.eqb s "no" then Some POLKIT_IMPLICIT_AUTHORIZATION_NOT_AUTHORIZED
  else if String.eqb s "auth_self"
    then Some POLKIT_IMPLICIT_AUTHORIZATION_AUTHENTICATION_REQUIRED
  else if String.eqb s "auth_admin"
    then Some POLKIT_IMPLICIT_AUTHORIZATION_ADMINISTRATOR_AUTHENTICATION_REQUIRED
  else if String.eqb s "auth_self_keep"
    then Some POLKIT_IMPLICIT_AUTHORIZATION_AUTHENTICATION_REQUIRED_RETAINED
  else if String.eqb s "auth_admin_keep"
    then Some POLKIT_IMPLICIT_AUTHORIZATION_ADMINISTRATOR_AUTHENTICATION_REQUIRED_RETAINED
  else if String.eqb s "yes" then Some POLKIT_IMPLICIT_AUTHORIZATION_AUTHORIZED
  else None.

Definition users : list (string * Z) := [("root", 0); ("alice", 1000)].
Definition unix_group_ids : list (string * Z) := [("root", 0); ("wheel", 10); ("users", 100)].

(** What follows [prefix] in [s], when [s] starts with it. *)
Fixpoint after_prefix (prefix s : string) : option string :=
  match prefix, s with
  | EmptyString, _ => Some s
  | String a p', String b s' => if Ascii.eqb a b then after_prefix p' s' else None
  | _, _ => None
  end.

Definition identity_from_string (s : string) : PolkitIdentity + GError :=
  let unknown := Build_GError "Malformed identity string" in
  match after_prefix "unix-user:" s with
  | Some name =>
      match assoc name users with
      | Some uid => inl (PolkitUnixUser uid)
      | None => inr (Build_GError "No UNIX user with that name")
      end
  | None =>
      match after_prefix "unix-group:" s with
      | Some name =>
          match assoc name unix_group_ids with
          | Some gid => inl (PolkitUnixGroup gid)
          | None => inr (Build_GError "No UNIX group with that name")
          end
      | None =>
          match after_prefix "unix-netgroup:" s with
          | Some name => inl (PolkitUnixNetgroup name)
          | None => inr unknown
          end
      end
  end.

Definition demo_getpwuid (uid : Z) : option passwd :=
  if uid =? 0 then Some (Build_passwd "root" 0)
  else if uid =? 1000 then Some (Build_passwd "alice" 100)
  else None.

Definition demo_getgrouplist (name : string) (gid : Z) : option (list Z) :=
  if String.eqb name "alice" then Some [gid; 10] else Some [gid].

Definition demo_getgrgid (gid : Z) : option string :=
  if gid =? 0 then Some "root"
  else if gid =? 10 then Some "wheel"
  else if gid =? 100 then Some "users"
  else None.

(** The host over the directories [dirs] (each with the names it holds) and
    the key files [files] (each under its path). The bus name [:1.42] is
    owned by a process; no other is. *)
Definition demo_host (dirs : list (string * list string))
    (files : list (string * KeyFileData)) : Host :=
  Build_Host "wheel" POLKIT_IMPLICIT_AUTHORIZATION_NOT_AUTHORIZED
    implicit_authorization_from_string
    KeyFileData
    (fun path => match assoc path files with
                 | Some kf => inl kf
                 | None => inr (Build_GError "No such file or directory")
                 end)
    (fun kf group => match assoc group kf with Some _ => true | None => false end)
    (fun kf group key => match lookup_value kf group key with
                         | Some _ => true
                         | None => false
                         end)
    (fun kf group key => match lookup_value kf group key with
                         | Some v => inl (split_list v)
                         | None => inr missing
                         end)
    (fun kf group key => match lookup_value kf group key with
                         | Some v => inl v
                         | None => inr missing
                         end)
    (fun kf group key => match lookup_value kf group key with
                         | Some v => parse_boolean v
                         | None => inr missing
                         end)
    (fun dir => match assoc dir dirs with
                | Some names => inl names
                | None => inr (Build_GError "Error opening directory")
                end)
    (fun name => if String.eqb name ":1.42" then inl 4242
                 else inr (Build_GError "No such bus name"))
    demo_getpwuid demo_getgrouplist demo_getgrgid
    identity_from_string.

(** A rule with nothing declared, to build examples from. *)
Definition blank (name : string) : Policy :=
  Build_Policy name None [] [] [] [] [] false false
    POLKIT_IMPLICIT_AUTHORIZATION_NOT_AUTHORIZED
    POLKIT_IMPLICIT_AUTHORIZATION_NOT_AUTHORIZED 0.

Definition alice : PolicyContext :=
  Build_PolicyContext (PolkitUnixProcess 77) (PolkitUnixUser 1000) true true
    ["users"; "wheel"] "alice".

(** [alice] on a session that is not active. *)
Definition alice_inactive : PolicyContext :=
  Build_PolicyContext (PolkitUnixProcess 77) (PolkitUnixUser 1000) true false
    ["users"; "wheel"] "alice".

(** [alice] on a connection that is not local. *)
Definition alice_remote : PolicyContext :=
  Build_PolicyContext (PolkitUnixProcess 77) (PolkitUnixUser 1000) false true
    ["users"; "wheel"] "alice".

(** [[grant] Actions=org.example.action; Result=yes]. *)
Definition grant_rule : Policy :=
  {| id := "grant"; next := None;
     actions := ["org.example.action"]; action_contains := [];
     unix_groups := []; unix_names := []; net_groups := [];
     require_active := false; require_local := false;
     response := POLKIT_IMPLICIT_AUTHORIZATION_AUTHORIZED;
     response_inverse := POLKIT_IMPLICIT_AUTHORIZATION_NOT_AUTHORIZED;
     constraints := Z.lor PF_CONSTRAINT_ACTIONS PF_CONSTRAINT_RESULT |}.

(** [[active] Actions=org.example.action; SubjectActive=true;
    ResultInverse=no], followed by [grant]. *)
Definition active_rule : Policy :=
  {| id := "active"; next := Some grant_rule;
     actions := ["org.example.action"]; action_contains := [];
     unix_groups := []; unix_names := []; net_groups := [];
     require_active := true; require_local := false;
     response := POLKIT_IMPLICIT_AUTHORIZATION_NOT_AUTHORIZED;
     response_inverse := POLKIT_IMPLICIT_AUTHORIZATION_NOT_AUTHORIZED;
     constraints := Z.lor PF_CONSTRAINT_ACTIONS
                      (Z.lor PF_CONSTRAINT_SUBJECT_ACTIVE PF_CONSTRAINT_RESULT_INVERSE) |}.

(** [[local] Actions=org.example.action; SubjectLocal=true;
    ResultInverse=no], followed by [grant]. *)
Definition local_rule : Policy :=
  {| id := "local"; next := Some grant_rule;
     actions := ["org.example.action"]; action_contains := [];
     unix_groups := []; unix_names := []; net_groups := [];
     require_active := false; require_local := true;
     response := POLKIT_IMPLICIT_AUTHORIZATION_NOT_AUTHORIZED;
     response_inverse := POLKIT_IMPLICIT_AUTHORIZATION_NOT_AUTHORIZED;
     constraints := Z.lor PF_CONSTRAINT_ACTIONS
                      (Z.lor PF_CONSTRAINT_SUBJECT_LOCAL PF_CONSTRAINT_RESULT_INVERSE) |}.

(** [[spaced] Actions=org.other; org.example.action] and [Result=yes]: the
    second entry of the list keeps the blank after the separator. *)
Definition spaced_rule : Policy :=
  {| id := "spaced"; next := None;
     actions := ["org.other"; " org.example.action"]; action_contains := [];
     unix_groups := []; unix_names := []; net_groups := [];
     require_active := false; require_local := false;
     response := POLKIT_IMPLICIT_AUTHORIZATION_AUTHORIZED;
     response_inverse := POLKIT_IMPLICIT_AUTHORIZATION_NOT_AUTHORIZED;
     constraints := Z.lor PF_CONSTRAINT_ACTIONS PF_CONSTRAINT_RESULT |}.

(** [[star] Actions=org.example.*action; Result=yes]. *)
Definition star_rule : Policy :=
  {| id := "star"; next := None;
     actions := ["org.example.*action"]; action_contains := [];
     unix_groups := []; unix_names := []; net_groups := [];
     require_active := false; require_local := false;
     response := POLKIT_IMPLICIT_AUTHORIZATION_AUTHORIZED;
     response_inverse := POLKIT_IMPLICIT_AUTHORIZATION_NOT_AUTHORIZED;
     constraints := Z.lor PF_CONSTRAINT_ACTIONS PF_CONSTRAINT_RESULT |}.

(** [[admins] Actions=*; InUnixGroups=adm; wheel; Result=yes]. *)
Definition group_rule : Policy :=
  {| id := "admins"; next := None;
     actions := ["*"]; action_contains := [];
     unix_groups := ["adm"; " wheel"]; unix_names := []; net_groups := [];
     require_active := false; require_local := false;
     response := POLKIT_IMPLICIT_AUTHORIZATION_AUTHORIZED;
     response_inverse := POLKIT_IMPLICIT_AUTHORIZATION_NOT_AUTHORIZED;
     constraints := Z.lor PF_CONSTRAINT_ACTIONS
                      (Z.lor PF_CONSTRAINT_UNIX_GROUPS PF_CONSTRAINT_RESULT) |}.

(** [[sudoers] Actions=*; InUnixGroups=%sudo%; InNetGroups=ops; Result=yes]. *)
Definition sudo_rule : Policy :=
  {| id := "sudoers"; next := None;
     actions := ["*"]; action_contains := [];
     unix_groups := ["%sudo%"]; unix_names := []; net_groups := ["ops"];
     require_active := false; require_local := false;
     response := POLKIT_IMPLICIT_AUTHORIZATION_AUTHORIZED;
     response_inverse := POLKIT_IMPLICIT_AUTHORIZATION_NOT_AUTHORIZED;
     constraints := Z.lor PF_CONSTRAINT_ACTIONS
                      (Z.lor PF_CONSTRAINT_UNIX_GROUPS
                         (Z.lor PF_CONSTRAINT_NET_GROUPS PF_CONSTRAINT_RESULT)) |}.

(** [sudo_rule] without its [InNetGroups] key. *)
Definition sudo_rule_without_net_groups : Policy :=
  {| id := "sudoers"; next := None;
     actions := ["*"]; action_contains := [];
     unix_groups := ["%sudo%"]; unix_names := []; net_groups := [];
     require_active := false; require_local := false;
     response := POLKIT_IMPLICIT_AUTHORIZATION_AUTHORIZED;
     response_inverse := POLKIT_IMPLICIT_AUTHORIZATION_NOT_AUTHORIZED;
     constraints := Z.lor PF_CONSTRAINT_ACTIONS
                      (Z.lor PF_CONSTRAINT_UNIX_GROUPS PF_CONSTRAINT_RESULT) |}.

(** A host with no directory and no file. *)
Definition bare_host : Host := demo_host [] [].

(** A key file whose rule [r1] grants, with a [ResultInverse] that names no
    verdict. *)
Definition inverse_bogus_keyfile : KeyFileData :=
  [("Policy", [("Rules", "r1;")]);
   ("r1", [("Actions", "org.example.action;"); ("Result", "yes");
           ("ResultInverse", "bogus")])].

(** A key file whose rule [r1] has a [Result] that names no verdict. *)
Definition result_bogus_keyfile : KeyFileData :=
  [("Policy", [("Rules", "r1;")]);
   ("r1", [("Actions", "org.example.action;"); ("Result", "bogus")])].

(** A key file whose rule denies the action, and one whose rule grants it. *)
Definition deny_keyfile : KeyFileData :=
  [("Policy", [("Rules", "deny;")]);
   ("deny", [("Actions", "org.example.action;"); ("Result", "no")])].
Definition grant_keyfile : KeyFileData :=
  [("Policy", [("Rules", "grant;")]);
   ("grant", [("Actions", "org.example.action;"); ("Result", "yes")])].

Definition etc_dir : string := "/etc/polkit-1/rules.d".
Definition usr_dir : string := "/usr/share/polkit-1/rules.d".

(** The system directory holds [50-default.keyrules], which denies; the
    vendor directory holds a file of the same name, which grants. *)
Definition two_dirs_host : Host :=
  demo_host
    [(etc_dir, ["50-default.keyrules"; "README"]);
     (usr_dir, ["50-default.keyrules"])]
    [("/etc/polkit-1/rules.d/50-default.keyrules", deny_keyfile);
     ("/usr/share/polkit-1/rules.d/50-default.keyrules", grant_keyfile)].

(** A directory with the two key files whose verdict strings are wrong. *)
Definition bogus_host : Host :=
  demo_host
    [(etc_dir, ["10-inverse.keyrules"; "20-result.keyrules"])]
    [("/etc/polkit-1/rules.d/10-inverse.keyrules", inverse_bogus_keyfile);
     ("/etc/polkit-1/rules.d/20-result.keyrules", result_bogus_keyfile)].

(** The rule set of one file, with the rule [grant]. *)
Definition grant_file : PolicyFile := Build_PolicyFile None (Some grant_rule) None.

(** What [deny_keyfile] compiles to. *)
Definition deny_file : PolicyFile :=
  Build_PolicyFile None
    (Some {| id := "deny"; next := None;
             actions := ["org.example.action"]; action_contains := [];
             unix_groups := []; unix_names := []; net_groups := [];
             require_active := false; require_local := false;
             response := POLKIT_IMPLICIT_AUTHORIZATION_NOT_AUTHORIZED;
             response_inverse := POLKIT_IMPLICIT_AUTHORIZATION_NOT_AUTHORIZED;
             constraints := Z.lor PF_CONSTRAINT_ACTIONS PF_CONSTRAINT_RESULT |})
    None.

(** An authority that lists the vendor directory before the system
    directory, with [grant_file] as its active rule set. *)
Definition vendor_first : PolkitBackendKeyfileAuthorityPrivate :=
  Build_PolkitBackendKeyfileAuthorityPrivate (Some [usr_dir; etc_dir]) (Some grant_file).

End Demo.

(** ** The directory monitor and the construction of the authority *)

(** The events of a [GFileMonitor] ([GFileMonitorEvent] of GIO). *)
Inductive GFileMonitorEvent : Type :=
  | G_FILE_MONITOR_EVENT_CHANGED
  | G_FILE_MONITOR_EVENT_CHANGES_DONE_HINT
  | G_FILE_MONITOR_EVENT_DELETED
  | G_FILE_MONITOR_EVENT_CREATED
  | G_FILE_MONITOR_EVENT_ATTRIBUTE_CHANGED
  | G_FILE_MONITOR_EVENT_PRE_UNMOUNT
  | G_FILE_MONITOR_EVENT_UNMOUNTED
  | G_FILE_MONITOR_EVENT_MOVED
  | G_FILE_MONITOR_EVENT_RENAMED
  | G_FILE_MONITOR_EVENT_MOVED_IN
  | G_FILE_MONITOR_EVENT_MOVED_OUT.

(** [g_str_has_prefix (s, prefix)]. *)
Definition g_str_has_prefix (s prefix : string) : bool := String.prefix prefix s.

(** The test [on_dir_monitor_changed] makes on the base name of the file
    and on the event before it reloads. *)
Definition monitor_reloads (name : string) (event_type : GFileMonitorEvent) : bool :=
  negb (g_str_has_prefix name ".") && negb (g_str_has_prefix name "#")
  && g_str_has_suffix name ".keyrules"
  && match event_type with
     | G_FILE_MONITOR_EVENT_CREATED
     | G_FILE_MONITOR_EVENT_DELETED
     | G_FILE_MONITOR_EVENT_CHANGES_DONE_HINT => true
     | _ => false
     end.

Section MonitorC.
Context `{host : Host}.

(** [on_dir_monitor_changed]: [file] is the base name of the [GFile] of the
    event, [None] when the [GFile] is [NULL]. *)
Definition on_dir_monitor_changed (authority : PolkitBackendKeyfileAuthorityPrivate)
    (file : option string) (event_type : GFileMonitorEvent)
    : result PolkitBackendKeyfileAuthorityPrivate :=
  match file with
  | None => Ok authority
  | Some name =>
      if monitor_reloads name event_type then reload_rules authority
      else Ok authority
  end.

(** [polkit_backend_keyfile_authority_constructed], without the set-up of
    the monitors; the two directories of the build configuration are
    arguments. *)
Definition polkit_backend_keyfile_authority_constructed
    (PACKAGE_SYSCONF_DIR PACKAGE_DATA_DIR : string)
    (authority : PolkitBackendKeyfileAuthorityPrivate)
    : result PolkitBackendKeyfileAuthorityPrivate :=
  let authority :=
    match rules_dirs authority with
    | None =>
        Build_PolkitBackendKeyfileAuthorityPrivate
          (Some [PACKAGE_SYSCONF_DIR +:+ "/polkit-1/rules.d";
                 PACKAGE_DATA_DIR +:+ "/polkit-1/rules.d"])
          (policy authority)
    | Some _ => authority
    end in
  load_rules authority.

End MonitorC.

(** ** Notions for the further properties *)

Definition opt_chain_policies (p : option Policy) : list Policy :=
  match p with
  | Some p => chain_policies p
  | None => []
  end.

(** The rule with every entry of its four matched lists stripped: what the
    in-place [g_strstrip] of [policy_test] and of the harvest leaves. *)
Definition strip_policy_entries (p : Policy) (next' : option Policy) : Policy :=
  Build_Policy (id p) next'
    (List.map g_strstrip (actions p)) (List.map g_strstrip (action_contains p))
    (List.map g_strstrip (unix_groups p)) (List.map g_strstrip (unix_names p))
    (net_groups p) (require_active p) (require_local p)
    (response p) (response_inverse p) (constraints p).

(** The chain with the entries of every rule stripped. *)
Fixpoint strip_chain_entries (p : Policy) {struct p} : Policy :=
  strip_policy_entries p
    match next p with
    | Some n => Some (strip_chain_entries n)
    | None => None
    end.

(** Two rules that differ at most in the blanks around the entries of
    their four matched lists, as a rule and what the in-place [g_strstrip]
    of an evaluation has made of it. *)
Definition policy_eq_up_to_blanks (p q : Policy) : Prop :=
  id p = id q
  /\ List.map g_strstrip (actions p) = List.map g_strstrip (actions q)
  /\ List.map g_strstrip (action_contains p) = List.map g_strstrip (action_contains q)
  /\ List.map g_strstrip (unix_groups p) = List.map g_strstrip (unix_groups q)
  /\ List.map g_strstrip (unix_names p) = List.map g_strstrip (unix_names q)
  /\ net_groups p = net_groups q
  /\ require_active p = require_active q /\ require_local p = require_local q
  /\ response p = response q /\ response_inverse p = response_inverse q
  /\ constraints p = constraints q.

(** Two chains of rules that differ at most in that way, rule by rule. *)
Fixpoint chain_eq_up_to_blanks (p q : Policy) {struct p} : Prop :=
  policy_eq_up_to_blanks p q
  /\ match next p, next q with
     | Some n, Some m => chain_eq_up_to_blanks n m
     | None, None => True
     | _, _ => False
     end.

(** The file a path compiles to, if it does. *)
Definition compiled_file `{Host} (path : string) : option PolicyFile :=
  match policy_file_new_from_path path with
  | Ok (inl file) => Some file
  | _ => None
  end.

(** Two runs of the loader end alike: both return, with the same rule set,
    or both fail to return, in the same way. *)
Definition same_rule_set (r1 r2 : result PolkitBackendKeyfileAuthorityPrivate) : Prop :=
  match r1, r2 with
  | Ok a1, Ok a2 => policy a1 = policy a2
  | Crash c1, Crash c2 => c1 = c2
  | _, _ => False
  end.

(** The identity one entry of an admin rule stands for, if it parses. *)
Definition admin_identity `{Host} (id_prefix item : string) : option PolkitIdentity :=
  match polkit_identity_from_string
          (id_prefix +:+ ":" +:+ wheel_substitute (g_strstrip item)) with
  | inl i => Some i
  | inr _ => None
  end.

(** The identities of one admin rule: its groups, then its users, then its
    netgroups, each list in its order. *)
Definition policy_admin_identities `{Host} (p : Policy) : list PolkitIdentity :=
  (if has_constraint (constraints p) PF_CONSTRAINT_UNIX_GROUPS
   then omap (admin_identity "unix-group") (unix_groups p) else [])
  ++ (if has_constraint (constraints p) PF_CONSTRAINT_UNIX_NAMES
      then omap (admin_identity "unix-user") (unix_names p) else [])
  ++ (if has_constraint (constraints p) PF_CONSTRAINT_NET_GROUPS
      then omap (admin_identity "unix-netgroup") (net_groups p) else []).

(** [constraints_pass] as the tests [policy_test] makes. *)
Definition constraints_pass_b `{Host} (policy : Policy) (context : PolicyContext) : bool :=
  (negb (has_constraint (constraints policy) PF_CONSTRAINT_SUBJECT_ACTIVE)
   || Bool.eqb (subject_is_active context) (require_active policy))
  && (negb (has_constraint (constraints policy) PF_CONSTRAINT_SUBJECT_LOCAL)
      || Bool.eqb (subject_is_local context) (require_local policy))
  && (negb (has_constraint (constraints policy) PF_CONSTRAINT_UNIX_GROUPS)
      || unix_groups_loop policy context)
  && (negb (has_constraint (constraints policy) PF_CONSTRAINT_UNIX_NAMES)
      || unix_names_loop policy context).

(** [v] is the verdict the rule [r] gives on its own for the request: its
    [Result] with every declared constraint passing, or its [ResultInverse]
    with one of them failing; the action of [r] matches in both cases. *)
Definition verdict_of_rule `{Host} (r : Policy) (action_id : string)
    (context : PolicyContext) (v : PolkitImplicitAuthorization) : Prop :=
  action_matched r action_id = true
  /\ ((has_constraint (constraints r) PF_CONSTRAINT_RESULT = true
       /\ v = response r /\ constraints_pass r context)
      \/ (has_constraint (constraints r) PF_CONSTRAINT_RESULT_INVERSE = true
          /\ v = response_inverse r /\ ~ constraints_pass r context)).

(** What [policy_load] leaves of a list key in the rule it returns: the key
    is present, its bit is set and the list is what the key file returned;
    or the key is absent, its bit is clear and the list is empty. *)
Definition list_key_compiled `{Host} (file : GKeyFile) (section_id key : string)
    (flag : Z) (field : list string) (p : Policy) : Prop :=
  (g_key_file_has_key file section_id key = true
   /\ has_constraint (constraints p) flag = true
   /\ g_key_file_get_string_list file section_id key = inl field)
  \/ (g_key_file_has_key file section_id key = false
      /\ has_constraint (constraints p) flag = false
      /\ field = []).

(** The same for a boolean key. *)
Definition boolean_key_compiled `{Host} (file : GKeyFile) (section_id key : string)
    (flag : Z) (field : bool) (p : Policy) : Prop :=
  (g_key_file_has_key file section_id key = true
   /\ has_constraint (constraints p) flag = true
   /\ g_key_file_get_boolean file section_id key = inl field)
  \/ (g_key_file_has_key file section_id key = false
      /\ has_constraint (constraints p) flag = false
      /\ field = false).

(** The same for a verdict key: present, the verdict is the one its string
    names, [UNKNOWN] when it names none; absent, it is the zero of
    [g_new0]. *)
Definition verdict_key_compiled `{Host} (file : GKeyFile) (section_id key : string)
    (flag : Z) (field : PolkitImplicitAuthorization) (p : Policy) : Prop :=
  (g_key_file_has_key file section_id key = true
   /\ has_constraint (constraints p) flag = true
   /\ exists v, g_key_file_get_string file section_id key = inl v
                /\ field = policy_string_to_result (g_strstrip v))
  \/ (g_key_file_has_key file section_id key = false
      /\ has_constraint (constraints p) flag = false
      /\ field = implicit_authorization_zero).


(** What the accessors return for a key, with a default in place of an
    error. *)
Definition key_list `{Host} (file : GKeyFile) (s key : string) : list string :=
  match g_key_file_get_string_list file s key with
  | inl l => l
  | inr _ => []
  end.
Definition key_boolean `{Host} (file : GKeyFile) (s key : string) : bool :=
  match g_key_file_get_boolean file s key with
  | inl b => b
  | inr _ => false
  end.
Definition key_verdict `{Host} (file : GKeyFile) (s key : string)
    : PolkitImplicitAuthorization :=
  match g_key_file_get_string file s key with
  | inl v => policy_string_to_result (g_strstrip v)
  | inr _ => POLKIT_IMPLICIT_AUTHORIZATION_UNKNOWN
  end.

(** [present] when the group has the key, [absent] otherwise. *)
Definition if_present `{Host} {A : Type} (file : GKeyFile) (s key : string)
    (present absent : A) : A :=
  if g_key_file_has_key file s key then present else absent.

(** The rule [policy_load] returns for a group, written field by field. *)
Definition compiled_rule `{Host} (file : GKeyFile) (s : string) : Policy :=
  {| id := s; next := None;
     actions := if_present file s "Actions" (key_list file s "Actions") [];
     action_contains :=
       if_present file s "ActionContains" (key_list file s "ActionContains") [];
     unix_groups := if_present file s "InUnixGroups" (key_list file s "InUnixGroups") [];
     unix_names := if_present file s "InUserNames" (key_list file s "InUserNames") [];
     net_groups := if_present file s "InNetGroups" (key_list file s "InNetGroups") [];
     require_active :=
       if_present file s "SubjectActive" (key_boolean file s "SubjectActive") false;
     require_local :=
       if_present file s "SubjectLocal" (key_boolean file s "SubjectLocal") false;
     response :=
       if_present file s "Result" (key_verdict file s "Result")
         implicit_authorization_zero;
     response_inverse :=
       if_present file s "ResultInverse" (key_verdict file s "ResultInverse")
         implicit_authorization_zero;
     constraints :=
       Z.lor (if_present file s "Actions" PF_CONSTRAINT_ACTIONS 0)
        (Z.lor (if_present file s "ActionContains" PF_CONSTRAINT_ACTION_CONTAINS 0)
         (Z.lor (if_present file s "InUnixGroups" PF_CONSTRAINT_UNIX_GROUPS 0)
          (Z.lor (if_present file s "InNetGroups" PF_CONSTRAINT_NET_GROUPS 0)
           (Z.lor (if_present file s "Result" PF_CONSTRAINT_RESULT 0)
            (Z.lor (if_present file s "ResultInverse" PF_CONSTRAINT_RESULT_INVERSE 0)
             (Z.lor (if_present file s "InUserNames" PF_CONSTRAINT_UNIX_NAMES 0)
              (Z.lor (if_present file s "SubjectActive" PF_CONSTRAINT_SUBJECT_ACTIVE 0)
                     (if_present file s "SubjectLocal" PF_CONSTRAINT_SUBJECT_LOCAL
                        0)))))))) |}.

(** More inputs for the examples. *)
Module Samples.

(** A key file whose [Rules] key lists no rule. *)
Definition empty_rules_keyfile : Demo.KeyFileData :=
  [("Policy", [("Rules", "")])].

(** A key file with no [Policy] group. *)
Definition no_policy_keyfile : Demo.KeyFileData :=
  [("r1", [("Actions", "org.example.action;"); ("Result", "yes")])].

(** A key file with every key, the list values with blanks after the
    separators. *)
Definition full_keyfile : Demo.KeyFileData :=
  [("Policy", [("Rules", "first; second;"); ("AdminRules", "admins;")]);
   ("first", [("Actions", "org.example.action; org.example.other;");
              ("ActionContains", "example;");
              ("InUnixGroups", "%sudo%; users;");
              ("InNetGroups", "ops;");
              ("Result", " Yes ");
              ("ResultInverse", "auth_admin");
              ("InUserNames", "alice;");
              ("SubjectActive", "true");
              ("SubjectLocal", "true")]);
   ("second", [("Actions", "*;"); ("Result", "no")]);
   ("admins", [("InUnixGroups", "%sudo%; nobody;"); ("InUserNames", "root; alice;");
               ("InNetGroups", "ops;")])].

(** The system directory holds a hidden rule file, a file with no rules,
    and the full file. *)
Definition samples_host : Host :=
  Demo.demo_host
    [(Demo.etc_dir, [".hidden.keyrules"; "10-full.keyrules"]);
     (Demo.usr_dir, ["20-none.keyrules"])]
    [("/etc/polkit-1/rules.d/.hidden.keyrules", Demo.grant_keyfile);
     ("/etc/polkit-1/rules.d/10-full.keyrules", full_keyfile);
     ("/etc/polkit-1/rules.d/30-empty.keyrules", empty_rules_keyfile);
     ("/usr/share/polkit-1/rules.d/20-none.keyrules", no_policy_keyfile)].

(** What the group [first] of [full_keyfile] compiles to. *)
Definition first_rule : Policy :=
  Eval vm_compute in compiled_rule (H := samples_host) full_keyfile "first".


(** An authority over the system directory alone, and one that lists it
    twice. *)
Definition etc_only : PolkitBackendKeyfileAuthorityPrivate :=
  Build_PolkitBackendKeyfileAuthorityPrivate (Some [Demo.etc_dir]) None.
Definition etc_twice : PolkitBackendKeyfileAuthorityPrivate :=
  Build_PolkitBackendKeyfileAuthorityPrivate (Some [Demo.etc_dir; Demo.etc_dir]) None.
Definition etc_and_usr : PolkitBackendKeyfileAuthorityPrivate :=
  Build_PolkitBackendKeyfileAuthorityPrivate (Some [Demo.etc_dir; Demo.usr_dir]) None.

End Samples.

(** * Properties *)

(** ** Strings *)

Lemma g_strchug_head (s : string) :
  g_strchug s = EmptyString
  \/ exists c t, g_strchug s = String c t /\ g_ascii_isspace c = false.
Proof.
  induction s as [|c s IH]; simpl; [by left|].
  destruct (g_ascii_isspace c) eqn:E; [done|]. right; eauto.
Qed.

Lemma g_strchomp_cons (c : ascii) (t : string) :
  g_ascii_isspace c = false -> exists t', g_strchomp (String c t) = String c t'.
Proof. intros E. simpl. destruct (g_strchomp t); rewrite ?E; eauto. Qed.

Lemma g_strchomp_idemp (s : string) : g_strchomp (g_strchomp s) = g_strchomp s.
Proof.
  induction s as [|c s IH]; [done|].
  change (g_strchomp (String c s)) with
    (match g_strchomp s with
     | EmptyString => if g_ascii_isspace c then EmptyString else String c EmptyString
     | t => String c t
     end).
  destruct (g_strchomp s) as [|d u] eqn:E.
  - destruct (g_ascii_isspace c) eqn:Ec; simpl; [done|]. by rewrite Ec.
  - change (g_strchomp (String c (String d u))) with
      (match g_strchomp (String d u) with
       | EmptyString => if g_ascii_isspace c then EmptyString else String c EmptyString
       | t => String c t
       end).
    by rewrite IH.
Qed.

(** Stripping twice is stripping once: the in-place [g_strstrip] of the
    evaluator leaves strings on which it is the identity. *)
Lemma g_strstrip_idemp (s : string) : g_strstrip (g_strstrip s) = g_strstrip s.
Proof.
  unfold g_strstrip.
  destruct (g_strchug_head s) as [->|(c & t & -> & Hc)]; [done|].
  destruct (g_strchomp_cons c t Hc) as [t' E].
  rewrite E. simpl. rewrite Hc. rewrite <- E. apply g_strchomp_idemp.
Qed.

Lemma append_nil_l (t : string) : EmptyString +:+ t = t.
Proof. reflexivity. Qed.

Lemma append_cons (a : ascii) (s t : string) : String a s +:+ t = String a (s +:+ t).
Proof. reflexivity. Qed.

Lemma prefix_spec (p s : string) :
  String.prefix p s = true <-> exists post, s = p +:+ post.
Proof.
  revert s. induction p as [|a p IH]; intros s.
  - split; [eauto|]. by destruct s.
  - destruct s as [|b s]; simpl; [split; [done|by intros [? ?]]|].
    destruct (ascii_dec a b) as [->|Hab].
    + rewrite IH. split; intros [post E]; exists post;
        rewrite append_cons in *; congruence.
    + split; [done|]. intros [post E]. rewrite append_cons in E. congruence.
Qed.

(** [strstr] finds its needle exactly when the needle occurs. *)
Lemma strstr_spec (haystack needle : string) :
  strstr haystack needle = true <-> is_substring needle haystack.
Proof.
  unfold is_substring. induction haystack as [|c h IH].
  - cbn [strstr]. destruct (String.prefix needle "") eqn:E.
    + apply prefix_spec in E as [post E]. split; [|done].
      intros _. by exists EmptyString, post.
    + split; [done|]. intros (pre & post & E').
      destruct pre; [|by rewrite append_cons in E'].
      rewrite append_nil_l in E'.
      assert (String.prefix needle "" = true) by (apply prefix_spec; eauto).
      congruence.
  - cbn [strstr]. destruct (String.prefix needle (String c h)) eqn:E.
    + apply prefix_spec in E as [post E]. split; [|done].
      intros _. by exists EmptyString, post.
    + rewrite IH. split.
      * intros (pre & post & ->). by exists (String c pre), post.
      * intros (pre & post & E'). destruct pre as [|d pre].
        -- rewrite append_nil_l in E'.
           assert (String.prefix needle (String c h) = true)
             by (apply prefix_spec; eauto).
           congruence.
        -- rewrite append_cons in E'. injection E' as _ ->. eauto.
Qed.

Lemma strrchr_tail_append (d n : string) (c : ascii) :
  strrchr_tail (d +:+ String c n) c
  = Some (match strrchr_tail n c with Some t => t | None => n end).
Proof.
  induction d as [|a d IH].
  - rewrite append_nil_l. simpl.
    destruct (strrchr_tail n c); [done|]. by rewrite Ascii.eqb_refl.
  - rewrite append_cons. simpl. by rewrite IH.
Qed.

Lemma ascii_compare_refl (a : ascii) : Ascii.compare a a = Eq.
Proof. unfold Ascii.compare. apply N.compare_refl. Qed.

Lemma ascii_compare_trans (a b c : ascii) :
  Ascii.compare a b = Lt -> Ascii.compare b c = Lt -> Ascii.compare a c = Lt.
Proof.
  unfold Ascii.compare. rewrite !N.compare_lt_iff. lia.
Qed.

Lemma string_compare_refl (s : string) : String.compare s s = Eq.
Proof. induction s as [|a s IH]; simpl; [done|]. by rewrite ascii_compare_refl. Qed.

Lemma string_compare_trans (s1 s2 s3 : string) :
  String.compare s1 s2 = Lt -> String.compare s2 s3 = Lt -> String.compare s1 s3 = Lt.
Proof.
  revert s2 s3. induction s1 as [|a s1 IH]; intros [|b s2] [|c s3]; simpl; try done.
  destruct (Ascii.compare a b) eqn:Eab; try done;
    destruct (Ascii.compare b c) eqn:Ebc; try done; intros H1 H2.
  - apply Ascii.compare_eq_iff in Eab, Ebc. subst.
    rewrite ascii_compare_refl. eauto.
  - apply Ascii.compare_eq_iff in Eab. subst. by rewrite Ebc.
  - apply Ascii.compare_eq_iff in Ebc. subst. by rewrite Eab.
  - by rewrite (ascii_compare_trans a b c).
Qed.

Lemma string_compare_Gt_Lt (s1 s2 : string) :
  String.compare s1 s2 = Gt <-> String.compare s2 s1 = Lt.
Proof.
  rewrite (String.compare_antisym s2 s1).
  destruct (String.compare s1 s2); simpl; split; congruence.
Qed.

(** ** The comparator of the rule files and the sort *)

Lemma rules_file_name_cmp_Ok (a b : string) (c : comparison) :
  rules_file_name_cmp a b = Ok c ->
  exists a_base b_base,
    strrchr_tail a "/" = Some a_base /\ strrchr_tail b "/" = Some b_base
    /\ c <> Eq
    /\ (String.compare a_base b_base = c
        \/ (String.compare a_base b_base = Eq /\ String.compare a b = c)).
Proof.
  unfold rules_file_name_cmp, g_strcmp0.
  destruct (strrchr_tail a "/") as [a_base|]; [|done].
  destruct (strrchr_tail b "/") as [b_base|]; [|done].
  intros H. exists a_base, b_base. split; [done|]. split; [done|].
  destruct (String.compare a_base b_base) eqn:Eb.
  - destruct (String.compare a b) eqn:Ef; [done| |];
      injection H as <-; split; auto; discriminate.
  - injection H as <-. split; [discriminate|auto].
  - injection H as <-. split; [discriminate|auto].
Qed.

Lemma rules_file_name_cmp_Lt (a b a_base b_base : string) :
  strrchr_tail a "/" = Some a_base -> strrchr_tail b "/" = Some b_base ->
  (String.compare a_base b_base = Lt
   \/ (String.compare a_base b_base = Eq /\ String.compare a b = Lt)) ->
  rules_file_name_cmp a b = Ok Lt.
Proof.
  unfold rules_file_name_cmp, g_strcmp0. intros -> -> [->|[-> ->]]; done.
Qed.

Lemma rules_file_name_cmp_trans (a b c : string) :
  rules_file_lt a b -> rules_file_lt b c -> rules_file_lt a c.
Proof.
  unfold rules_file_lt, cmp_lt. intros Hab Hbc.
  apply rules_file_name_cmp_Ok in Hab as (a0 & b0 & Ha & Hb & _ & Hab).
  apply rules_file_name_cmp_Ok in Hbc as (b0' & c0 & Hb' & Hc & _ & Hbc).
  assert (b0' = b0) as -> by congruence.
  apply (rules_file_name_cmp_Lt a c a0 c0); [done..|].
  destruct Hab as [Hab|[Hab Hab']], Hbc as [Hbc|[Hbc Hbc']].
  - left. by apply (string_compare_trans a0 b0 c0).
  - left. apply String.compare_eq_iff in Hbc. by subst.
  - left. apply String.compare_eq_iff in Hab. by subst.
  - right. apply String.compare_eq_iff in Hab, Hbc. subst.
    split; [apply string_compare_refl|]. by apply (string_compare_trans a b c).
Qed.

Lemma rules_file_name_cmp_Gt (a b : string) :
  rules_file_name_cmp a b = Ok Gt -> rules_file_name_cmp b a = Ok Lt.
Proof.
  intros H. apply rules_file_name_cmp_Ok in H as (a0 & b0 & Ha & Hb & _ & H).
  apply (rules_file_name_cmp_Lt b a b0 a0); [done..|].
  destruct H as [H|[H H']].
  - left. by apply string_compare_Gt_Lt.
  - right. apply String.compare_eq_iff in H. subst.
    split; [apply string_compare_refl|]. by apply string_compare_Gt_Lt.
Qed.

Lemma rules_file_name_cmp_irrefl (a : string) : ~ rules_file_lt a a.
Proof.
  unfold rules_file_lt, cmp_lt. intros H.
  apply rules_file_name_cmp_Ok in H as (a0 & a0' & Ha & Ha' & _ & H).
  assert (a0' = a0) as -> by congruence.
  rewrite !string_compare_refl in H. by destruct H as [?|[_ ?]].
Qed.

Lemma rules_file_name_cmp_not_Eq (a b : string) : rules_file_name_cmp a b <> Ok Eq.
Proof.
  intros H. by apply rules_file_name_cmp_Ok in H as (_ & _ & _ & _ & ? & _).
Qed.

(** On two different paths that each hold a [/], the comparator returns. *)
Lemma rules_file_name_cmp_total (a b : string) :
  is_Some (strrchr_tail a "/") -> is_Some (strrchr_tail b "/") -> a <> b ->
  rules_file_name_cmp a b = Ok Lt \/ rules_file_name_cmp a b = Ok Gt.
Proof.
  intros [a0 Ha] [b0 Hb] Hne. unfold rules_file_name_cmp, g_strcmp0.
  rewrite Ha, Hb.
  destruct (String.compare a0 b0); auto.
  destruct (String.compare a b) eqn:E; auto.
  by apply String.compare_eq_iff in E.
Qed.

Section Sorting.
Context {A : Type} (cmp : A -> A -> result comparison).
Hypothesis cmp_trans : forall a b c, cmp_lt cmp a b -> cmp_lt cmp b c -> cmp_lt cmp a c.
Hypothesis cmp_Gt : forall a b, cmp a b = Ok Gt -> cmp_lt cmp b a.
Hypothesis cmp_irrefl : forall a, ~ cmp_lt cmp a a.
Hypothesis cmp_not_Eq : forall a b, cmp a b <> Ok Eq.

Lemma g_list_insert_sorted_perm (x : A) (l l' : list A) :
  g_list_insert_sorted cmp x l = Ok l' -> l' ≡ₚ x :: l.
Proof.
  revert l'. induction l as [|y l IH]; intros l'; simpl.
  - by intros [= <-].
  - destruct (cmp x y) as [[]|]; simpl; try by intros [= <-].
    destruct (g_list_insert_sorted cmp x l) as [l''|]; simpl; [|done].
    intros [= <-]. rewrite (IH l'' eq_refl). apply Permutation_swap.
Qed.

Lemma g_list_insert_sorted_sorted (x : A) (l l' : list A) :
  StronglySorted (cmp_lt cmp) l ->
  g_list_insert_sorted cmp x l = Ok l' -> StronglySorted (cmp_lt cmp) l'.
Proof.
  revert l'. induction l as [|y l IH]; intros l' Hs; simpl.
  - intros [= <-]. repeat constructor.
  - apply StronglySorted_inv in Hs as [Hs Hy].
    destruct (cmp x y) as [[]|] eqn:E; simpl.
    + by destruct (cmp_not_Eq x y).
    + intros [= <-]. constructor; [by constructor|].
      constructor; [done|].
      eapply Forall_impl; [exact Hy|]. intros z Hz. by apply (cmp_trans x y z).
    + destruct (g_list_insert_sorted cmp x l) as [l''|] eqn:E'; simpl; [|done].
      intros [= <-]. constructor; [by apply IH|].
      rewrite (g_list_insert_sorted_perm x l l'' E').
      constructor; [by apply cmp_Gt|done].
    + done.
Qed.

Lemma g_list_sort_perm (l l' : list A) : g_list_sort cmp l = Ok l' -> l' ≡ₚ l.
Proof.
  revert l'. induction l as [|x l IH]; intros l'; simpl.
  - by intros [= <-].
  - destruct (g_list_sort cmp l) as [s|]; simpl; [|done].
    intros H. rewrite (g_list_insert_sorted_perm x s l' H).
    by rewrite (IH s eq_refl).
Qed.

Lemma g_list_sort_sorted (l l' : list A) :
  g_list_sort cmp l = Ok l' -> StronglySorted (cmp_lt cmp) l'.
Proof.
  revert l'. induction l as [|x l IH]; intros l'; simpl.
  - intros [= <-]. constructor.
  - destruct (g_list_sort cmp l) as [s|]; simpl; [|done].
    intros H. eapply g_list_insert_sorted_sorted; [|exact H]. by apply IH.
Qed.

Lemma g_list_insert_sorted_returns (x : A) (l : list A) :
  (forall y, y ∈ l -> exists c, cmp x y = Ok c) ->
  exists l', g_list_insert_sorted cmp x l = Ok l'.
Proof.
  induction l as [|y l IH]; intros H; simpl; [eauto|].
  destruct (H y) as [c ->]; [left|]. simpl.
  destruct c; eauto.
  destruct IH as [l'' ->]; [intros z Hz; apply H; by right|].
  simpl. eauto.
Qed.

(** The sort returns when the comparator returns on every two different
    elements, and no element occurs twice. *)
Lemma g_list_sort_returns (l : list A) :
  NoDup l ->
  (forall x y, x ∈ l -> y ∈ l -> x <> y -> exists c, cmp x y = Ok c) ->
  exists l', g_list_sort cmp l = Ok l'.
Proof.
  induction l as [|x l IH]; intros Hnd H; simpl; [eauto|].
  apply NoDup_cons in Hnd as [Hx Hnd].
  destruct IH as [s Hs]; [done|intros y z ? ? ?; apply H; by try right|].
  rewrite Hs. simpl. apply g_list_insert_sorted_returns.
  intros y Hy. rewrite (g_list_sort_perm l s Hs) in Hy.
  apply H; [left|by right|]. by intros ->.
Qed.

(** What the sort returns is the one sorted arrangement of the list. *)
Lemma g_list_sort_unique (l s s' : list A) :
  g_list_sort cmp l = Ok s ->
  s' ≡ₚ l -> StronglySorted (cmp_lt cmp) s' -> s' = s.
Proof.
  intros Hs Hperm Hsorted.
  apply (StronglySorted_unique_strong (cmp_lt cmp)).
  - intros x y _ _ Hxy Hyx. destruct (cmp_irrefl x). by apply (cmp_trans x y x).
  - done.
  - by apply (g_list_sort_sorted l).
  - by rewrite Hperm, (g_list_sort_perm l s Hs).
Qed.

(** In a sorted list, the smaller of two elements comes first. *)
Lemma sorted_precedes (l : list A) (x y : A) :
  StronglySorted (cmp_lt cmp) l -> x ∈ l -> y ∈ l -> cmp_lt cmp x y ->
  precedes x y l.
Proof.
  intros Hs Hx Hy Hxy.
  apply list_elem_of_split in Hx as (l1 & l2 & ->).
  apply elem_of_app in Hy as [Hy|Hy].
  - exfalso. apply (cmp_irrefl x). apply (cmp_trans x y x); [done|].
    apply (StronglySorted_app_1_elem_of _ l1 (x :: l2)); [done..|left].
  - apply elem_of_cons in Hy as [->|Hy]; [by destruct (cmp_irrefl x)|].
    apply list_elem_of_split in Hy as (l2a & l2b & ->).
    by exists l1, l2a, l2b.
Qed.
End Sorting.

(** ** The evaluator *)

(** A flag of [PolicyFileConstraints] is one bit. *)
Lemma has_constraint_testbit (c k : Z) :
  0 <= k -> has_constraint c (Z.shiftl 1 k) = Z.testbit c k.
Proof.
  intros Hk. unfold has_constraint. rewrite Z.shiftl_1_l.
  destruct (Z.testbit c k) eqn:E.
  - apply Z.eqb_eq. apply Z.bits_inj'. intros n Hn.
    rewrite Z.land_spec, Z.pow2_bits_eqb by done.
    destruct (Z.eqb_spec k n) as [->|]; [by rewrite E|apply andb_false_r].
  - apply Z.eqb_neq. intros H.
    assert (Z.testbit (Z.land c (2 ^ k)) k = true) as Hb
      by (rewrite H, Z.pow2_bits_eqb, Z.eqb_refl; done).
    rewrite Z.land_spec, E in Hb. done.
Qed.

Lemma policy_test_unfold `{Host} (policy : Policy) (action_id : string)
    (context : PolicyContext) :
  policy_test policy action_id context =
  let l := policy_test_to_unmatched policy action_id context in
  let pass_along :=
    match next policy with
    | Some n => if is_unknown (response_ l) then policy_test n action_id context
                else response_ l
    | None => response_ l
    end in
  if negb (id_matched_ l) then pass_along
  else if negb (conditions_ l)
          && has_constraint (constraints policy) PF_CONSTRAINT_RESULT_INVERSE
  then response_inverse policy
  else pass_along.
Proof. by destruct policy. Qed.

(** The rule whose action does not match hands over to the rest of its
    chain. *)
Lemma policy_test_unmatched `{Host} (policy : Policy) (action_id : string)
    (context : PolicyContext) :
  action_matched policy action_id = false ->
  policy_test policy action_id context = rest_of_chain policy action_id context.
Proof.
  intros E. rewrite policy_test_unfold. unfold policy_test_to_unmatched, rest_of_chain.
  rewrite E. simpl. by destruct (next policy).
Qed.

(** The rule whose action matches and whose [SubjectActive] differs from
    the context hands over to the rest of its chain: [conditions] is still
    [TRUE] at [unmatched], so [ResultInverse] is not looked at. *)
Lemma policy_test_subject_active_mismatch `{Host} (policy : Policy)
    (action_id : string) (context : PolicyContext) :
  action_matched policy action_id = true ->
  has_constraint (constraints policy) PF_CONSTRAINT_SUBJECT_ACTIVE = true ->
  subject_is_active context <> require_active policy ->
  policy_test policy action_id context = rest_of_chain policy action_id context.
Proof.
  intros E Ha Hne. rewrite policy_test_unfold.
  unfold policy_test_to_unmatched, rest_of_chain. rewrite E, Ha.
  assert (Bool.eqb (subject_is_active context) (require_active policy) = false) as ->
    by (by apply Bool.eqb_false_iff).
  simpl. by destruct (next policy).
Qed.

(** The three other constraints: when [SubjectActive] is absent or agrees,
    and [SubjectLocal], [InUnixGroups] or [InUserNames] is present and
    fails, a rule that declares [ResultInverse] returns it. *)
Lemma policy_test_inverse `{Host} (policy : Policy) (action_id : string)
    (context : PolicyContext) :
  action_matched policy action_id = true ->
  (has_constraint (constraints policy) PF_CONSTRAINT_SUBJECT_ACTIVE = true ->
   subject_is_active context = require_active policy) ->
  (has_constraint (constraints policy) PF_CONSTRAINT_SUBJECT_LOCAL = true
   /\ subject_is_local context <> require_local policy)
  \/ (has_constraint (constraints policy) PF_CONSTRAINT_UNIX_GROUPS = true
      /\ unix_groups_loop policy context = false)
  \/ (has_constraint (constraints policy) PF_CONSTRAINT_UNIX_NAMES = true
      /\ unix_names_loop policy context = false) ->
  has_constraint (constraints policy) PF_CONSTRAINT_RESULT_INVERSE = true ->
  policy_test policy action_id context = response_inverse policy.
Proof.
  intros E Ha Hfail Hinv. rewrite policy_test_unfold.
  unfold policy_test_to_unmatched. rewrite E, Hinv.
  destruct (has_constraint (constraints policy) PF_CONSTRAINT_SUBJECT_ACTIVE).
  - rewrite (Ha eq_refl), Bool.eqb_reflx. simpl.
    destruct Hfail as [[-> Hl]|[[-> Hg]|[-> Hn]]].
    + apply Bool.eqb_false_iff in Hl. by rewrite Hl.
    + rewrite Hg. simpl. by repeat case_match.
    + rewrite Hn. simpl. by repeat case_match.
  - simpl.
    destruct Hfail as [[-> Hl]|[[-> Hg]|[-> Hn]]].
    + apply Bool.eqb_false_iff in Hl. by rewrite Hl.
    + rewrite Hg. simpl. by repeat case_match.
    + rewrite Hn. simpl. by repeat case_match.
Qed.

(** The rule whose action matches and whose present constraints all pass
    returns its [Result], when it declares one that is not [UNKNOWN]. *)
Lemma policy_test_result `{Host} (policy : Policy) (action_id : string)
    (context : PolicyContext) :
  action_matched policy action_id = true ->
  (has_constraint (constraints policy) PF_CONSTRAINT_SUBJECT_ACTIVE = true ->
   subject_is_active context = require_active policy) ->
  (has_constraint (constraints policy) PF_CONSTRAINT_SUBJECT_LOCAL = true ->
   subject_is_local context = require_local policy) ->
  (has_constraint (constraints policy) PF_CONSTRAINT_UNIX_GROUPS = true ->
   unix_groups_loop policy context = true) ->
  (has_constraint (constraints policy) PF_CONSTRAINT_UNIX_NAMES = true ->
   unix_names_loop policy context = true) ->
  has_constraint (constraints policy) PF_CONSTRAINT_RESULT = true ->
  response policy <> POLKIT_IMPLICIT_AUTHORIZATION_UNKNOWN ->
  policy_test policy action_id context = response policy.
Proof.
  intros E Ha Hl Hg Hn Hr Hu. rewrite policy_test_unfold.
  unfold policy_test_to_unmatched. rewrite E, Hr.
  destruct (has_constraint (constraints policy) PF_CONSTRAINT_SUBJECT_ACTIVE);
    [rewrite (Ha eq_refl), Bool.eqb_reflx|];
    (destruct (has_constraint (constraints policy) PF_CONSTRAINT_SUBJECT_LOCAL);
       [rewrite (Hl eq_refl), Bool.eqb_reflx|]);
    (destruct (has_constraint (constraints policy) PF_CONSTRAINT_UNIX_GROUPS);
       [rewrite (Hg eq_refl)|]);
    (destruct (has_constraint (constraints policy) PF_CONSTRAINT_UNIX_NAMES);
       [rewrite (Hn eq_refl)|]);
    simpl; unfold is_unknown; rewrite bool_decide_eq_false_2 by done;
    by destruct (next policy).
Qed.

(** [policy_file_test] returns the first verdict, in the order of the
    chain, that is not [UNKNOWN]. *)
Lemma policy_file_test_first_known `{Host} (file : PolicyFile) (action_id : string)
    (context : PolicyContext) :
  policy_file_test file action_id context
  = first_known (List.map (fun f => file_verdict f action_id context) (chain_files file)).
Proof.
  induction file as [f Hf|f n Hf IH] using PolicyFile_chain_ind;
    destruct f as [nx rn ra]; simpl in Hf; subst nx; simpl.
  - unfold file_verdict; simpl. by destruct (is_unknown _) eqn:E; [apply bool_decide_eq_true in E|].
  - unfold file_verdict at 1; simpl. destruct (is_unknown _); [|done]. apply IH.
Qed.

Lemma first_known_app (l1 l2 : list PolkitImplicitAuthorization) :
  first_known (l1 ++ l2)
  = if is_unknown (first_known l1) then first_known l2 else first_known l1.
Proof.
  induction l1 as [|v l1 IH]; simpl; [done|].
  destruct (is_unknown v) eqn:E; [done|]. by rewrite E.
Qed.

(** ** C1: the inverse verdict *)

(** C1 (the code departs from the claim). The rule [active] matches the
    action, declares [SubjectActive=true] and [ResultInverse=no], and the
    subject's session is not active: the claim has the rule return its
    inverse verdict, [NOT_AUTHORIZED]. [policy_test] leaves [conditions] at
    [TRUE] on that path, skips the inverse verdict and returns what the next
    rule of the chain grants. The rule [local], which fails on
    [SubjectLocal] instead, returns its inverse verdict. *)
Theorem C1_subject_active_failure_skips_inverse :
  forall host : Host,
    action_matched Demo.active_rule "org.example.action" = true
    /\ has_constraint (constraints Demo.active_rule) PF_CONSTRAINT_SUBJECT_ACTIVE = true
    /\ subject_is_active Demo.alice_inactive <> require_active Demo.active_rule
    /\ has_constraint (constraints Demo.active_rule) PF_CONSTRAINT_RESULT_INVERSE = true
    /\ response_inverse Demo.active_rule = POLKIT_IMPLICIT_AUTHORIZATION_NOT_AUTHORIZED
    /\ policy_test Demo.active_rule "org.example.action" Demo.alice_inactive
       = POLKIT_IMPLICIT_AUTHORIZATION_AUTHORIZED
    /\ policy_test Demo.local_rule "org.example.action" Demo.alice_remote
       = POLKIT_IMPLICIT_AUTHORIZATION_NOT_AUTHORIZED.
Proof.
  intros host.
  assert (action_matched Demo.active_rule "org.example.action" = true) as Hm
    by reflexivity.
  assert (has_constraint (constraints Demo.active_rule) PF_CONSTRAINT_SUBJECT_ACTIVE = true)
    as Ha by reflexivity.
  assert (subject_is_active Demo.alice_inactive <> require_active Demo.active_rule)
    as Hne by discriminate.
  split; [exact Hm|]. split; [exact Ha|]. split; [exact Hne|].
  split; [reflexivity|]. split; [reflexivity|]. split.
  - rewrite (policy_test_subject_active_mismatch _ _ _ Hm Ha Hne).
    reflexivity.
  - apply policy_test_inverse; [reflexivity|discriminate| |reflexivity].
    left. split; [reflexivity|discriminate].
Qed.

(** ** C5: the action test is the gatekeeper *)

Lemma action_matched_undeclared (policy : Policy) (action_id : string) :
  has_constraint (constraints policy) PF_CONSTRAINT_ACTIONS = false ->
  has_constraint (constraints policy) PF_CONSTRAINT_ACTION_CONTAINS = false ->
  action_matched policy action_id = false.
Proof. unfold action_matched. by intros -> ->. Qed.

(** C5. A rule that declares neither [Actions] nor [ActionContains] matches
    no action, and a rule whose action test fails contributes nothing:
    [policy_test] returns what the next rule of the chain returns, and
    [UNKNOWN] when the rule is the last one. *)
Theorem C5_unmatched_action_skips_rule :
  forall (host : Host) (policy : Policy) (action_id : string) (context : PolicyContext),
    (has_constraint (constraints policy) PF_CONSTRAINT_ACTIONS = false
     /\ has_constraint (constraints policy) PF_CONSTRAINT_ACTION_CONTAINS = false)
    \/ action_matched policy action_id = false ->
    action_matched policy action_id = false
    /\ id_matched_ (policy_test_to_unmatched policy action_id context) = false
    /\ policy_test policy action_id context
       = match next policy with
         | Some n => policy_test n action_id context
         | None => POLKIT_IMPLICIT_AUTHORIZATION_UNKNOWN
         end.
Proof.
  intros host policy action_id context H.
  assert (action_matched policy action_id = false) as E.
  { destruct H as [[H1 H2]|H]; [by apply action_matched_undeclared|done]. }
  split; [done|]. split.
  - unfold policy_test_to_unmatched. by rewrite E.
  - by apply policy_test_unmatched.
Qed.

Lemma C5_unmatched_action_skips_rule_witness :
  (has_constraint (constraints (Demo.blank "idle")) PF_CONSTRAINT_ACTIONS = false
   /\ has_constraint (constraints (Demo.blank "idle")) PF_CONSTRAINT_ACTION_CONTAINS = false)
  /\ policy_test (host := Demo.bare_host) (Demo.blank "idle") "org.example.action" Demo.alice
     = POLKIT_IMPLICIT_AUTHORIZATION_UNKNOWN.
Proof.
  assert (has_constraint (constraints (Demo.blank "idle")) PF_CONSTRAINT_ACTIONS = false
          /\ has_constraint (constraints (Demo.blank "idle")) PF_CONSTRAINT_ACTION_CONTAINS
             = false) as H by (split; reflexivity).
  split; [exact H|].
  exact (proj2 (proj2 (C5_unmatched_action_skips_rule Demo.bare_host (Demo.blank "idle")
                         "org.example.action" Demo.alice (or_introl H)))).
Defined.

(** ** C6: the action test *)

Lemma actions_loop_spec (policy : Policy) (action_id : string) :
  actions_loop policy action_id = true <->
  exists a, a ∈ actions policy
            /\ (g_strstrip a = action_id \/ g_strstrip a = POLICY_MATCH_ALL).
Proof.
  unfold actions_loop. rewrite existsb_exists. split.
  - intros (a & Ha & Hm). exists a. split; [by apply list_elem_of_In|].
    apply orb_true_iff in Hm as [Hm|Hm]; apply String.eqb_eq in Hm; auto.
  - intros (a & Ha & Hm). exists a. split; [by apply list_elem_of_In|].
    apply orb_true_iff. unfold g_str_equal. rewrite !String.eqb_eq. done.
Qed.

Lemma action_contains_loop_spec (policy : Policy) (action_id : string) :
  action_contains_loop policy action_id = true <->
  exists a, a ∈ action_contains policy /\ is_substring (g_strstrip a) action_id.
Proof.
  unfold action_contains_loop. rewrite existsb_exists.
  split; intros (a & Ha & Hm); exists a;
    (split; [by apply list_elem_of_In|by apply strstr_spec]).
Qed.

(** The claim C6 as it is stated, entries compared as they are listed, does
    not hold: the list value [org.other; org.example.action] leaves a blank
    before its second entry, which [policy_test] strips before it compares. *)
Lemma C6_entries_are_not_compared_as_listed :
  ~ (forall (policy : Policy) (action_id : string),
       action_matched policy action_id = true <->
       (has_constraint (constraints policy) PF_CONSTRAINT_ACTIONS = true
        /\ exists a, a ∈ actions policy /\ (a = action_id \/ a = POLICY_MATCH_ALL))
       \/ (has_constraint (constraints policy) PF_CONSTRAINT_ACTION_CONTAINS = true
           /\ exists a, a ∈ action_contains policy /\ is_substring a action_id)).
Proof.
  intros H.
  destruct (proj1 (H Demo.spaced_rule "org.example.action") eq_refl)
    as [(_ & a & Ha & Hm)|(Hc & _)]; [|discriminate Hc].
  simpl in Ha. apply elem_of_cons in Ha as [->|Ha].
  - by destruct Hm.
  - apply elem_of_cons in Ha as [->|Ha]; [by destruct Hm|].
    by apply elem_of_nil in Ha.
Qed.

(** C6, amended. The action of a rule matches the action id exactly when
    the rule declares [Actions] and some entry of it, its surrounding white
    space stripped, is the action id or the one-character wildcard, or the
    rule declares [ActionContains] and some entry of it, stripped, occurs in
    the action id. An entry with a star inside it is no pattern: alone in
    [Actions], it matches the action id that is the entry itself and no
    other. *)
Theorem C6_action_match_after_stripping :
  forall (policy : Policy) (action_id : string),
    (action_matched policy action_id = true <->
     (has_constraint (constraints policy) PF_CONSTRAINT_ACTIONS = true
      /\ exists a, a ∈ actions policy
                   /\ (g_strstrip a = action_id \/ g_strstrip a = POLICY_MATCH_ALL))
     \/ (has_constraint (constraints policy) PF_CONSTRAINT_ACTION_CONTAINS = true
         /\ exists a, a ∈ action_contains policy
                      /\ is_substring (g_strstrip a) action_id))
    /\ (has_constraint (constraints policy) PF_CONSTRAINT_ACTIONS = true ->
        has_constraint (constraints policy) PF_CONSTRAINT_ACTION_CONTAINS = false ->
        actions policy = ["org.example.*action"] ->
        (action_matched policy action_id = true <-> action_id = "org.example.*action")).
Proof.
  intros policy action_id.
  assert (action_matched policy action_id = true <->
     (has_constraint (constraints policy) PF_CONSTRAINT_ACTIONS = true
      /\ exists a, a ∈ actions policy
                   /\ (g_strstrip a = action_id \/ g_strstrip a = POLICY_MATCH_ALL))
     \/ (has_constraint (constraints policy) PF_CONSTRAINT_ACTION_CONTAINS = true
         /\ exists a, a ∈ action_contains policy
                      /\ is_substring (g_strstrip a) action_id)) as Hiff.
  { rewrite <- actions_loop_spec, <- action_contains_loop_spec.
    unfold action_matched.
    destruct (has_constraint (constraints policy) PF_CONSTRAINT_ACTIONS),
      (has_constraint (constraints policy) PF_CONSTRAINT_ACTION_CONTAINS),
      (actions_loop policy action_id), (action_contains_loop policy action_id);
      intuition congruence. }
  split; [exact Hiff|].
  intros Ha Hc Hl. rewrite Hiff, Ha, Hc, Hl. split.
  - intros [(_ & a & Hin & Hm)|(? & _)]; [|done].
    apply list_elem_of_singleton in Hin as ->.
    destruct Hm as [Hm|Hm]; [by rewrite <- Hm|discriminate Hm].
  - intros ->. left. split; [done|]. exists "org.example.*action".
    split; [apply list_elem_of_singleton; done|by left].
Qed.

Lemma C6_action_match_after_stripping_witness :
  action_matched Demo.star_rule "org.example.action" = false
  /\ action_matched Demo.star_rule "org.example.*action" = true
  /\ action_matched Demo.spaced_rule "org.example.action" = true.
Proof.
  pose proof (proj2 (C6_action_match_after_stripping Demo.star_rule "org.example.action")
                eq_refl eq_refl eq_refl) as H1.
  pose proof (proj2 (C6_action_match_after_stripping Demo.star_rule "org.example.*action")
                eq_refl eq_refl eq_refl) as H2.
  split; [|split].
  - destruct (action_matched Demo.star_rule "org.example.action"); [|reflexivity].
    discriminate (proj1 H1 eq_refl).
  - exact (proj2 H2 eq_refl).
  - reflexivity.
Defined.

(** ** C7: the constraints on the subject *)

Lemma unix_groups_loop_spec `{Host} (policy : Policy) (context : PolicyContext) :
  unix_groups_loop policy context = true <->
  exists g t, g ∈ unix_groups policy /\ t ∈ groups context
              /\ wheel_substitute (g_strstrip g) = t.
Proof.
  unfold unix_groups_loop. rewrite existsb_exists. split.
  - intros (g & Hg & Hm). apply existsb_exists in Hm as (t & Ht & Hm).
    exists g, t. rewrite !list_elem_of_In. by apply String.eqb_eq in Hm.
  - intros (g & t & Hg & Ht & Hm). exists g. split; [by apply list_elem_of_In|].
    apply existsb_exists. exists t. split; [by apply list_elem_of_In|].
    by apply String.eqb_eq.
Qed.

Lemma unix_names_loop_spec (policy : Policy) (context : PolicyContext) :
  unix_names_loop policy context = true <->
  exists n, n ∈ unix_names policy /\ g_strstrip n = username context.
Proof.
  unfold unix_names_loop. rewrite existsb_exists.
  split; intros (n & Hn & Hm); exists n;
    (split; [by apply list_elem_of_In|by apply String.eqb_eq]).
Qed.

(** The claim C7 as it is stated, group entries compared as they are listed
    once the wheel alias is replaced, does not hold: the list value
    [adm; wheel] leaves a blank before its second entry, which [policy_test]
    strips before it compares; a subject in the group [wheel] passes. *)
Lemma C7_group_entries_are_not_compared_as_listed :
  ~ (forall (host : Host) (policy : Policy) (context : PolicyContext),
       unix_groups_loop policy context = true <->
       exists g t, g ∈ unix_groups policy /\ t ∈ groups context
                   /\ wheel_substitute g = t).
Proof.
  intros H.
  destruct (proj1 (H Demo.bare_host Demo.group_rule Demo.alice) eq_refl)
    as (g & t & Hg & Ht & Hm).
  simpl in Hg, Ht.
  assert (g = "adm" \/ g = " wheel") as Hg'.
  { apply elem_of_cons in Hg as [->|Hg]; [by left|].
    apply elem_of_cons in Hg as [->|Hg]; [by right|]. by apply elem_of_nil in Hg. }
  assert (t = "users" \/ t = "wheel") as Ht'.
  { apply elem_of_cons in Ht as [->|Ht]; [by left|].
    apply elem_of_cons in Ht as [->|Ht]; [by right|]. by apply elem_of_nil in Ht. }
  destruct Hg' as [->| ->], Ht' as [->| ->]; discriminate Hm.
Qed.

(** C7, amended. On a rule whose action matched: a declared [InUnixGroups]
    passes exactly when some listed entry, its surrounding white space
    stripped and the token [%sudo%] then replaced by the configured wheel
    group, is one of the groups of the context; a declared [InUserNames]
    passes exactly when some listed name, stripped, is the user name of the
    context; and the rule reaches its declared [Result] exactly when those
    pass and [SubjectActive] and [SubjectLocal], where declared, are equal
    to the flags of the context. *)
Theorem C7_subject_constraints_after_stripping :
  forall (host : Host) (policy : Policy) (action_id : string) (context : PolicyContext),
    (unix_groups_loop policy context = true <->
     exists g t, g ∈ unix_groups policy /\ t ∈ groups context
                 /\ (if String.eqb (g_strstrip g) "%sudo%" then WHEEL_GROUP
                     else g_strstrip g) = t)
    /\ (unix_names_loop policy context = true <->
        exists n, n ∈ unix_names policy /\ g_strstrip n = username context)
    /\ (action_matched policy action_id = true ->
        has_constraint (constraints policy) PF_CONSTRAINT_RESULT = true ->
        response policy <> POLKIT_IMPLICIT_AUTHORIZATION_UNKNOWN ->
        (response_ (policy_test_to_unmatched policy action_id context) = response policy
         <-> constraints_pass policy context)).
Proof.
  intros host policy action_id context.
  split; [apply unix_groups_loop_spec|]. split; [apply unix_names_loop_spec|].
  intros Hm Hr Hu. unfold constraints_pass.
  rewrite <- unix_groups_loop_spec, <- unix_names_loop_spec.
  unfold policy_test_to_unmatched. rewrite Hm, Hr. simpl.
  destruct (has_constraint (constraints policy) PF_CONSTRAINT_SUBJECT_ACTIVE);
    destruct (has_constraint (constraints policy) PF_CONSTRAINT_SUBJECT_LOCAL);
    destruct (has_constraint (constraints policy) PF_CONSTRAINT_UNIX_GROUPS);
    destruct (has_constraint (constraints policy) PF_CONSTRAINT_UNIX_NAMES);
    destruct (subject_is_active context), (require_active policy);
    destruct (subject_is_local context), (require_local policy);
    destruct (unix_groups_loop policy context), (unix_names_loop policy context);
    simpl; intuition congruence.
Qed.

Lemma C7_subject_constraints_after_stripping_witness :
  response_ (policy_test_to_unmatched (host := Demo.bare_host) Demo.group_rule
               "org.example.action" Demo.alice)
  = POLKIT_IMPLICIT_AUTHORIZATION_AUTHORIZED
  /\ constraints_pass (H := Demo.bare_host) Demo.group_rule Demo.alice.
Proof.
  pose proof (proj2 (proj2 (C7_subject_constraints_after_stripping Demo.bare_host
                              Demo.group_rule "org.example.action" Demo.alice))
                eq_refl eq_refl) as H.
  assert (response Demo.group_rule <> POLKIT_IMPLICIT_AUTHORIZATION_UNKNOWN) as Hu
    by discriminate.
  split; [reflexivity|]. exact (proj1 (H Hu) eq_refl).
Defined.

(** ** C10: the netgroups and the verdict *)

Lemma has_constraint_but_net_groups (c1 c2 k : Z) :
  Z.lor c1 PF_CONSTRAINT_NET_GROUPS = Z.lor c2 PF_CONSTRAINT_NET_GROUPS ->
  0 <= k -> k <> 7 ->
  has_constraint c1 (Z.shiftl 1 k) = has_constraint c2 (Z.shiftl 1 k).
Proof.
  intros H Hk Hne. rewrite !has_constraint_testbit by done.
  assert (Z.testbit (Z.lor c1 PF_CONSTRAINT_NET_GROUPS) k
          = Z.testbit (Z.lor c2 PF_CONSTRAINT_NET_GROUPS) k) as Hb by congruence.
  unfold PF_CONSTRAINT_NET_GROUPS in Hb.
  rewrite !Z.lor_spec, Z.shiftl_1_l, Z.pow2_bits_eqb in Hb by lia.
  destruct (Z.eqb_spec 7 k); [lia|]. by rewrite !orb_false_r in Hb.
Qed.

Lemma policy_test_to_unmatched_but_net_groups `{Host} (p q : Policy)
    (action_id : string) (context : PolicyContext) :
  policy_eq_but_net_groups p q ->
  policy_test_to_unmatched p action_id context
  = policy_test_to_unmatched q action_id context
  /\ has_constraint (constraints p) PF_CONSTRAINT_RESULT_INVERSE
     = has_constraint (constraints q) PF_CONSTRAINT_RESULT_INVERSE
  /\ response_inverse p = response_inverse q.
Proof.
  intros (_ & Hact & Hac & Hug & Hun & Hra & Hrl & Hr & Hri & Hc).
  pose proof (has_constraint_but_net_groups _ _ 1 Hc) as H1.
  pose proof (has_constraint_but_net_groups _ _ 2 Hc) as H2.
  pose proof (has_constraint_but_net_groups _ _ 3 Hc) as H3.
  pose proof (has_constraint_but_net_groups _ _ 4 Hc) as H4.
  pose proof (has_constraint_but_net_groups _ _ 5 Hc) as H5.
  pose proof (has_constraint_but_net_groups _ _ 6 Hc) as H6.
  pose proof (has_constraint_but_net_groups _ _ 8 Hc) as H8.
  pose proof (has_constraint_but_net_groups _ _ 9 Hc) as H9.
  split; [|split; [apply H9; lia|done]].
  unfold policy_test_to_unmatched, action_matched, actions_loop, action_contains_loop,
    unix_groups_loop, unix_names_loop,
    PF_CONSTRAINT_ACTIONS, PF_CONSTRAINT_ACTION_CONTAINS, PF_CONSTRAINT_SUBJECT_ACTIVE,
    PF_CONSTRAINT_SUBJECT_LOCAL, PF_CONSTRAINT_UNIX_GROUPS, PF_CONSTRAINT_UNIX_NAMES,
    PF_CONSTRAINT_RESULT.
  rewrite H1, H2, H3, H4, H5, H6, H8 by lia.
  by rewrite Hact, Hac, Hug, Hun, Hra, Hrl, Hr.
Qed.

Lemma chain_eq_but_net_groups_unfold (p q : Policy) :
  chain_eq_but_net_groups p q <->
  policy_eq_but_net_groups p q
  /\ match next p, next q with
     | Some n, Some m => chain_eq_but_net_groups n m
     | None, None => True
     | _, _ => False
     end.
Proof. by destruct p. Qed.

Lemma files_eq_but_net_groups_unfold (f g : PolicyFile) :
  files_eq_but_net_groups f g <->
  opt_chain_eq_but_net_groups (rules_normal f) (rules_normal g)
  /\ opt_chain_eq_but_net_groups (rules_admin f) (rules_admin g)
  /\ match file_next f, file_next g with
     | Some n, Some m => files_eq_but_net_groups n m
     | None, None => True
     | _, _ => False
     end.
Proof. by destruct f. Qed.

Lemma policy_test_but_net_groups `{Host} (p q : Policy) (action_id : string)
    (context : PolicyContext) :
  chain_eq_but_net_groups p q ->
  policy_test p action_id context = policy_test q action_id context.
Proof.
  revert q. induction p as [p Hp|p n Hp IH] using Policy_chain_ind; intros q Hpq;
    apply chain_eq_but_net_groups_unfold in Hpq as [Heq Hnext];
    rewrite Hp in Hnext; destruct (next q) as [m|] eqn:Hq; try done;
    destruct (policy_test_to_unmatched_but_net_groups p q action_id context Heq)
      as (Hl & Hinv & Hri);
    rewrite (policy_test_unfold p), (policy_test_unfold q); simpl;
    rewrite Hl, Hinv, Hri, Hp, Hq; [done|].
  by rewrite (IH m Hnext).
Qed.

Lemma policy_file_test_but_net_groups `{Host} (f g : PolicyFile) (action_id : string)
    (context : PolicyContext) :
  files_eq_but_net_groups f g ->
  policy_file_test f action_id context = policy_file_test g action_id context.
Proof.
  revert g. induction f as [f Hf|f n Hf IH] using PolicyFile_chain_ind; intros g Hfg;
    apply files_eq_but_net_groups_unfold in Hfg as (Hn & _ & Hnext);
    rewrite Hf in Hnext; destruct (file_next g) as [m|] eqn:Hg; try done;
    destruct f as [fn frn fra], g as [gn grn gra]; simpl in *; subst;
    destruct frn as [pn|], grn as [qn|]; try done; simpl;
    rewrite ?(policy_test_but_net_groups pn qn action_id context Hn);
    try done; by rewrite (IH m Hnext).
Qed.

(** C10. Two chains of rules, and two rule sets, that differ at most in the
    [InNetGroups] entries of their rules and in the netgroup bit of their
    constraints give the same verdict on every action id and context, in
    [policy_test], in [policy_file_test] and in the authorization check. *)
Theorem C10_net_groups_do_not_reach_the_verdict :
  forall (host : Host) (f g : PolicyFile) (dirs1 dirs2 : option (list string))
         (caller subject : PolkitSubject) (user_for_subject : PolkitIdentity)
         (subject_is_local subject_is_active : bool) (action_id : string)
         (context : PolicyContext) (implicit : PolkitImplicitAuthorization),
    files_eq_but_net_groups f g ->
    (forall p q, chain_eq_but_net_groups p q ->
                 policy_test p action_id context = policy_test q action_id context)
    /\ policy_file_test f action_id context = policy_file_test g action_id context
    /\ polkit_backend_keyfile_authority_check_authorization_sync
         (Build_PolkitBackendKeyfileAuthorityPrivate dirs1 (Some f))
         caller subject user_for_subject subject_is_local subject_is_active
         action_id implicit
       = polkit_backend_keyfile_authority_check_authorization_sync
           (Build_PolkitBackendKeyfileAuthorityPrivate dirs2 (Some g))
           caller subject user_for_subject subject_is_local subject_is_active
           action_id implicit.
Proof.
  intros host f g dirs1 dirs2 caller subject user local active action_id context
    implicit Hfg.
  split; [intros p q; apply policy_test_but_net_groups|].
  split; [by apply policy_file_test_but_net_groups|].
  unfold polkit_backend_keyfile_authority_check_authorization_sync.
  destruct (polkit_backend_keyfile_internal_prepare_context _) as [[ctx|]|]; simpl;
    [|done..].
  by rewrite (policy_file_test_but_net_groups f g action_id ctx Hfg).
Qed.

Lemma C10_net_groups_do_not_reach_the_verdict_witness :
  files_eq_but_net_groups
    (Build_PolicyFile None (Some Demo.sudo_rule) None)
    (Build_PolicyFile None (Some Demo.sudo_rule_without_net_groups) None)
  /\ policy_file_test (host := Demo.bare_host)
       (Build_PolicyFile None (Some Demo.sudo_rule) None)
       "org.example.action" Demo.alice
     = policy_file_test (host := Demo.bare_host)
         (Build_PolicyFile None (Some Demo.sudo_rule_without_net_groups) None)
         "org.example.action" Demo.alice.
Proof.
  assert (files_eq_but_net_groups
            (Build_PolicyFile None (Some Demo.sudo_rule) None)
            (Build_PolicyFile None (Some Demo.sudo_rule_without_net_groups) None)) as H.
  { simpl. unfold policy_eq_but_net_groups. simpl. tauto. }
  split; [exact H|].
  exact (proj1 (proj2 (C10_net_groups_do_not_reach_the_verdict Demo.bare_host _ _
                         None None (PolkitUnixProcess 1) (PolkitUnixProcess 77)
                         (PolkitUnixUser 1000) true true "org.example.action"
                         Demo.alice POLKIT_IMPLICIT_AUTHORIZATION_UNKNOWN H))).
Defined.

(** The netgroups are read by the harvest of the admin identities: the admin
    rule [sudoers] yields its wheel group and its netgroup, and the wheel
    group alone once the [InNetGroups] key is taken out. *)
Example net_groups_reach_the_harvest :
  harvest_admin_identities (host := Demo.bare_host)
    (Build_PolkitBackendKeyfileAuthorityPrivate None
       (Some (Build_PolicyFile None None (Some Demo.sudo_rule))))
  = [PolkitUnixGroup 10; PolkitUnixNetgroup "ops"]
  /\ harvest_admin_identities (host := Demo.bare_host)
       (Build_PolkitBackendKeyfileAuthorityPrivate None
          (Some (Build_PolicyFile None None (Some Demo.sudo_rule_without_net_groups))))
     = [PolkitUnixGroup 10].
Proof. split; reflexivity. Qed.

(** ** C3 and C4: the context that cannot be prepared, and the harvest *)

(** C3. When the context preparation fails (it returns [FALSE]: the process
    behind the subject cannot be found), the authorization check returns
    [NOT_AUTHORIZED], whatever the rule set and whatever implicit verdict
    the caller passed, and the admin identities are the superuser alone. *)
Theorem C3_unprepared_context_is_denied :
  forall (host : Host) (authority : PolkitBackendKeyfileAuthorityPrivate)
         (caller subject : PolkitSubject) (user_for_subject : PolkitIdentity)
         (subject_is_local subject_is_active : bool) (action_id : string)
         (implicit : PolkitImplicitAuthorization),
    polkit_backend_keyfile_internal_prepare_context
      (initial_context subject user_for_subject subject_is_local subject_is_active)
    = Ok None ->
    polkit_backend_keyfile_authority_check_authorization_sync authority caller subject
      user_for_subject subject_is_local subject_is_active action_id implicit
    = Ok POLKIT_IMPLICIT_AUTHORIZATION_NOT_AUTHORIZED
    /\ polkit_backend_keyfile_authority_get_admin_auth_identities authority caller
         subject user_for_subject subject_is_local subject_is_active action_id
       = Ok [polkit_unix_user_new 0].
Proof.
  intros host authority caller subject user local active action_id implicit H.
  unfold polkit_backend_keyfile_authority_check_authorization_sync,
    polkit_backend_keyfile_authority_get_admin_auth_identities.
  by rewrite H.
Qed.

Lemma C3_unprepared_context_is_denied_witness :
  polkit_backend_keyfile_internal_prepare_context (host := Demo.bare_host)
    (initial_context (PolkitSystemBusName ":1.7") (PolkitUnixUser 1000) true true)
  = Ok None
  /\ polkit_backend_keyfile_authority_check_authorization_sync (host := Demo.bare_host)
       (Build_PolkitBackendKeyfileAuthorityPrivate None
          (Some (Build_PolicyFile None (Some Demo.grant_rule) None)))
       (PolkitSystemBusName ":1.7") (PolkitSystemBusName ":1.7") (PolkitUnixUser 1000)
       true true "org.example.action" POLKIT_IMPLICIT_AUTHORIZATION_AUTHORIZED
     = Ok POLKIT_IMPLICIT_AUTHORIZATION_NOT_AUTHORIZED.
Proof.
  split; [reflexivity|].
  exact (proj1 (C3_unprepared_context_is_denied Demo.bare_host
                  (Build_PolkitBackendKeyfileAuthorityPrivate None
                     (Some (Build_PolicyFile None (Some Demo.grant_rule) None)))
                  (PolkitSystemBusName ":1.7") (PolkitSystemBusName ":1.7")
                  (PolkitUnixUser 1000) true true "org.example.action"
                  POLKIT_IMPLICIT_AUTHORIZATION_AUTHORIZED eq_refl)).
Defined.

(** The harvest is empty when no file has admin rules. *)
Lemma admin_of_files_no_admin `{Host} (file : PolicyFile) (ret : list PolkitIdentity) :
  (forall f, f ∈ chain_files file -> rules_admin f = None) ->
  admin_of_files file ret = ret.
Proof.
  revert ret. induction file as [f Hf|f n Hf IH] using PolicyFile_chain_ind;
    intros ret Hall;
    pose proof (Hall f) as Hfa; destruct f as [nx rn ra]; simpl in *; subst nx;
    rewrite Hfa by left; [done|].
  apply IH. intros g Hg. apply Hall. by right.
Qed.

(** C4. Whenever the context preparation returns, the admin identities are
    a list that is not empty; when the walk over the admin chains of the
    rule set yields no identity, and so when no file has admin rules, the
    list is the superuser alone. *)
Theorem C4_admin_identities_never_empty :
  forall (host : Host) (authority : PolkitBackendKeyfileAuthorityPrivate)
         (caller subject : PolkitSubject) (user_for_subject : PolkitIdentity)
         (subject_is_local subject_is_active : bool) (action_id : string)
         (prepared : option PolicyContext),
    polkit_backend_keyfile_internal_prepare_context
      (initial_context subject user_for_subject subject_is_local subject_is_active)
    = Ok prepared ->
    exists identities,
      polkit_backend_keyfile_authority_get_admin_auth_identities authority caller
        subject user_for_subject subject_is_local subject_is_active action_id
      = Ok identities
      /\ identities <> []
      /\ (harvest_admin_identities authority = [] ->
          identities = [polkit_unix_user_new 0])
      /\ ((forall f, f ∈ rule_set_files (policy authority) -> rules_admin f = None) ->
          identities = [polkit_unix_user_new 0]).
Proof.
  intros host authority caller subject user local active action_id prepared H.
  unfold polkit_backend_keyfile_authority_get_admin_auth_identities.
  rewrite H. simpl.
  assert ((forall f, f ∈ rule_set_files (policy authority) -> rules_admin f = None) ->
          harvest_admin_identities authority = []) as Hnone.
  { unfold harvest_admin_identities, rule_set_files.
    destruct (policy authority) as [file|]; [|done].
    intros Hall. by rewrite admin_of_files_no_admin. }
  destruct prepared as [context|].
  - destruct (harvest_admin_identities authority) as [|i l] eqn:E.
    + exists [polkit_unix_user_new 0]. by repeat split.
    + exists (i :: l). repeat split; [done|done|]. intros Hall.
      by specialize (Hnone Hall).
  - exists [polkit_unix_user_new 0]. by repeat split.
Qed.

Lemma C4_admin_identities_never_empty_witness :
  polkit_backend_keyfile_authority_get_admin_auth_identities (host := Demo.bare_host)
    (Build_PolkitBackendKeyfileAuthorityPrivate None
       (Some (Build_PolicyFile None (Some Demo.grant_rule) None)))
    (PolkitUnixProcess 1) (PolkitUnixProcess 77) (PolkitUnixUser 1000) true true
    "org.example.action"
  = Ok [polkit_unix_user_new 0].
Proof.
  destruct (C4_admin_identities_never_empty Demo.bare_host
              (Build_PolkitBackendKeyfileAuthorityPrivate None
                 (Some (Build_PolicyFile None (Some Demo.grant_rule) None)))
              (PolkitUnixProcess 1) (PolkitUnixProcess 77) (PolkitUnixUser 1000)
              true true "org.example.action" _ eq_refl)
    as (identities & Hret & _ & Hroot & _).
  rewrite Hret. f_equal. exact (Hroot eq_refl).
Defined.

(** ** C2: the verdict strings of a group *)

(** The block for [Result] leaves for [handle_err], with [err] still
    [NULL], when the string names no verdict. *)
Lemma load_result_unrecognized `{Host} (file : GKeyFile) (section_id v : string)
    (policy : Policy) :
  g_key_file_has_key file section_id "Result" = true ->
  g_key_file_get_string file section_id "Result" = inl v ->
  policy_string_to_result (g_strstrip v) = POLKIT_IMPLICIT_AUTHORIZATION_UNKNOWN ->
  load_result file section_id policy = inr None.
Proof.
  intros Hk Hv Hu. unfold load_result. rewrite Hk, Hv, Hu. by destruct policy.
Qed.

(** The block for [ResultInverse] accepts every string: its test reads
    [response], which is not [UNKNOWN] once [Result] was accepted. *)
Lemma load_result_inverse_accepts `{Host} (file : GKeyFile) (section_id v : string)
    (policy : Policy) :
  g_key_file_has_key file section_id "ResultInverse" = true ->
  g_key_file_get_string file section_id "ResultInverse" = inl v ->
  response policy <> POLKIT_IMPLICIT_AUTHORIZATION_UNKNOWN ->
  load_result_inverse file section_id policy
  = inl (add_constraint
           (set_response_inverse policy (policy_string_to_result (g_strstrip v)))
           PF_CONSTRAINT_RESULT_INVERSE).
Proof.
  intros Hk Hv Hu. unfold load_result_inverse. rewrite Hk, Hv.
  destruct policy; simpl in *. unfold is_unknown.
  by rewrite bool_decide_eq_false_2.
Qed.

(** C2 (the code departs from the claim). The key file
    [10-inverse.keyrules] holds a rule with [Result=yes] and
    [ResultInverse=bogus]; [bogus] names no verdict. The claim has the file
    fail to load. [policy_file_new_from_path] returns the file, its rule
    compiled with the constraint [ResultInverse] set and [UNKNOWN] as the
    inverse verdict. For [20-result.keyrules], with [Result=bogus], the call
    does not return: [handle_err] reads [err->message] through a [NULL]
    [err]. *)
Theorem C2_unrecognized_inverse_verdict_is_compiled :
  policy_string_to_result (host := Demo.bogus_host) (g_strstrip "bogus")
  = POLKIT_IMPLICIT_AUTHORIZATION_UNKNOWN
  /\ (exists rule,
        policy_file_new_from_path (host := Demo.bogus_host)
          "/etc/polkit-1/rules.d/10-inverse.keyrules"
        = Ok (inl (Build_PolicyFile None (Some rule) None))
        /\ has_constraint (constraints rule) PF_CONSTRAINT_RESULT_INVERSE = true
        /\ response_inverse rule = POLKIT_IMPLICIT_AUTHORIZATION_UNKNOWN
        /\ response rule = POLKIT_IMPLICIT_AUTHORIZATION_AUTHORIZED)
  /\ policy_file_new_from_path (host := Demo.bogus_host)
       "/etc/polkit-1/rules.d/20-result.keyrules"
     = Crash NullDereference.
Proof.
  split; [reflexivity|]. split; [|reflexivity].
  eexists. split; [reflexivity|]. by repeat split.
Qed.

(** ** The rule set loader *)

Lemma collect_rules_files_elem `{Host} (dirs : list string) (p : string) :
  p ∈ collect_rules_files (Some dirs) <->
  exists d names name,
    d ∈ dirs /\ g_dir_read_names d = inl names /\ name ∈ names
    /\ g_str_has_suffix name ".keyrules" = true
    /\ p = d +:+ "/" +:+ name.
Proof.
  unfold collect_rules_files. rewrite list_elem_of_In, <- in_rev, in_flat_map. split.
  - intros (d & Hd & Hp). unfold rules_dir_files in Hp.
    destruct (g_dir_read_names d) as [names|] eqn:E; [|done].
    apply in_map_iff in Hp as (name & <- & Hn). apply filter_In in Hn as [Hn Hs].
    exists d, names, name. by rewrite !list_elem_of_In.
  - intros (d & names & name & Hd & E & Hn & Hs & ->). exists d.
    split; [by apply list_elem_of_In|]. unfold rules_dir_files. rewrite E.
    apply in_map_iff. exists name. split; [done|]. apply filter_In.
    split; [by apply list_elem_of_In|done].
Qed.

(** Every collected path holds a [/]; what follows its last [/] is what
    follows the last [/] of the name, or the name. *)
Lemma rules_file_base (d name : string) :
  strrchr_tail (d +:+ "/" +:+ name) "/"
  = Some (match strrchr_tail name "/" with Some t => t | None => name end).
Proof. apply (strrchr_tail_append d name "/"). Qed.

Lemma collect_rules_files_sort_returns `{Host} (dirs : option (list string)) :
  NoDup (collect_rules_files dirs) ->
  exists sorted, g_list_sort rules_file_name_cmp (collect_rules_files dirs) = Ok sorted.
Proof.
  intros Hnd. apply g_list_sort_returns; [done|].
  intros x y Hx Hy Hne. destruct dirs as [dirs|]; [|by apply elem_of_nil in Hx].
  apply collect_rules_files_elem in Hx as (d1 & _ & n1 & _ & _ & _ & _ & ->).
  apply collect_rules_files_elem in Hy as (d2 & _ & n2 & _ & _ & _ & _ & ->).
  destruct (rules_file_name_cmp_total (d1 +:+ "/" +:+ n1) (d2 +:+ "/" +:+ n2))
    as [?|?]; eauto; by rewrite rules_file_base.
Qed.

Lemma link_rules_files_spec `{Host} (files : list string) :
  link_rules_files files
  = (compiled <-- compile_rules_files files ;;; Ok (link_files compiled)).
Proof.
  induction files as [|p files IH]; simpl; [done|].
  destruct (policy_file_new_from_path p) as [[file|[err|]]|]; simpl; try done.
  rewrite IH. by destruct (compile_rules_files files).
Qed.

Lemma compile_rules_files_app `{Host} (l1 l2 : list string) :
  compile_rules_files (l1 ++ l2)
  = (c1 <-- compile_rules_files l1 ;;;
     c2 <-- compile_rules_files l2 ;;; Ok (c1 ++ c2)).
Proof.
  induction l1 as [|p l1 IH]; simpl.
  - by destruct (compile_rules_files l2).
  - destruct (policy_file_new_from_path p) as [[file|[err|]]|]; simpl; try done.
    rewrite IH. destruct (compile_rules_files l1); simpl; [|done].
    by destruct (compile_rules_files l2).
Qed.

(** The compilation of the files returns when each [policy_file_new_from_path]
    returns a file or an error. *)
Lemma compile_rules_files_returns `{Host} (files : list string) :
  (forall p, p ∈ files ->
     exists r, policy_file_new_from_path p = Ok r /\ r <> inr None) ->
  exists compiled, compile_rules_files files = Ok compiled.
Proof.
  induction files as [|p files IH]; intros Hall; simpl; [eauto|].
  destruct (Hall p) as (r & -> & Hr); [left|]. simpl.
  destruct IH as [c ->]; [intros q Hq; apply Hall; by right|].
  destruct r as [file|[err|]]; simpl; eauto. done.
Qed.

(** Linking keeps the rules of each file, in order. *)
Lemma link_files_rules (files : list PolicyFile) :
  List.map file_rules (rule_set_files (link_files files)) = List.map file_rules files.
Proof.
  induction files as [|f files IH]; simpl; [done|].
  destruct f as [nx rn ra]; simpl. f_equal.
  unfold rule_set_files in IH. by destruct (link_files files).
Qed.

Lemma file_verdict_rules `{Host} (file : PolicyFile) (action_id : string)
    (context : PolicyContext) :
  file_verdict file action_id context = rules_verdict action_id context (file_rules file).
Proof. done. Qed.

(** ** C8: two files with the same base name *)

(** The claim C8 as it is stated, the file of the directory that comes
    first in the priority list sorted first, does not hold: with the vendor
    directory listed before the system directory, the file of the system
    directory, whose path compares smaller, is sorted first. *)
Lemma C8_priority_list_does_not_decide_the_order :
  ~ (forall (host : Host) (dirs : list string) (i j : nat) (d1 d2 name : string)
            (sorted : list string),
       dirs !! i = Some d1 -> dirs !! j = Some d2 -> (i < j)%nat ->
       (d1 +:+ "/" +:+ name) ∈ collect_rules_files (Some dirs) ->
       (d2 +:+ "/" +:+ name) ∈ collect_rules_files (Some dirs) ->
       g_list_sort rules_file_name_cmp (collect_rules_files (Some dirs)) = Ok sorted ->
       precedes (d1 +:+ "/" +:+ name) (d2 +:+ "/" +:+ name) sorted).
Proof.
  intros H.
  specialize (H Demo.two_dirs_host [Demo.usr_dir; Demo.etc_dir] 0%nat 1%nat
                Demo.usr_dir Demo.etc_dir "50-default.keyrules"
                ["/etc/polkit-1/rules.d/50-default.keyrules";
                 "/usr/share/polkit-1/rules.d/50-default.keyrules"]
                eq_refl eq_refl ltac:(lia)).
  destruct H as (l1 & l2 & l3 & E).
  - vm_compute. apply elem_of_cons. right. left.
  - vm_compute. left.
  - reflexivity.
  - destruct l1 as [|x [|y l1]]; simpl in E.
    + discriminate E.
    + injection E as _ E. destruct l2; discriminate E.
    + injection E as _ _ E. destruct l1; discriminate E.
Qed.

(** C8, amended. Two rule files with the same name in two directories of
    the list, the path of the first comparing smaller than the path of the
    second as strings (as [/etc] before [/usr]): the comparator places the
    first before the second, whatever the order of the directories in the
    list; the loader sorts it first and links it ahead in the chain; and the
    evaluation takes the verdict of the second file, or of a later one, only
    when every file before it yields [UNKNOWN]. The loader returns when no
    path is collected twice and each file compiles or fails with an error
    set. *)
Theorem C8_same_base_name_order :
  forall (host : Host) (authority : PolkitBackendKeyfileAuthorityPrivate)
         (dirs : list string) (d1 d2 name : string) (names1 names2 : list string)
         (f1 f2 : PolicyFile),
    rules_dirs authority = Some dirs ->
    d1 ∈ dirs -> d2 ∈ dirs ->
    g_dir_read_names d1 = inl names1 -> name ∈ names1 ->
    g_dir_read_names d2 = inl names2 -> name ∈ names2 ->
    g_str_has_suffix name ".keyrules" = true ->
    String.compare (d1 +:+ "/" +:+ name) (d2 +:+ "/" +:+ name) = Lt ->
    NoDup (collect_rules_files (Some dirs)) ->
    (forall p, p ∈ collect_rules_files (Some dirs) ->
       exists r, policy_file_new_from_path p = Ok r /\ r <> inr None) ->
    policy_file_new_from_path (d1 +:+ "/" +:+ name) = Ok (inl f1) ->
    policy_file_new_from_path (d2 +:+ "/" +:+ name) = Ok (inl f2) ->
    rules_file_name_cmp (d1 +:+ "/" +:+ name) (d2 +:+ "/" +:+ name) = Ok Lt
    /\ exists sorted authority',
         g_list_sort rules_file_name_cmp (collect_rules_files (Some dirs)) = Ok sorted
         /\ precedes (d1 +:+ "/" +:+ name) (d2 +:+ "/" +:+ name) sorted
         /\ load_rules authority = Ok authority'
         /\ exists pre mid post,
              List.map file_rules (rule_set_files (policy authority'))
              = pre ++ file_rules f1 :: mid ++ file_rules f2 :: post
              /\ forall file action_id context,
                   policy authority' = Some file ->
                   policy_file_test file action_id context
                   = let earlier :=
                       first_known (List.map (rules_verdict action_id context)
                                      (pre ++ file_rules f1 :: mid)) in
                     if is_unknown earlier
                     then first_known (List.map (rules_verdict action_id context)
                                         (file_rules f2 :: post))
                     else earlier.
Proof.
  intros host authority dirs d1 d2 name names1 names2 f1 f2
    Hdirs Hd1 Hd2 Hr1 Hn1 Hr2 Hn2 Hsuf Hlt Hnd Hall Hf1 Hf2.
  set (p1 := d1 +:+ "/" +:+ name) in *. set (p2 := d2 +:+ "/" +:+ name) in *.
  assert (p1 ∈ collect_rules_files (Some dirs)) as Hp1
    by (apply collect_rules_files_elem; by exists d1, names1, name).
  assert (p2 ∈ collect_rules_files (Some dirs)) as Hp2
    by (apply collect_rules_files_elem; by exists d2, names2, name).
  assert (rules_file_name_cmp p1 p2 = Ok Lt) as Hcmp.
  { eapply rules_file_name_cmp_Lt; [apply rules_file_base..|].
    right. split; [apply string_compare_refl|done]. }
  split; [done|].
  destruct (collect_rules_files_sort_returns (Some dirs) Hnd) as [sorted Hsort].
  pose proof (g_list_sort_perm _ _ _ Hsort) as Hperm.
  pose proof (g_list_sort_sorted rules_file_name_cmp rules_file_name_cmp_trans
                rules_file_name_cmp_Gt rules_file_name_cmp_not_Eq _ _ Hsort) as Hsorted.
  assert (precedes p1 p2 sorted) as Hprec.
  { apply (sorted_precedes rules_file_name_cmp rules_file_name_cmp_trans
             rules_file_name_cmp_irrefl); [done|by rewrite Hperm..|done]. }
  destruct (compile_rules_files_returns sorted) as [compiled Hc].
  { intros p Hp. apply Hall. by rewrite <- Hperm. }
  assert (exists c1 c2 c3, compiled = c1 ++ f1 :: c2 ++ f2 :: c3) as (c1 & c2 & c3 & ->).
  { destruct Hprec as (l1 & l2 & l3 & ->).
    rewrite compile_rules_files_app in Hc.
    destruct (compile_rules_files l1) as [c1|]; [|done].
    simpl in Hc. rewrite Hf1 in Hc. simpl in Hc.
    rewrite compile_rules_files_app in Hc.
    destruct (compile_rules_files l2) as [c2|]; [|done].
    simpl in Hc. rewrite Hf2 in Hc. simpl in Hc.
    destruct (compile_rules_files l3) as [c3|]; [|done].
    simpl in Hc. injection Hc as <-. by exists c1, c2, c3. }
  set (compiled := c1 ++ f1 :: c2 ++ f2 :: c3) in *.
  assert (exists head, link_files compiled = Some head) as [head Hhead].
  { subst compiled. destruct c1; simpl; eauto. }
  exists sorted, (Build_PolkitBackendKeyfileAuthorityPrivate (Some dirs) (Some head)).
  split; [done|]. split; [done|]. split.
  { unfold load_rules. rewrite Hdirs, Hsort. simpl.
    rewrite link_rules_files_spec, Hc. simpl. by rewrite Hhead. }
  exists (List.map file_rules c1), (List.map file_rules c2), (List.map file_rules c3).
  assert (List.map file_rules (chain_files head)
          = List.map file_rules c1 ++ file_rules f1 :: List.map file_rules c2
              ++ file_rules f2 :: List.map file_rules c3) as Hrules.
  { pose proof (link_files_rules compiled) as E. rewrite Hhead in E. simpl in E.
    rewrite E. subst compiled.
    by rewrite List.map_app; simpl; rewrite List.map_app. }
  split; [done|].
  intros file action_id context [= <-]. simpl.
  rewrite policy_file_test_first_known.
  assert (List.map (fun f => file_verdict f action_id context) (chain_files head)
          = List.map (rules_verdict action_id context)
              (List.map file_rules (chain_files head))) as ->
    by (by rewrite List.map_map).
  rewrite Hrules.
  replace (List.map file_rules c1 ++ file_rules f1 :: List.map file_rules c2
             ++ file_rules f2 :: List.map file_rules c3)
    with ((List.map file_rules c1 ++ file_rules f1 :: List.map file_rules c2)
            ++ file_rules f2 :: List.map file_rules c3)
    by (by rewrite <- app_assoc).
  by rewrite List.map_app, first_known_app.
Qed.

Lemma C8_same_base_name_order_witness :
  rules_file_name_cmp "/etc/polkit-1/rules.d/50-default.keyrules"
    "/usr/share/polkit-1/rules.d/50-default.keyrules" = Ok Lt
  /\ exists sorted authority',
       g_list_sort rules_file_name_cmp
         (collect_rules_files (host := Demo.two_dirs_host)
            (Some [Demo.usr_dir; Demo.etc_dir])) = Ok sorted
       /\ precedes "/etc/polkit-1/rules.d/50-default.keyrules"
            "/usr/share/polkit-1/rules.d/50-default.keyrules" sorted
       /\ load_rules (host := Demo.two_dirs_host) Demo.vendor_first = Ok authority'.
Proof.
  destruct (C8_same_base_name_order Demo.two_dirs_host Demo.vendor_first
              [Demo.usr_dir; Demo.etc_dir] Demo.etc_dir Demo.usr_dir
              "50-default.keyrules" ["50-default.keyrules"; "README"]
              ["50-default.keyrules"] Demo.deny_file Demo.grant_file)
    as (Hcmp & sorted & authority' & Hsort & Hprec & Hload & _).
  - reflexivity.
  - apply list_elem_of_further, list_elem_of_here.
  - apply list_elem_of_here.
  - reflexivity.
  - apply list_elem_of_here.
  - reflexivity.
  - apply list_elem_of_here.
  - reflexivity.
  - reflexivity.
  - refine (bool_decide_unpack _ _). vm_compute. exact I.
  - intros p Hp. vm_compute in Hp.
    apply elem_of_cons in Hp as [->|Hp];
      [eexists; split; [reflexivity|discriminate]|].
    apply elem_of_cons in Hp as [->|Hp];
      [eexists; split; [reflexivity|discriminate]|].
    by apply elem_of_nil in Hp.
  - reflexivity.
  - reflexivity.
  - split; [exact Hcmp|]. exists sorted, authority'. auto.
Defined.

(** ** C9: the reload *)

(** The claim C9 as it is stated, the active rule set kept when a reload
    fails, does not hold: with every directory unreadable, a reload that
    starts with a rule set leaves none. *)
Lemma C9_failed_reload_does_not_keep_the_rules :
  ~ (forall (host : Host) (authority authority' : PolkitBackendKeyfileAuthorityPrivate)
            (dirs : list string),
       rules_dirs authority = Some dirs ->
       (forall d, d ∈ dirs -> exists error, g_dir_read_names d = inr error) ->
       reload_rules authority = Ok authority' ->
       policy authority' = policy authority).
Proof.
  intros H.
  specialize (H Demo.bare_host Demo.vendor_first
                (Build_PolkitBackendKeyfileAuthorityPrivate
                   (Some [Demo.usr_dir; Demo.etc_dir]) None)
                [Demo.usr_dir; Demo.etc_dir] eq_refl).
  discriminate H; [|reflexivity].
  intros d _. by eexists.
Qed.

Lemma collect_rules_files_unreadable `{Host} (dirs : list string) :
  (forall d, d ∈ dirs -> exists error, g_dir_read_names d = inr error) ->
  collect_rules_files (Some dirs) = [].
Proof.
  intros Hall. unfold collect_rules_files.
  assert (flat_map rules_dir_files dirs = []) as ->; [|done].
  induction dirs as [|d dirs IH]; simpl; [done|].
  unfold rules_dir_files at 1. destruct (Hall d) as [error ->]; [left|].
  apply IH. intros d' Hd'. apply Hall. by right.
Qed.

Lemma link_rules_files_all_fail `{Host} (files : list string) :
  (forall p, p ∈ files -> exists error, policy_file_new_from_path p = Ok (inr (Some error))) ->
  link_rules_files files = Ok None.
Proof.
  induction files as [|p files IH]; intros Hall; simpl; [done|].
  destruct (Hall p) as [error ->]; [left|]. simpl.
  apply IH. intros q Hq. apply Hall. by right.
Qed.

(** C9, amended. A reload first removes the active rule set, which leaves
    the authority with none, and then loads: when it returns, the active
    rule set is the chain of the files that compile, whatever rule set was
    active before, and none when no file compiles. So the previous rule set
    is not kept on failure: with every directory unreadable, or with every
    file failing to compile with an error set, the authority is left
    without a rule set. *)
Theorem C9_reload_discards_then_loads :
  forall (host : Host) (authority : PolkitBackendKeyfileAuthorityPrivate),
    policy (clear_policy authority) = None
    /\ reload_rules authority
       = (files <-- g_list_sort rules_file_name_cmp
                      (collect_rules_files (rules_dirs authority)) ;;;
          chain <-- link_rules_files files ;;;
          Ok (Build_PolkitBackendKeyfileAuthorityPrivate (rules_dirs authority) chain))
    /\ (forall dirs,
          rules_dirs authority = Some dirs ->
          (forall d, d ∈ dirs -> exists error, g_dir_read_names d = inr error) ->
          reload_rules authority
          = Ok (Build_PolkitBackendKeyfileAuthorityPrivate (rules_dirs authority) None))
    /\ (NoDup (collect_rules_files (rules_dirs authority)) ->
        (forall p, p ∈ collect_rules_files (rules_dirs authority) ->
           exists error, policy_file_new_from_path p = Ok (inr (Some error))) ->
        reload_rules authority
        = Ok (Build_PolkitBackendKeyfileAuthorityPrivate (rules_dirs authority) None)).
Proof.
  intros host authority.
  assert (reload_rules authority
       = (files <-- g_list_sort rules_file_name_cmp
                      (collect_rules_files (rules_dirs authority)) ;;;
          chain <-- link_rules_files files ;;;
          Ok (Build_PolkitBackendKeyfileAuthorityPrivate (rules_dirs authority) chain)))
    as Hreload.
  { unfold reload_rules, load_rules, clear_policy. simpl.
    destruct (g_list_sort _ _) as [files|]; simpl; [|done].
    by destruct (link_rules_files files) as [[file|]|]. }
  split; [done|]. split; [done|]. split.
  - intros dirs Hdirs Hall. rewrite Hreload, Hdirs.
    by rewrite (collect_rules_files_unreadable dirs Hall).
  - intros Hnd Hall. rewrite Hreload.
    destruct (collect_rules_files_sort_returns _ Hnd) as [sorted Hsort].
    rewrite Hsort. simpl. rewrite link_rules_files_all_fail; [done|].
    intros p Hp. apply Hall. by rewrite <- (g_list_sort_perm _ _ _ Hsort).
Qed.

Lemma C9_reload_discards_then_loads_witness :
  reload_rules (host := Demo.bare_host) Demo.vendor_first
  = Ok (Build_PolkitBackendKeyfileAuthorityPrivate
          (Some [Demo.usr_dir; Demo.etc_dir]) None).
Proof.
  refine (proj1 (proj2 (proj2 (C9_reload_discards_then_loads Demo.bare_host
                                 Demo.vendor_first)))
            [Demo.usr_dir; Demo.etc_dir] eq_refl _).
  intros d _. exists (Build_GError "Error opening directory"). reflexivity.
Defined.

(** * Further properties of the sources *)

(** ** The verdict strings *)

Lemma g_ascii_isspace_tolower (c : ascii) :
  g_ascii_isspace (g_ascii_tolower c) = g_ascii_isspace c.
Proof. by destruct c as [[] [] [] [] [] [] [] []]. Qed.

Lemma g_ascii_strdown_app (s t : string) :
  g_ascii_strdown (s +:+ t) = g_ascii_strdown s +:+ g_ascii_strdown t.
Proof.
  induction s as [|c s IH]; [done|].
  rewrite append_cons. simpl. by rewrite IH.
Qed.

Lemma g_ascii_strdown_chug (s : string) :
  g_ascii_strdown (g_strchug s) = g_strchug (g_ascii_strdown s).
Proof.
  induction s as [|c s IH]; simpl; [done|].
  rewrite g_ascii_isspace_tolower. by destruct (g_ascii_isspace c).
Qed.

(** A string of white space only is one that [g_strchug] empties. *)
Lemma g_strchug_blank_cons (c : ascii) (s : string) :
  g_strchug (String c s) = EmptyString <->
  g_ascii_isspace c = true /\ g_strchug s = EmptyString.
Proof. simpl. destruct (g_ascii_isspace c); intuition congruence. Qed.

Lemma g_strchug_blank_app (pre s : string) :
  g_strchug pre = EmptyString -> g_strchug (pre +:+ s) = g_strchug s.
Proof.
  induction pre as [|c pre IH]; [done|].
  intros Hb. apply g_strchug_blank_cons in Hb as [Hc Hpre]. rewrite append_cons. simpl.
  rewrite Hc. by apply IH.
Qed.

Lemma g_strchomp_blank (post : string) :
  g_strchug post = EmptyString -> g_strchomp post = EmptyString.
Proof.
  induction post as [|c post IH]; [done|].
  intros Hb. apply g_strchug_blank_cons in Hb as [Hc Hpost]. simpl. by rewrite (IH Hpost), Hc.
Qed.

Lemma g_strchomp_app_blank (s post : string) :
  g_strchug post = EmptyString -> g_strchomp (s +:+ post) = g_strchomp s.
Proof.
  intros Hpost. induction s as [|c s IH].
  - rewrite append_nil_l. by apply g_strchomp_blank.
  - rewrite append_cons. simpl. by rewrite IH.
Qed.

Lemma g_strchug_app (s post : string) :
  g_strchug s <> EmptyString -> g_strchug (s +:+ post) = g_strchug s +:+ post.
Proof.
  induction s as [|c s IH]; [done|]. rewrite append_cons. simpl.
  destruct (g_ascii_isspace c); [done|]. by rewrite append_cons.
Qed.

(** White space around a string does not reach what [g_strstrip] leaves. *)
Lemma g_strstrip_surrounded (pre s post : string) :
  g_strchug pre = EmptyString -> g_strchug post = EmptyString ->
  g_strstrip (pre +:+ s +:+ post) = g_strstrip s.
Proof.
  intros Hpre Hpost. unfold g_strstrip. rewrite (g_strchug_blank_app pre) by done.
  destruct (decide (g_strchug s = EmptyString)) as [Hs|Hs].
  - rewrite (g_strchug_blank_app s post Hs), Hpost. by rewrite Hs.
  - rewrite (g_strchug_app s post Hs). by apply g_strchomp_app_blank.
Qed.

(** X1. [policy_string_to_result] reads a verdict name whatever its case and
    whatever white space surrounds it: two strings that are equal once put
    in lower case, one of them between two runs of white space, give the
    same verdict. *)
Theorem X1_verdict_string_ignores_case_and_blanks :
  forall (host : Host) (inp inp' pre post : string),
    g_strchug pre = EmptyString -> g_strchug post = EmptyString ->
    g_ascii_strdown inp' = g_ascii_strdown inp ->
    policy_string_to_result (pre +:+ inp' +:+ post) = policy_string_to_result inp.
Proof.
  intros host inp inp' pre post Hpre Hpost Heq. unfold policy_string_to_result.
  rewrite !g_ascii_strdown_app, Heq.
  rewrite (g_strstrip_surrounded (g_ascii_strdown pre) (g_ascii_strdown inp)
             (g_ascii_strdown post)); [done|..];
    by rewrite <- g_ascii_strdown_chug, ?Hpre, ?Hpost.
Qed.

Lemma X1_verdict_string_ignores_case_and_blanks_witness :
  policy_string_to_result (host := Demo.bare_host) ("  " +:+ "Auth_Admin" +:+ " ")
  = POLKIT_IMPLICIT_AUTHORIZATION_ADMINISTRATOR_AUTHENTICATION_REQUIRED.
Proof.
  rewrite (X1_verdict_string_ignores_case_and_blanks Demo.bare_host "auth_admin"
             "Auth_Admin" "  " " " eq_refl eq_refl eq_refl).
  reflexivity.
Defined.

(** ** The rule compiler *)

Lemma and_then_inl (r : Policy + option GError) (k : load_step) (p' : Policy) :
  and_then r k = inl p' -> exists p, r = inl p /\ k p = inl p'.
Proof. destruct r; simpl; [eauto|done]. Qed.

Lemma and_then_inr (r : Policy + option GError) (k : load_step) (e : option GError) :
  and_then r k = inr e -> r = inr e \/ exists p, r = inl p /\ k p = inr e.
Proof. destruct r; simpl; [eauto|]. intros [= <-]. by left. Qed.

Lemma load_string_list_inl `{Host} (file : GKeyFile) (s key : string)
    (set : Policy -> list string -> Policy) (flag : Z) (p p' : Policy) :
  load_string_list file s key set flag p = inl p' ->
  p' = if_present file s key (add_constraint (set p (key_list file s key)) flag) p
  /\ (g_key_file_has_key file s key = true ->
      g_key_file_get_string_list file s key = inl (key_list file s key)).
Proof.
  unfold load_string_list, if_present, key_list.
  destruct (g_key_file_has_key file s key); [|by intros [= <-]].
  destruct (g_key_file_get_string_list file s key); [|done]. by intros [= <-].
Qed.

Lemma load_boolean_inl `{Host} (file : GKeyFile) (s key : string)
    (set : Policy -> bool -> Policy) (flag : Z) (p p' : Policy) :
  load_boolean file s key set flag p = inl p' ->
  p' = if_present file s key (add_constraint (set p (key_boolean file s key)) flag) p
  /\ (g_key_file_has_key file s key = true ->
      g_key_file_get_boolean file s key = inl (key_boolean file s key)).
Proof.
  unfold load_boolean, if_present, key_boolean.
  destruct (g_key_file_has_key file s key); [|by intros [= <-]].
  destruct (g_key_file_get_boolean file s key); [|done]. by intros [= <-].
Qed.

Lemma load_result_inl `{Host} (file : GKeyFile) (s : string) (p p' : Policy) :
  load_result file s p = inl p' ->
  p' = if_present file s "Result"
         (add_constraint (set_response p (key_verdict file s "Result"))
            PF_CONSTRAINT_RESULT) p
  /\ (g_key_file_has_key file s "Result" = true ->
      key_verdict file s "Result" <> POLKIT_IMPLICIT_AUTHORIZATION_UNKNOWN
      /\ exists v, g_key_file_get_string file s "Result" = inl v).
Proof.
  unfold load_result, if_present, key_verdict.
  destruct (g_key_file_has_key file s "Result"); [|by intros [= <-]].
  destruct (g_key_file_get_string file s "Result"); [|done].
  destruct p; simpl. unfold is_unknown. case_bool_decide; [done|].
  intros [= <-]. eauto.
Qed.

Lemma load_result_inverse_inl `{Host} (file : GKeyFile) (s : string) (p p' : Policy) :
  load_result_inverse file s p = inl p' ->
  p' = if_present file s "ResultInverse"
         (add_constraint (set_response_inverse p (key_verdict file s "ResultInverse"))
            PF_CONSTRAINT_RESULT_INVERSE) p
  /\ (g_key_file_has_key file s "ResultInverse" = true ->
      response p <> POLKIT_IMPLICIT_AUTHORIZATION_UNKNOWN
      /\ exists v, g_key_file_get_string file s "ResultInverse" = inl v).
Proof.
  unfold load_result_inverse, if_present, key_verdict.
  destruct (g_key_file_has_key file s "ResultInverse"); [|by intros [= <-]].
  destruct (g_key_file_get_string file s "ResultInverse"); [|done].
  destruct p; simpl. unfold is_unknown. case_bool_decide; [done|].
  intros [= <-]. eauto.
Qed.

(** The blocks for the lists and the booleans leave for [handle_err] with
    the error of their accessor, never with [err] still [NULL]. *)
Lemma load_string_list_inr `{Host} (file : GKeyFile) (s key : string)
    (set : Policy -> list string -> Policy) (flag : Z) (p : Policy)
    (e : option GError) :
  load_string_list file s key set flag p = inr e ->
  exists err, e = Some err /\ g_key_file_has_key file s key = true
              /\ g_key_file_get_string_list file s key = inr err.
Proof.
  unfold load_string_list.
  destruct (g_key_file_has_key file s key); [|done].
  destruct (g_key_file_get_string_list file s key); [done|].
  intros [= <-]. eauto.
Qed.

Lemma load_boolean_inr `{Host} (file : GKeyFile) (s key : string)
    (set : Policy -> bool -> Policy) (flag : Z) (p : Policy) (e : option GError) :
  load_boolean file s key set flag p = inr e ->
  exists err, e = Some err /\ g_key_file_has_key file s key = true
              /\ g_key_file_get_boolean file s key = inr err.
Proof.
  unfold load_boolean.
  destruct (g_key_file_has_key file s key); [|done].
  destruct (g_key_file_get_boolean file s key); [done|].
  intros [= <-]. eauto.
Qed.

Lemma load_result_inr `{Host} (file : GKeyFile) (s : string) (p : Policy)
    (e : option GError) :
  load_result file s p = inr e ->
  g_key_file_has_key file s "Result" = true
  /\ match e with
     | Some err => g_key_file_get_string file s "Result" = inr err
     | None => exists v, g_key_file_get_string file s "Result" = inl v
                 /\ policy_string_to_result (g_strstrip v)
                    = POLKIT_IMPLICIT_AUTHORIZATION_UNKNOWN
     end.
Proof.
  unfold load_result.
  destruct (g_key_file_has_key file s "Result"); [|done].
  destruct (g_key_file_get_string file s "Result") as [v|err]; [|by intros [= <-]].
  destruct p; simpl. unfold is_unknown. case_bool_decide; [|done].
  intros [= <-]. eauto.
Qed.

Lemma load_result_inverse_inr `{Host} (file : GKeyFile) (s : string) (p : Policy)
    (e : option GError) :
  load_result_inverse file s p = inr e ->
  g_key_file_has_key file s "ResultInverse" = true
  /\ match e with
     | Some err => g_key_file_get_string file s "ResultInverse" = inr err
     | None => response p = POLKIT_IMPLICIT_AUTHORIZATION_UNKNOWN
     end.
Proof.
  unfold load_result_inverse.
  destruct (g_key_file_has_key file s "ResultInverse"); [|done].
  destruct (g_key_file_get_string file s "ResultInverse") as [v|err];
    [|by intros [= <-]].
  destruct p; simpl. unfold is_unknown. case_bool_decide; [|done].
  by intros [= <-].
Qed.

(** The rule [policy_load] returns is [compiled_rule]; the accessor of each
    present key returned a value, and a present [Result] names a verdict. *)
Lemma policy_load_compiled `{Host} (file : GKeyFile) (s : string) (p : Policy) :
  policy_load file s = Ok (Some p) ->
  p = compiled_rule file s
  /\ g_key_file_has_group file s = true
  /\ (forall key, key ∈ ["Actions"; "ActionContains"; "InUnixGroups"; "InNetGroups";
                         "InUserNames"] ->
        g_key_file_has_key file s key = true ->
        g_key_file_get_string_list file s key = inl (key_list file s key))
  /\ (forall key, key ∈ ["SubjectActive"; "SubjectLocal"] ->
        g_key_file_has_key file s key = true ->
        g_key_file_get_boolean file s key = inl (key_boolean file s key))
  /\ (forall key, key ∈ ["Result"; "ResultInverse"] ->
        g_key_file_has_key file s key = true ->
        exists v, g_key_file_get_string file s key = inl v)
  /\ (g_key_file_has_key file s "Result" = true ->
      key_verdict file s "Result" <> POLKIT_IMPLICIT_AUTHORIZATION_UNKNOWN).
Proof.
  unfold policy_load. destruct (g_key_file_has_group file s); [|done].
  cbv zeta. cbn [negb].
  destruct (and_then _ _) as [q|[e|]] eqn:E; try done. intros [= <-].
  apply and_then_inl in E as (p8 & E & H9). apply load_boolean_inl in H9 as [-> H9].
  apply and_then_inl in E as (p7 & E & H8). apply load_boolean_inl in H8 as [-> H8].
  apply and_then_inl in E as (p6 & E & H7). apply load_string_list_inl in H7 as [-> H7].
  apply and_then_inl in E as (p5 & E & H6).
  apply load_result_inverse_inl in H6 as [-> H6].
  apply and_then_inl in E as (p4 & E & H5). apply load_result_inl in H5 as [-> H5].
  apply and_then_inl in E as (p3 & E & H4). apply load_string_list_inl in H4 as [-> H4].
  apply and_then_inl in E as (p2 & E & H3). apply load_string_list_inl in H3 as [-> H3].
  apply and_then_inl in E as (p1 & E & H2). apply load_string_list_inl in H2 as [-> H2].
  apply and_then_inl in E as (p0 & E & H1). apply load_string_list_inl in H1 as [-> H1].
  injection E as <-.
  split; [|split; [done|]]; [|repeat split].
  - clear. unfold compiled_rule, g_new0_Policy, if_present.
    destruct (g_key_file_has_key file s "Actions"),
      (g_key_file_has_key file s "ActionContains"),
      (g_key_file_has_key file s "InUnixGroups"),
      (g_key_file_has_key file s "InNetGroups"),
      (g_key_file_has_key file s "Result"),
      (g_key_file_has_key file s "ResultInverse"),
      (g_key_file_has_key file s "InUserNames"),
      (g_key_file_has_key file s "SubjectActive"),
      (g_key_file_has_key file s "SubjectLocal"); reflexivity.
  - intros key Hkey. repeat (apply elem_of_cons in Hkey as [->|Hkey]; [done|]).
    by apply elem_of_nil in Hkey.
  - intros key Hkey. repeat (apply elem_of_cons in Hkey as [->|Hkey]; [done|]).
    by apply elem_of_nil in Hkey.
  - intros key Hkey Hk.
    apply elem_of_cons in Hkey as [->|Hkey]; [by apply H5|].
    apply elem_of_cons in Hkey as [->|Hkey]; [by apply H6|].
    by apply elem_of_nil in Hkey.
  - intros Hk. by apply H5.
Qed.

Lemma testbit_if_present `{Host} (file : GKeyFile) (s key : string) (flag m : Z) :
  Z.testbit (if_present file s key flag 0) m
  = g_key_file_has_key file s key && Z.testbit flag m.
Proof.
  unfold if_present. destruct (g_key_file_has_key file s key); [done|].
  apply Z.testbit_0_l.
Qed.

(** The bit [m] of the constraints of [compiled_rule], for a flag of a key. *)
Ltac compiled_flag m :=
  etrans; [apply (has_constraint_testbit _ m); lia|];
  unfold compiled_rule; cbn [constraints];
  rewrite !Z.lor_spec, !testbit_if_present;
  repeat match goal with
         | |- context [Z.testbit ?F m] =>
             let b := eval vm_compute in (Z.testbit F m) in
             change (Z.testbit F m) with b
         end;
  rewrite ?andb_false_r, ?andb_true_r, ?orb_false_r; reflexivity.

(** The constraints of [compiled_rule] hold the bit of each key exactly
    when the key is present, and never the bit [PF_CONSTRAINT_MIN]. *)
Lemma compiled_rule_flags `{Host} (file : GKeyFile) (s : string) :
  let has := has_constraint (constraints (compiled_rule file s)) in
  let key := g_key_file_has_key file s in
  has PF_CONSTRAINT_MIN = false
  /\ has PF_CONSTRAINT_ACTIONS = key "Actions"
  /\ has PF_CONSTRAINT_ACTION_CONTAINS = key "ActionContains"
  /\ has PF_CONSTRAINT_SUBJECT_ACTIVE = key "SubjectActive"
  /\ has PF_CONSTRAINT_SUBJECT_LOCAL = key "SubjectLocal"
  /\ has PF_CONSTRAINT_UNIX_GROUPS = key "InUnixGroups"
  /\ has PF_CONSTRAINT_UNIX_NAMES = key "InUserNames"
  /\ has PF_CONSTRAINT_NET_GROUPS = key "InNetGroups"
  /\ has PF_CONSTRAINT_RESULT = key "Result"
  /\ has PF_CONSTRAINT_RESULT_INVERSE = key "ResultInverse".
Proof.
  cbv zeta. repeat split.
  - compiled_flag 0.
  - compiled_flag 1.
  - compiled_flag 2.
  - compiled_flag 3.
  - compiled_flag 4.
  - compiled_flag 5.
  - compiled_flag 6.
  - compiled_flag 7.
  - compiled_flag 8.
  - compiled_flag 9.
Qed.

(** X2. The rule [policy_load] returns for a group records its keys: its
    name is the name of the group and it has no next rule; for each list
    key and each boolean key, either the key is present, its bit is set and
    the field holds what the key file returned, or the key is absent, its
    bit is clear and the field is empty (or [FALSE]); the bit
    [PF_CONSTRAINT_MIN] is never set. *)
Theorem X2_policy_load_records_the_keys :
  forall (host : Host) (file : GKeyFile) (s : string) (p : Policy),
    policy_load file s = Ok (Some p) ->
    id p = s /\ next p = None
    /\ has_constraint (constraints p) PF_CONSTRAINT_MIN = false
    /\ list_key_compiled file s "Actions" PF_CONSTRAINT_ACTIONS (actions p) p
    /\ list_key_compiled file s "ActionContains" PF_CONSTRAINT_ACTION_CONTAINS
         (action_contains p) p
    /\ list_key_compiled file s "InUnixGroups" PF_CONSTRAINT_UNIX_GROUPS
         (unix_groups p) p
    /\ list_key_compiled file s "InUserNames" PF_CONSTRAINT_UNIX_NAMES (unix_names p) p
    /\ list_key_compiled file s "InNetGroups" PF_CONSTRAINT_NET_GROUPS (net_groups p) p
    /\ boolean_key_compiled file s "SubjectActive" PF_CONSTRAINT_SUBJECT_ACTIVE
         (require_active p) p
    /\ boolean_key_compiled file s "SubjectLocal" PF_CONSTRAINT_SUBJECT_LOCAL
         (require_local p) p.
Proof.
  intros host file s p Hload.
  apply policy_load_compiled in Hload as (-> & _ & Hlists & Hbools & _ & _).
  destruct (compiled_rule_flags file s)
    as (Hmin & Ha & Hac & Hsa & Hsl & Hug & Hun & Hng & _ & _).
  split; [done|]. split; [done|]. split; [done|].
  unfold list_key_compiled, boolean_key_compiled.
  rewrite Ha, Hac, Hsa, Hsl, Hug, Hun, Hng.
  cbn [actions action_contains unix_groups unix_names net_groups require_active
         require_local compiled_rule].
  unfold if_present.
  repeat split;
    match goal with
    | |- context [g_key_file_has_key file s ?k] =>
        destruct (g_key_file_has_key file s k) eqn:Hk; [left|by right]
    end;
    (split; [done|]); (split; [done|]);
    first [ apply Hlists; [|done] | apply Hbools; [|done] ];
    repeat first [ apply list_elem_of_here | apply list_elem_of_further ].
Qed.

Lemma X2_policy_load_records_the_keys_witness :
  list_key_compiled (H := Samples.samples_host) Samples.full_keyfile "first"
    "Actions" PF_CONSTRAINT_ACTIONS ["org.example.action"; " org.example.other"]
    Samples.first_rule
  /\ list_key_compiled (H := Samples.samples_host) Samples.full_keyfile "second"
       "InUnixGroups" PF_CONSTRAINT_UNIX_GROUPS []
       (compiled_rule (H := Samples.samples_host) Samples.full_keyfile "second").
Proof.
  split.
  - exact (proj1 (proj2 (proj2 (proj2
             (X2_policy_load_records_the_keys Samples.samples_host
                Samples.full_keyfile "first" Samples.first_rule eq_refl))))).
  - exact (proj1 (proj2 (proj2 (proj2 (proj2 (proj2
             (X2_policy_load_records_the_keys Samples.samples_host
                Samples.full_keyfile "second" _ eq_refl))))))).
Defined.

(** X3. In the rule [policy_load] returns, a present [Result] has set its
    bit and the verdict its string names, which is never [UNKNOWN]; a
    present [ResultInverse] has set its bit and the verdict its string
    names, [UNKNOWN] when it names none; an absent key leaves its bit clear
    and the verdict at the zero of [g_new0]. *)
Theorem X3_policy_load_compiles_the_verdicts :
  forall (host : Host) (file : GKeyFile) (s : string) (p : Policy),
    policy_load file s = Ok (Some p) ->
    verdict_key_compiled file s "Result" PF_CONSTRAINT_RESULT (response p) p
    /\ verdict_key_compiled file s "ResultInverse" PF_CONSTRAINT_RESULT_INVERSE
         (response_inverse p) p
    /\ (has_constraint (constraints p) PF_CONSTRAINT_RESULT = true ->
        response p <> POLKIT_IMPLICIT_AUTHORIZATION_UNKNOWN).
Proof.
  intros host file s p Hload.
  apply policy_load_compiled in Hload as (-> & _ & _ & _ & Hverdicts & Hknown).
  destruct (compiled_rule_flags file s) as (_ & _ & _ & _ & _ & _ & _ & _ & Hr & Hri).
  unfold verdict_key_compiled. rewrite Hr, Hri.
  cbn [response response_inverse compiled_rule]. unfold if_present.
  assert (forall key, key ∈ ["Result"; "ResultInverse"] ->
            g_key_file_has_key file s key = true ->
            exists v, g_key_file_get_string file s key = inl v
                      /\ key_verdict file s key
                         = policy_string_to_result (g_strstrip v)) as Hv.
  { intros key Hkey Hk. destruct (Hverdicts key Hkey Hk) as [v Hget].
    exists v. unfold key_verdict. by rewrite Hget. }
  repeat split.
  - destruct (g_key_file_has_key file s "Result") eqn:Hk; [left|by right].
    split; [done|]. split; [done|]. apply Hv; [apply list_elem_of_here|done].
  - destruct (g_key_file_has_key file s "ResultInverse") eqn:Hk; [left|by right].
    split; [done|]. split; [done|].
    apply Hv; [apply list_elem_of_further, list_elem_of_here|done].
  - intros Hk. rewrite Hk. by apply Hknown.
Qed.

Lemma X3_policy_load_compiles_the_verdicts_witness :
  response Samples.first_rule = POLKIT_IMPLICIT_AUTHORIZATION_AUTHORIZED
  /\ response Samples.first_rule <> POLKIT_IMPLICIT_AUTHORIZATION_UNKNOWN.
Proof.
  split; [reflexivity|].
  exact (proj2 (proj2 (X3_policy_load_compiles_the_verdicts Samples.samples_host
                         Samples.full_keyfile "first" Samples.first_rule eq_refl))
           eq_refl).
Defined.


Lemma policy_load_blocks_crash `{Host} (file : GKeyFile) (s : string) (p0 : Policy) :
  and_then (and_then (and_then (and_then (and_then (and_then (and_then (and_then
    (and_then (inl p0)
       (load_string_list file s "Actions" set_actions PF_CONSTRAINT_ACTIONS))
       (load_string_list file s "ActionContains" set_action_contains
          PF_CONSTRAINT_ACTION_CONTAINS))
       (load_string_list file s "InUnixGroups" set_unix_groups
          PF_CONSTRAINT_UNIX_GROUPS))
       (load_string_list file s "InNetGroups" set_net_groups PF_CONSTRAINT_NET_GROUPS))
       (load_result file s))
       (load_result_inverse file s))
       (load_string_list file s "InUserNames" set_unix_names PF_CONSTRAINT_UNIX_NAMES))
       (load_boolean file s "SubjectActive" set_require_active
          PF_CONSTRAINT_SUBJECT_ACTIVE))
       (load_boolean file s "SubjectLocal" set_require_local
          PF_CONSTRAINT_SUBJECT_LOCAL)
  = inr None ->
  (g_key_file_has_key file s "Result" = true
   /\ exists v, g_key_file_get_string file s "Result" = inl v
        /\ policy_string_to_result (g_strstrip v) = POLKIT_IMPLICIT_AUTHORIZATION_UNKNOWN)
  \/ (g_key_file_has_key file s "Result" = false
      /\ g_key_file_has_key file s "ResultInverse" = true
      /\ response p0 = POLKIT_IMPLICIT_AUTHORIZATION_UNKNOWN).
Proof.
  intros E.
  apply and_then_inr in E as [E|(? & _ & Hs)];
    [|by apply load_boolean_inr in Hs as (e & ? & _)].
  apply and_then_inr in E as [E|(? & _ & Hs)];
    [|by apply load_boolean_inr in Hs as (e & ? & _)].
  apply and_then_inr in E as [E|(? & _ & Hs)];
    [|by apply load_string_list_inr in Hs as (e & ? & _)].
  apply and_then_inr in E as [E|(p5 & E & Hs)].
  - apply and_then_inr in E as [E|(? & _ & Hs)];
      [|apply load_result_inr in Hs as [? ?]; by left].
    apply and_then_inr in E as [E|(? & _ & Hs)];
      [|by apply load_string_list_inr in Hs as (e & ? & _)].
    apply and_then_inr in E as [E|(? & _ & Hs)];
      [|by apply load_string_list_inr in Hs as (e & ? & _)].
    apply and_then_inr in E as [E|(? & _ & Hs)];
      [|by apply load_string_list_inr in Hs as (e & ? & _)].
    apply and_then_inr in E as [E|(? & _ & Hs)];
      [|by apply load_string_list_inr in Hs as (e & ? & _)].
    done.
  - apply load_result_inverse_inr in Hs as [Hki Hresp].
    apply and_then_inl in E as (p4 & E & H5). apply load_result_inl in H5 as [-> H5].
    apply and_then_inl in E as (p3 & E & H4). apply load_string_list_inl in H4 as [-> _].
    apply and_then_inl in E as (p2 & E & H3). apply load_string_list_inl in H3 as [-> _].
    apply and_then_inl in E as (p1 & E & H2). apply load_string_list_inl in H2 as [-> _].
    apply and_then_inl in E as (q & E & H1). apply load_string_list_inl in H1 as [-> _].
    injection E as <-. unfold if_present in Hresp, H5.
    destruct (g_key_file_has_key file s "Result").
    + destruct (H5 eq_refl) as [Hknown _]. by destruct Hknown.
    + right. split; [done|]. split; [done|]. revert Hresp.
      by destruct (g_key_file_has_key file s "Actions"),
        (g_key_file_has_key file s "ActionContains"),
        (g_key_file_has_key file s "InUnixGroups"),
        (g_key_file_has_key file s "InNetGroups").
Qed.

(** X4. [policy_load] fails to return in one way only, the read of
    [err->message] through a [NULL] [err] under [handle_err], and only for a
    verdict key: the string of [Result] names no verdict, or [Result] is
    absent, [ResultInverse] is present and the zero that [g_new0] left in
    [response] is [UNKNOWN]. *)
Theorem X4_policy_load_crashes_on_verdicts_only :
  forall (host : Host) (file : GKeyFile) (s : string) (c : crash),
    policy_load file s = Crash c ->
    c = NullDereference
    /\ ((g_key_file_has_key file s "Result" = true
         /\ exists v, g_key_file_get_string file s "Result" = inl v
              /\ policy_string_to_result (g_strstrip v)
                 = POLKIT_IMPLICIT_AUTHORIZATION_UNKNOWN)
        \/ (g_key_file_has_key file s "Result" = false
            /\ g_key_file_has_key file s "ResultInverse" = true
            /\ implicit_authorization_zero = POLKIT_IMPLICIT_AUTHORIZATION_UNKNOWN)).
Proof.
  intros host file s c. unfold policy_load.
  destruct (g_key_file_has_group file s); [|done]. cbv zeta. cbn [negb].
  destruct (and_then _ _) as [q|[err|]] eqn:E; try done.
  intros [= <-]. split; [done|].
  by apply policy_load_blocks_crash in E.
Qed.

Lemma X4_policy_load_crashes_on_verdicts_only_witness :
  g_key_file_has_key (Host := Demo.bogus_host) Demo.result_bogus_keyfile "r1" "Result"
  = true
  /\ policy_string_to_result (host := Demo.bogus_host) (g_strstrip "bogus")
     = POLKIT_IMPLICIT_AUTHORIZATION_UNKNOWN.
Proof.
  destruct (X4_policy_load_crashes_on_verdicts_only Demo.bogus_host
              Demo.result_bogus_keyfile "r1" NullDereference eq_refl)
    as [_ [(Hk & v & Hv & Hu)|(Hk & _)]]; [|discriminate Hk].
  split; [exact Hk|]. injection Hv as <-. exact Hu.
Defined.



Lemma chain_policies_unfold (p : Policy) :
  chain_policies p = p :: opt_chain_policies (next p).
Proof. by destruct p as [? []]. Qed.

Lemma policy_file_load_chain_compiled `{Host} (keyfile : GKeyFile)
    (sections : list string) (chain : option Policy) :
  policy_file_load_chain keyfile sections = Ok (Some chain) ->
  List.map (fun r => set_next r None) (opt_chain_policies chain)
  = List.map (fun s => compiled_rule keyfile (g_strstrip s)) sections.
Proof.
  revert chain. induction sections as [|s sections IH]; intros chain; simpl.
  - by intros [= <-].
  - destruct (policy_load keyfile (g_strstrip s)) as [[p|]|] eqn:Hp; simpl; try done.
    destruct (policy_file_load_chain keyfile sections) as [[tail|]|]; simpl; try done.
    intros [= <-]. apply policy_load_compiled in Hp as [-> _].
    simpl. f_equal. by apply IH.
Qed.

(** X6. The chain [policy_file_load_rules] builds for [Rules] or for
    [AdminRules] holds one rule for each listed section, in the order of
    the list: the rule compiled from the group that the entry, its
    surrounding white space stripped, names. A section listed twice is
    compiled twice. *)
Theorem X6_rules_are_chained_in_listed_order :
  forall (host : Host) (keyfile : GKeyFile) (section : string) (chain : option Policy),
    policy_file_load_rules keyfile section = Ok (Some chain) ->
    exists sections,
      g_key_file_get_string_list keyfile POLICY_SECTION section = inl sections
      /\ List.map id (opt_chain_policies chain) = List.map g_strstrip sections
      /\ List.map (fun r => set_next r None) (opt_chain_policies chain)
         = List.map (fun s => compiled_rule keyfile (g_strstrip s)) sections.
Proof.
  intros host keyfile section chain. unfold policy_file_load_rules.
  destruct (g_key_file_get_string_list keyfile POLICY_SECTION section)
    as [sections|]; [|done].
  intros Hchain. exists sections. split; [done|].
  pose proof (policy_file_load_chain_compiled _ _ _ Hchain) as Hmap.
  split; [|done].
  apply (f_equal (List.map id)) in Hmap. rewrite !List.map_map in Hmap.
  etrans; [|etrans; [exact Hmap|]]; apply List.map_ext; by intros [].
Qed.

Lemma X6_rules_are_chained_in_listed_order_witness :
  exists chain,
    policy_file_load_rules (host := Samples.samples_host) Samples.full_keyfile "Rules"
    = Ok (Some chain)
    /\ List.map id (opt_chain_policies chain) = ["first"; "second"].
Proof.
  eexists. split; [reflexivity|].
  destruct (X6_rules_are_chained_in_listed_order Samples.samples_host
              Samples.full_keyfile "Rules" _ eq_refl) as (sections & Hs & Hids & _).
  injection Hs as <-. exact Hids.
Defined.

(** X7. [policy_file_new_from_path] stores an error in [*err] exactly when
    [g_key_file_load_from_file] fails, and it is that error: on every other
    path on which it returns [NULL], [*err] is left as it was. *)
Theorem X7_only_the_key_file_loader_sets_the_error :
  forall (host : Host) (path : string) (err : GError),
    policy_file_new_from_path path = Ok (inr (Some err)) <->
    g_key_file_load_from_file path = inr err.
Proof.
  intros host path err. unfold policy_file_new_from_path.
  destruct (g_key_file_load_from_file path) as [keyf|err']; [|naive_solver].
  split; [|done].
  destruct (if g_key_file_has_key keyf POLICY_SECTION "Rules" then _ else _)
    as [[normal|]|]; simpl; try done.
  destruct (if g_key_file_has_key keyf POLICY_SECTION "AdminRules" then _ else _)
    as [[admin|]|]; simpl; try done.
  by destruct (negb _).
Qed.

(** X8. A file [policy_file_new_from_path] returns has no next file, comes
    from a key file with [Rules] or [AdminRules] in its group [Policy], and
    holds for each of the two keys the chain [policy_file_load_rules] built
    for it, none for an absent key. A present key may list no section: the
    chain is empty then, and a file whose [Rules] lists nothing and that
    has no [AdminRules] is returned with both chains empty. *)
Theorem X8_compiled_file_holds_the_two_chains :
  forall (host : Host) (path : string) (file : PolicyFile),
    policy_file_new_from_path path = Ok (inl file) ->
    exists keyf,
      g_key_file_load_from_file path = inl keyf
      /\ file_next file = None
      /\ (g_key_file_has_key keyf POLICY_SECTION "Rules" = true
          \/ g_key_file_has_key keyf POLICY_SECTION "AdminRules" = true)
      /\ (if g_key_file_has_key keyf POLICY_SECTION "Rules"
          then policy_file_load_rules keyf "Rules" = Ok (Some (rules_normal file))
          else rules_normal file = None)
      /\ (if g_key_file_has_key keyf POLICY_SECTION "AdminRules"
          then policy_file_load_rules keyf "AdminRules" = Ok (Some (rules_admin file))
          else rules_admin file = None)
      /\ (g_key_file_get_string_list keyf POLICY_SECTION "Rules" = inl [] ->
          rules_normal file = None)
      /\ (g_key_file_get_string_list keyf POLICY_SECTION "AdminRules" = inl [] ->
          rules_admin file = None).
Proof.
  intros host path file. unfold policy_file_new_from_path.
  destruct (g_key_file_load_from_file path) as [keyf|]; [|done].
  intros Hfile. exists keyf. split; [done|]. revert Hfile.
  assert (forall section chain,
            g_key_file_get_string_list keyf POLICY_SECTION section = inl [] ->
            policy_file_load_rules keyf section = Ok (Some chain) -> chain = None)
    as Hempty.
  { intros section chain Hl. unfold policy_file_load_rules. rewrite Hl. simpl.
    by intros [= <-]. }
  destruct (g_key_file_has_key keyf POLICY_SECTION "Rules") eqn:Hr;
    destruct (g_key_file_has_key keyf POLICY_SECTION "AdminRules") eqn:Ha;
    repeat match goal with
           | |- context [policy_file_load_rules keyf ?k] =>
               destruct (policy_file_load_rules keyf k) as [[?|]|] eqn:?; simpl;
               try done
           end;
    simpl; try done; intros [= <-]; simpl; repeat split; eauto;
    intros Hl; unfold policy_file_load_rules in *; rewrite Hl in *; simpl in *;
    congruence.
Qed.

Lemma X8_compiled_file_holds_the_two_chains_witness :
  policy_file_new_from_path (host := Samples.samples_host)
    "/etc/polkit-1/rules.d/30-empty.keyrules"
  = Ok (inl (Build_PolicyFile None None None))
  /\ rules_normal (Build_PolicyFile None None None) = None.
Proof.
  split; [reflexivity|].
  destruct (X8_compiled_file_holds_the_two_chains Samples.samples_host
              "/etc/polkit-1/rules.d/30-empty.keyrules"
              (Build_PolicyFile None None None) eq_refl)
    as (keyf & Hk & _ & _ & _ & _ & Hempty & _).
  injection Hk as <-. exact (Hempty eq_refl).
Defined.

(** ** The match evaluator *)

Lemma constraints_pass_b_spec `{Host} (policy : Policy) (context : PolicyContext) :
  constraints_pass_b policy context = true <-> constraints_pass policy context.
Proof.
  unfold constraints_pass_b, constraints_pass.
  rewrite <- unix_groups_loop_spec, <- unix_names_loop_spec.
  rewrite !andb_true_iff, !orb_true_iff, !negb_true_iff, !Bool.eqb_true_iff.
  destruct (has_constraint (constraints policy) PF_CONSTRAINT_SUBJECT_ACTIVE),
    (has_constraint (constraints policy) PF_CONSTRAINT_SUBJECT_LOCAL),
    (has_constraint (constraints policy) PF_CONSTRAINT_UNIX_GROUPS),
    (has_constraint (constraints policy) PF_CONSTRAINT_UNIX_NAMES);
    intuition congruence.
Qed.

(** The locals at [unmatched]: nothing is set when the action does not
    match; when it does, [response] is the declared [Result] exactly when
    every declared constraint passed, and [conditions] is [FALSE] only when
    one of them failed. *)
Lemma policy_test_to_unmatched_spec `{Host} (policy : Policy) (action_id : string)
    (context : PolicyContext) :
  let l := policy_test_to_unmatched policy action_id context in
  id_matched_ l = action_matched policy action_id
  /\ response_ l
     = (if action_matched policy action_id && constraints_pass_b policy context
           && has_constraint (constraints policy) PF_CONSTRAINT_RESULT
        then response policy else POLKIT_IMPLICIT_AUTHORIZATION_UNKNOWN)
  /\ (id_matched_ l = true -> conditions_ l = false ->
      constraints_pass_b policy context = false).
Proof.
  unfold policy_test_to_unmatched, constraints_pass_b.
  destruct (action_matched policy action_id); [|done].
  destruct (has_constraint (constraints policy) PF_CONSTRAINT_SUBJECT_ACTIVE),
    (has_constraint (constraints policy) PF_CONSTRAINT_SUBJECT_LOCAL),
    (has_constraint (constraints policy) PF_CONSTRAINT_UNIX_GROUPS),
    (has_constraint (constraints policy) PF_CONSTRAINT_UNIX_NAMES),
    (Bool.eqb (subject_is_active context) (require_active policy)),
    (Bool.eqb (subject_is_local context) (require_local policy)),
    (unix_groups_loop policy context), (unix_names_loop policy context);
    simpl; by destruct (has_constraint (constraints policy) PF_CONSTRAINT_RESULT).
Qed.

Lemma is_unknown_spec (v : PolkitImplicitAuthorization) :
  is_unknown v = true <-> v = POLKIT_IMPLICIT_AUTHORIZATION_UNKNOWN.
Proof. unfold is_unknown. apply bool_decide_eq_true. Qed.

(** A verdict of [policy_test] that is not [UNKNOWN] is the verdict of a
    rule of the chain. *)
Lemma policy_test_verdict_source `{Host} (policy : Policy) (action_id : string)
    (context : PolicyContext) :
  policy_test policy action_id context <> POLKIT_IMPLICIT_AUTHORIZATION_UNKNOWN ->
  exists r, r ∈ chain_policies policy
            /\ verdict_of_rule r action_id context
                 (policy_test policy action_id context).
Proof.
  induction policy as [p Hp|p n Hp IH] using Policy_chain_ind;
    rewrite (chain_policies_unfold p), Hp; rewrite policy_test_unfold;
    destruct (policy_test_to_unmatched_spec p action_id context) as (Hid & Hr & Hc);
    cbv zeta; rewrite Hp;
    destruct (id_matched_ (policy_test_to_unmatched p action_id context)) eqn:Eid;
    simpl negb; cbn iota.
  - (* last rule, action matched *)
    destruct (conditions_ _) eqn:Ec; simpl.
    + rewrite Hr. rewrite <- Hid. simpl.
      destruct (constraints_pass_b p context) eqn:Ep; simpl; [|done].
      destruct (has_constraint _ PF_CONSTRAINT_RESULT) eqn:Er; [|done].
      intros _. exists p. split; [left|]. split; [done|]. left.
      by rewrite <- constraints_pass_b_spec.
    + destruct (has_constraint _ PF_CONSTRAINT_RESULT_INVERSE) eqn:Ei.
      * intros _. exists p. split; [left|]. split; [done|]. right.
        rewrite <- constraints_pass_b_spec, (Hc eq_refl eq_refl). by repeat split.
      * rewrite Hr, (Hc eq_refl eq_refl), andb_false_r. done.
  - (* last rule, action not matched *)
    rewrite Hr, <- Hid. done.
  - (* inner rule, action matched *)
    assert (policy_test n action_id context <> POLKIT_IMPLICIT_AUTHORIZATION_UNKNOWN ->
            exists r, r ∈ p :: chain_policies n
                      /\ verdict_of_rule r action_id context
                           (policy_test n action_id context)) as IH'.
    { intros Hn. destruct (IH Hn) as (r & Hin & Hv). exists r. split; [by right|done]. }
    destruct (conditions_ _) eqn:Ec; simpl.
    + rewrite Hr. rewrite <- Hid. simpl.
      destruct (constraints_pass_b p context) eqn:Ep; simpl; [|done].
      destruct (has_constraint _ PF_CONSTRAINT_RESULT) eqn:Er; [|done].
      destruct (is_unknown (response p)) eqn:Eu; [done|].
      intros _. exists p. split; [left|]. split; [done|]. left.
      by rewrite <- constraints_pass_b_spec.
    + destruct (has_constraint _ PF_CONSTRAINT_RESULT_INVERSE) eqn:Ei.
      * intros _. exists p. split; [left|]. split; [done|]. right.
        rewrite <- constraints_pass_b_spec, (Hc eq_refl eq_refl). by repeat split.
      * rewrite Hr, (Hc eq_refl eq_refl), andb_false_r. done.
  - (* inner rule, action not matched *)
    rewrite Hr, <- Hid. simpl.
    intros Hn. destruct (IH Hn) as (r & Hin & Hv). exists r. split; [by right|done].
Qed.

(** X9. A verdict of [policy_test] other than [UNKNOWN] is the verdict of a
    rule of the chain whose action matches the action id: its [Result] with
    every declared constraint passing, or its [ResultInverse] with one of
    them failing. So a chain in which no rule matches the action id yields
    [UNKNOWN]. *)
Theorem X9_verdicts_come_from_matching_rules :
  forall (host : Host) (policy : Policy) (action_id : string) (context : PolicyContext),
    (policy_test policy action_id context <> POLKIT_IMPLICIT_AUTHORIZATION_UNKNOWN ->
     exists r, r ∈ chain_policies policy
               /\ verdict_of_rule r action_id context
                    (policy_test policy action_id context))
    /\ ((forall r, r ∈ chain_policies policy -> action_matched r action_id = false) ->
        policy_test policy action_id context = POLKIT_IMPLICIT_AUTHORIZATION_UNKNOWN).
Proof.
  intros host policy action_id context.
  split; [apply policy_test_verdict_source|].
  intros Hnone.
  destruct (decide (policy_test policy action_id context
                    = POLKIT_IMPLICIT_AUTHORIZATION_UNKNOWN)) as [|Hv]; [done|].
  destruct (policy_test_verdict_source policy action_id context Hv)
    as (r & Hin & Hm & _).
  rewrite (Hnone r Hin) in Hm. done.
Qed.

Lemma X9_verdicts_come_from_matching_rules_witness :
  policy_test (host := Demo.bare_host) Demo.active_rule "org.example.other" Demo.alice
  = POLKIT_IMPLICIT_AUTHORIZATION_UNKNOWN
  /\ exists r, r ∈ chain_policies Demo.local_rule
       /\ verdict_of_rule (H := Demo.bare_host) r "org.example.action" Demo.alice_remote
            POLKIT_IMPLICIT_AUTHORIZATION_NOT_AUTHORIZED.
Proof.
  split.
  - apply (proj2 (X9_verdicts_come_from_matching_rules Demo.bare_host Demo.active_rule
                    "org.example.other" Demo.alice)).
    intros r Hr. simpl in Hr.
    apply elem_of_cons in Hr as [->|Hr]; [reflexivity|].
    apply elem_of_cons in Hr as [->|Hr]; [reflexivity|].
    by apply elem_of_nil in Hr.
  - apply (proj1 (X9_verdicts_come_from_matching_rules Demo.bare_host Demo.local_rule
                    "org.example.action" Demo.alice_remote)).
    discriminate.
Defined.

Lemma policy_test_to_unmatched_set_next `{Host} (policy : Policy) (n : option Policy)
    (action_id : string) (context : PolicyContext) :
  policy_test_to_unmatched (set_next policy n) action_id context
  = policy_test_to_unmatched policy action_id context.
Proof. by destruct policy. Qed.

(** X10. A rule shadows the rules behind it: when the rule, taken as the
    last of its chain, yields a verdict that is not [UNKNOWN], it yields
    that verdict whatever chain follows it. *)
Theorem X10_a_rule_shadows_the_rules_behind_it :
  forall (host : Host) (policy : Policy) (n : option Policy) (action_id : string)
         (context : PolicyContext),
    policy_test (set_next policy None) action_id context
    <> POLKIT_IMPLICIT_AUTHORIZATION_UNKNOWN ->
    policy_test (set_next policy n) action_id context
    = policy_test (set_next policy None) action_id context.
Proof.
  intros host policy n action_id context.
  rewrite !policy_test_unfold, !policy_test_to_unmatched_set_next. cbv zeta.
  replace (next (set_next policy n)) with n by (by destruct policy).
  replace (next (set_next policy None)) with (@None Policy) by (by destruct policy).
  replace (constraints (set_next policy n)) with (constraints policy)
    by (by destruct policy).
  replace (constraints (set_next policy None)) with (constraints policy)
    by (by destruct policy).
  replace (response_inverse (set_next policy n)) with (response_inverse policy)
    by (by destruct policy).
  replace (response_inverse (set_next policy None)) with (response_inverse policy)
    by (by destruct policy).
  destruct (policy_test_to_unmatched policy action_id context) as [r c i]. simpl.
  destruct i, c,
    (has_constraint (constraints policy) PF_CONSTRAINT_RESULT_INVERSE); simpl;
    try done;
    destruct n as [q|]; try done;
    destruct (is_unknown r) eqn:Eu; try done;
    by apply is_unknown_spec in Eu.
Qed.

Lemma X10_a_rule_shadows_the_rules_behind_it_witness :
  policy_test (host := Demo.bare_host) (set_next Demo.grant_rule (Some Demo.group_rule))
    "org.example.action" Demo.alice
  = POLKIT_IMPLICIT_AUTHORIZATION_AUTHORIZED.
Proof.
  rewrite (X10_a_rule_shadows_the_rules_behind_it Demo.bare_host Demo.grant_rule
             (Some Demo.group_rule) "org.example.action" Demo.alice);
    [reflexivity|discriminate].
Defined.

Lemma existsb_up_to_blanks (test : string -> bool) (l l' : list string) :
  List.map g_strstrip l = List.map g_strstrip l' ->
  existsb (fun a => test (g_strstrip a)) l = existsb (fun a => test (g_strstrip a)) l'.
Proof.
  revert l'. induction l as [|a l IH]; intros [|a' l'] E; simpl in *; try done.
  injection E as -> E. by rewrite (IH l' E).
Qed.

Lemma policy_test_to_unmatched_up_to_blanks `{Host} (p q : Policy)
    (action_id : string) (context : PolicyContext) :
  policy_eq_up_to_blanks p q ->
  policy_test_to_unmatched p action_id context
  = policy_test_to_unmatched q action_id context.
Proof.
  intros (_ & Hact & Hac & Hug & Hun & _ & Hra & Hrl & Hr & _ & Hc).
  assert (actions_loop p action_id = actions_loop q action_id) as Ha
    by apply (existsb_up_to_blanks
                (fun x => g_str_equal x action_id || g_str_equal x POLICY_MATCH_ALL)),
             Hact.
  assert (action_contains_loop p action_id = action_contains_loop q action_id) as Hb
    by apply (existsb_up_to_blanks (fun x => strstr action_id x)), Hac.
  assert (unix_groups_loop p context = unix_groups_loop q context) as Hg
    by apply (existsb_up_to_blanks
                (fun x => existsb (fun t => g_str_equal (wheel_substitute x) t)
                            (groups context))), Hug.
  assert (unix_names_loop p context = unix_names_loop q context) as Hn
    by apply (existsb_up_to_blanks (fun x => g_str_equal x (username context))), Hun.
  unfold policy_test_to_unmatched, action_matched.
  by rewrite Ha, Hb, Hg, Hn, Hra, Hrl, Hr, Hc.
Qed.

Lemma chain_eq_up_to_blanks_unfold (p q : Policy) :
  chain_eq_up_to_blanks p q <->
  policy_eq_up_to_blanks p q
  /\ match next p, next q with
     | Some n, Some m => chain_eq_up_to_blanks n m
     | None, None => True
     | _, _ => False
     end.
Proof. by destruct p. Qed.

(** X11. The in-place [g_strstrip] of an evaluation does not change what a
    later evaluation returns: two chains of rules that differ at most in the
    blanks around the entries of their action, group and user name lists
    give the same verdict in [policy_test] on every action id and
    context. *)
Theorem X11_stripping_in_place_keeps_the_verdict :
  forall (host : Host) (p q : Policy) (action_id : string) (context : PolicyContext),
    chain_eq_up_to_blanks p q ->
    policy_test p action_id context = policy_test q action_id context.
Proof.
  intros host p. induction p as [p Hp|p n Hp IH] using Policy_chain_ind;
    intros q action_id context Hpq;
    apply chain_eq_up_to_blanks_unfold in Hpq as [Heq Hnext];
    rewrite Hp in Hnext; destruct (next q) as [m|] eqn:Hq; try done;
    pose proof (policy_test_to_unmatched_up_to_blanks p q action_id context Heq) as Hl;
    destruct Heq as (_ & _ & _ & _ & _ & _ & _ & _ & _ & Hri & Hc);
    rewrite (policy_test_unfold p), (policy_test_unfold q); simpl;
    rewrite Hl, Hri, Hc, Hp, Hq; [done|].
  by rewrite (IH m action_id context Hnext).
Qed.

Lemma X11_stripping_in_place_keeps_the_verdict_witness :
  chain_eq_up_to_blanks Demo.spaced_rule (strip_chain_entries Demo.spaced_rule)
  /\ policy_test (host := Demo.bare_host) Demo.spaced_rule "org.example.action" Demo.alice
     = policy_test (host := Demo.bare_host) (strip_chain_entries Demo.spaced_rule)
         "org.example.action" Demo.alice.
Proof.
  assert (chain_eq_up_to_blanks Demo.spaced_rule (strip_chain_entries Demo.spaced_rule))
    as Hrel by (vm_compute; repeat split).
  split; [exact Hrel|].
  exact (X11_stripping_in_place_keeps_the_verdict Demo.bare_host Demo.spaced_rule
           (strip_chain_entries Demo.spaced_rule) "org.example.action" Demo.alice Hrel).
Defined.

Lemma first_known_spec (l : list PolkitImplicitAuthorization) :
  (first_known l = POLKIT_IMPLICIT_AUTHORIZATION_UNKNOWN
   /\ forall v, v ∈ l -> v = POLKIT_IMPLICIT_AUTHORIZATION_UNKNOWN)
  \/ (first_known l <> POLKIT_IMPLICIT_AUTHORIZATION_UNKNOWN
      /\ exists n, l !! n = Some (first_known l)
           /\ forall v, v ∈ take n l -> v = POLKIT_IMPLICIT_AUTHORIZATION_UNKNOWN).
Proof.
  induction l as [|v l IH]; simpl.
  - left. split; [done|]. by intros v Hv%elem_of_nil.
  - destruct (is_unknown v) eqn:Eu.
    + apply is_unknown_spec in Eu as ->.
      destruct IH as [[Hf Hall]|(Hf & n & Hn & Hall)].
      * left. split; [done|]. intros w [->|Hw]%elem_of_cons; auto.
      * right. split; [done|]. exists (S n). split; [done|].
        intros w [->|Hw]%elem_of_cons; auto.
    + right. split; [by intros ->|]. exists 0%nat. split; [done|].
      by intros w Hw%elem_of_nil.
Qed.

(** X12. [policy_file_test] returns the verdict of the first file of the
    chain whose normal rules yield one: either every file yields [UNKNOWN]
    and so does the call, or the call returns what some file yields, not
    [UNKNOWN], with every file before it yielding [UNKNOWN]. A file with no
    normal rules yields [UNKNOWN]. *)
Theorem X12_the_first_file_with_a_verdict_decides :
  forall (host : Host) (file : PolicyFile) (action_id : string) (context : PolicyContext),
    let v := policy_file_test file action_id context in
    ((v = POLKIT_IMPLICIT_AUTHORIZATION_UNKNOWN
      /\ forall g, g ∈ chain_files file ->
           file_verdict g action_id context = POLKIT_IMPLICIT_AUTHORIZATION_UNKNOWN)
     \/ (v <> POLKIT_IMPLICIT_AUTHORIZATION_UNKNOWN
         /\ exists n g, chain_files file !! n = Some g
              /\ file_verdict g action_id context = v
              /\ forall h, h ∈ take n (chain_files file) ->
                   file_verdict h action_id context
                   = POLKIT_IMPLICIT_AUTHORIZATION_UNKNOWN))
    /\ (forall g, rules_normal g = None ->
          file_verdict g action_id context = POLKIT_IMPLICIT_AUTHORIZATION_UNKNOWN).
Proof.
  intros host file action_id context. cbv zeta.
  split; [|by intros g; unfold file_verdict; intros ->].
  rewrite policy_file_test_first_known.
  set (verdict := fun f => file_verdict f action_id context).
  destruct (first_known_spec (List.map verdict (chain_files file)))
    as [[Hf Hall]|(Hf & n & Hn & Hall)].
  - left. split; [done|]. intros g Hg. apply (Hall (verdict g)).
    apply list_elem_of_In, (in_map verdict). by apply list_elem_of_In.
  - right. split; [done|].
    change (List.map verdict (chain_files file)) with (verdict <$> chain_files file)
      in Hn, Hall.
    rewrite list_lookup_fmap in Hn.
    destruct (chain_files file !! n) as [g|] eqn:Hg; [|done].
    injection Hn as Hn. exists n, g. split; [done|]. split; [done|].
    intros h Hh. apply (Hall (verdict h)). rewrite <- fmap_take.
    by apply list_elem_of_fmap_2.
Qed.

(** ** The comparator and the loader *)

Lemma rules_file_name_cmp_Crash (a b : string) (c : crash) :
  rules_file_name_cmp a b = Crash c -> c = AssertionFailed.
Proof.
  unfold rules_file_name_cmp.
  destruct (strrchr_tail a "/"), (strrchr_tail b "/"); try by intros [= <-].
  destruct (g_strcmp0 _ _); try done.
  destruct (g_strcmp0 a b); try done. by intros [= <-].
Qed.

(** X13. [rules_file_name_cmp] decides a strict order on the paths that
    hold a [/]: it returns exactly on two different such paths, never with
    0; its answers on a pair and on the swapped pair are opposite; the
    order is transitive; it compares what follows the last [/] first and
    the whole paths only when those are equal; and when it does not return,
    an assertion failed. *)
Theorem X13_the_comparator_decides_a_strict_order :
  forall a b : string,
    ((exists c, rules_file_name_cmp a b = Ok c)
     <-> is_Some (strrchr_tail a "/") /\ is_Some (strrchr_tail b "/") /\ a <> b)
    /\ rules_file_name_cmp a b <> Ok Eq
    /\ (rules_file_name_cmp a b = Ok Gt <-> rules_file_name_cmp b a = Ok Lt)
    /\ (forall c, rules_file_lt a b -> rules_file_lt b c -> rules_file_lt a c)
    /\ (forall a_base b_base,
          strrchr_tail a "/" = Some a_base -> strrchr_tail b "/" = Some b_base ->
          rules_file_lt a b <->
          String.compare a_base b_base = Lt
          \/ (a_base = b_base /\ String.compare a b = Lt))
    /\ (forall c, rules_file_name_cmp a b = Crash c -> c = AssertionFailed).
Proof.
  intros a b.
  assert (forall x y c, rules_file_name_cmp x y = Ok c -> x <> y) as Hne.
  { intros x y c H ->. destruct c.
    - by apply rules_file_name_cmp_not_Eq in H.
    - by apply rules_file_name_cmp_irrefl in H.
    - apply rules_file_name_cmp_Gt in H. by apply rules_file_name_cmp_irrefl in H. }
  split; [|split; [|split; [|split; [|split]]]].
  - split.
    + intros [c H]. pose proof (Hne _ _ _ H) as Hab.
      apply rules_file_name_cmp_Ok in H as (a0 & b0 & Ha & Hb & _).
      rewrite Ha, Hb. eauto.
    + intros (Ha & Hb & Hab).
      destruct (rules_file_name_cmp_total a b Ha Hb Hab); eauto.
  - apply rules_file_name_cmp_not_Eq.
  - split; [apply rules_file_name_cmp_Gt|].
    intros H. pose proof (Hne _ _ _ H) as Hba.
    pose proof H as H'.
    apply rules_file_name_cmp_Ok in H' as (b0 & a0 & Hb & Ha & _).
    assert (a <> b) as Hab by congruence.
    assert (is_Some (strrchr_tail a "/")) as Hsa by (by rewrite Ha).
    assert (is_Some (strrchr_tail b "/")) as Hsb by (by rewrite Hb).
    destruct (rules_file_name_cmp_total a b Hsa Hsb Hab) as [Hlt|Hgt]; [|done].
    destruct (rules_file_name_cmp_irrefl a).
    by apply (rules_file_name_cmp_trans a b a).
  - intros c. apply rules_file_name_cmp_trans.
  - intros a_base b_base Ha Hb. unfold rules_file_lt, cmp_lt. split.
    + intros H. apply rules_file_name_cmp_Ok in H as (a0 & b0 & Ha' & Hb' & _ & H).
      assert (a0 = a_base) as -> by congruence.
      assert (b0 = b_base) as -> by congruence.
      destruct H as [H|[H H']]; [by left|].
      right. by apply String.compare_eq_iff in H.
    + intros H. apply (rules_file_name_cmp_Lt a b a_base b_base Ha Hb).
      destruct H as [H|[-> H]]; [by left|].
      right. split; [apply string_compare_refl|done].
  - apply rules_file_name_cmp_Crash.
Qed.

Lemma g_list_insert_sorted_Crash {A : Type} (cmp : A -> A -> result comparison)
    (x : A) (l : list A) (c : crash) :
  g_list_insert_sorted cmp x l = Crash c -> exists y, cmp x y = Crash c.
Proof.
  induction l as [|y l IH]; simpl; [done|].
  destruct (cmp x y) as [[]|c'] eqn:E; simpl; try done.
  - destruct (g_list_insert_sorted cmp x l); simpl; [done|].
    intros [= <-]. by apply IH.
  - intros [= <-]. eauto.
Qed.

Lemma g_list_sort_Crash {A : Type} (cmp : A -> A -> result comparison)
    (l : list A) (c : crash) :
  g_list_sort cmp l = Crash c -> exists x y, cmp x y = Crash c.
Proof.
  induction l as [|x l IH]; simpl; [done|].
  destruct (g_list_sort cmp l) as [s|c']; simpl.
  - intros H. exists x. by apply (g_list_insert_sorted_Crash cmp x s).
  - intros [= <-]. by apply IH.
Qed.

Lemma sorted_rules_files_NoDup (l : list string) :
  StronglySorted rules_file_lt l -> NoDup l.
Proof.
  induction 1 as [|x l Hs IH Hx]; constructor; [|done].
  intros Hin. rewrite Forall_forall in Hx.
  by apply (rules_file_name_cmp_irrefl x), Hx.
Qed.

(** The sort of the collected paths returns exactly when no path was
    collected twice; when it does not, the comparator failed an assertion. *)
Lemma collect_rules_files_sort `{Host} (dirs : option (list string)) :
  (NoDup (collect_rules_files dirs)
   /\ exists sorted,
        g_list_sort rules_file_name_cmp (collect_rules_files dirs) = Ok sorted
        /\ sorted ≡ₚ collect_rules_files dirs
        /\ StronglySorted rules_file_lt sorted)
  \/ (~ NoDup (collect_rules_files dirs)
      /\ g_list_sort rules_file_name_cmp (collect_rules_files dirs)
         = Crash AssertionFailed).
Proof.
  destruct (g_list_sort rules_file_name_cmp (collect_rules_files dirs))
    as [sorted|c] eqn:Hsort.
  - left.
    pose proof (g_list_sort_perm _ _ _ Hsort) as Hperm.
    pose proof (g_list_sort_sorted rules_file_name_cmp rules_file_name_cmp_trans
                  rules_file_name_cmp_Gt rules_file_name_cmp_not_Eq _ _ Hsort)
      as Hsorted.
    split; [|by exists sorted].
    rewrite <- Hperm. by apply sorted_rules_files_NoDup.
  - right. split.
    + intros Hnd. destruct (collect_rules_files_sort_returns dirs Hnd) as [s Hs].
      congruence.
    + destruct (g_list_sort_Crash _ _ _ Hsort) as (x & y & Hxy).
      by apply rules_file_name_cmp_Crash in Hxy as ->.
Qed.

Lemma policy_load_Crash `{Host} (file : GKeyFile) (s : string) (c : crash) :
  policy_load file s = Crash c -> c = NullDereference.
Proof.
  unfold policy_load. destruct (negb _); [done|]. cbv zeta.
  destruct (and_then _ _) as [q|[err|]]; try done. by intros [= <-].
Qed.

Lemma policy_file_load_chain_Crash `{Host} (keyfile : GKeyFile)
    (sections : list string) (c : crash) :
  policy_file_load_chain keyfile sections = Crash c -> c = NullDereference.
Proof.
  induction sections as [|s sections IH]; simpl; [done|].
  destruct (policy_load keyfile (g_strstrip s)) as [[p|]|c'] eqn:Hp; simpl; try done.
  - destruct (policy_file_load_chain keyfile sections) as [[tail|]|c']; simpl;
      try done; intros [= <-]; by apply IH.
  - intros [= <-]. by apply policy_load_Crash in Hp.
Qed.

Lemma policy_file_load_rules_Crash `{Host} (keyfile : GKeyFile) (section : string)
    (c : crash) :
  policy_file_load_rules keyfile section = Crash c -> c = NullDereference.
Proof.
  unfold policy_file_load_rules.
  destruct (g_key_file_get_string_list keyfile POLICY_SECTION section); [|done].
  apply policy_file_load_chain_Crash.
Qed.

Lemma policy_file_new_from_path_Crash `{Host} (path : string) (c : crash) :
  policy_file_new_from_path path = Crash c -> c = NullDereference.
Proof.
  unfold policy_file_new_from_path.
  destruct (g_key_file_load_from_file path) as [keyf|]; [|done].
  destruct (g_key_file_has_key keyf POLICY_SECTION "Rules");
    destruct (g_key_file_has_key keyf POLICY_SECTION "AdminRules");
    repeat match goal with
           | |- context [policy_file_load_rules keyf ?k] =>
               let E := fresh "E" in
               destruct (policy_file_load_rules keyf k) as [[?|]|?] eqn:E; simpl;
               try done;
               try (apply policy_file_load_rules_Crash in E as ->)
           end;
    simpl; try done; by intros [= <-].
Qed.

(** The second loop does not return exactly when, for some path, the
    compilation does not return or returns [NULL] with no error set. *)
Lemma link_rules_files_Crash `{Host} (files : list string) (c : crash) :
  link_rules_files files = Crash c ->
  c = NullDereference
  /\ exists p, p ∈ files
       /\ (policy_file_new_from_path p = Ok (inr None)
           \/ policy_file_new_from_path p = Crash NullDereference).
Proof.
  induction files as [|q files IH]; simpl; [done|].
  destruct (policy_file_new_from_path q) as [[file|[err|]]|c'] eqn:Hq; simpl.
  - destruct (link_rules_files files) as [rest|c']; simpl; [done|].
    intros [= <-]. destruct IH as (-> & p & Hp & Hbad); [done|].
    split; [done|]. exists p. split; [by right|done].
  - intros Hl. destruct (IH Hl) as (-> & p & Hp & Hbad).
    split; [done|]. exists p. split; [by right|done].
  - intros [= <-]. split; [done|]. exists q. split; [left|by left].
  - intros [= <-]. apply policy_file_new_from_path_Crash in Hq as Hc. subst c'.
    split; [done|]. exists q. split; [left|by right].
Qed.

Lemma link_rules_files_bad `{Host} (files : list string) (p : string) :
  p ∈ files ->
  policy_file_new_from_path p = Ok (inr None)
  \/ policy_file_new_from_path p = Crash NullDereference ->
  link_rules_files files = Crash NullDereference.
Proof.
  intros Hp Hbad. induction files as [|q files IH]; [by apply elem_of_nil in Hp|].
  simpl. apply elem_of_cons in Hp as [<-|Hp].
  - by destruct Hbad as [->| ->].
  - destruct (policy_file_new_from_path q) as [[file|[err|]]|c'] eqn:Hq; simpl.
    + by rewrite (IH Hp).
    + by apply IH.
    + done.
    + by apply policy_file_new_from_path_Crash in Hq as ->.
Qed.

(** X14. [load_rules] fails to return in two ways only. It fails the last
    assertion of the comparator exactly when a path was collected twice, as
    with a directory that is listed twice and holds a rule file. It reads
    [err->message] through a [NULL] [err] exactly when no path was collected
    twice and, for some collected path, [policy_file_new_from_path] returns
    [NULL] with no error set or does not return. *)
Theorem X14_load_rules_fails_in_two_ways :
  forall (host : Host) (authority : PolkitBackendKeyfileAuthorityPrivate),
    (load_rules authority = Crash AssertionFailed
     <-> ~ NoDup (collect_rules_files (rules_dirs authority)))
    /\ (load_rules authority = Crash NullDereference
        <-> NoDup (collect_rules_files (rules_dirs authority))
            /\ exists p, p ∈ collect_rules_files (rules_dirs authority)
                 /\ (policy_file_new_from_path p = Ok (inr None)
                     \/ policy_file_new_from_path p = Crash NullDereference))
    /\ (forall c, load_rules authority = Crash c ->
          c = AssertionFailed \/ c = NullDereference).
Proof.
  intros host authority. unfold load_rules.
  destruct (collect_rules_files_sort (rules_dirs authority))
    as [(Hnd & sorted & -> & Hperm & _)|(Hdup & ->)]; simpl.
  - destruct (link_rules_files sorted) as [[file|]|c] eqn:Hlink; simpl.
    + split; [split; [done|by intros []]|]. split; [|done].
      split; [done|]. intros (_ & p & Hp & Hbad). rewrite <- Hperm in Hp.
      rewrite (link_rules_files_bad sorted p Hp Hbad) in Hlink. done.
    + split; [split; [done|by intros []]|]. split; [|done].
      split; [done|]. intros (_ & p & Hp & Hbad). rewrite <- Hperm in Hp.
      rewrite (link_rules_files_bad sorted p Hp Hbad) in Hlink. done.
    + destruct (link_rules_files_Crash sorted c Hlink) as (-> & p & Hp & Hbad).
      split; [split; [done|by intros []]|]. split; [|intros c [= <-]; by right].
      split; [|done]. intros _. split; [done|].
      exists p. by rewrite <- Hperm.
  - split; [done|]. split; [|intros c [= <-]; by left].
    split; [done|]. by intros [Hnd _].
Qed.

Lemma omap_compiled_file `{Host} (files : list string) (compiled : list PolicyFile) :
  compile_rules_files files = Ok compiled -> compiled = omap compiled_file files.
Proof.
  revert compiled. induction files as [|p files IH]; intros compiled; simpl.
  - by intros [= <-].
  - unfold compiled_file at 1.
    destruct (policy_file_new_from_path p) as [[file|[err|]]|c]; simpl; try done.
    + destruct (compile_rules_files files) as [rest|]; simpl; [|done].
      intros [= <-]. by rewrite (IH rest).
    + apply IH.
Qed.

(** X15. The rule set [load_rules] leaves is linked in the order of the
    comparator, whatever the order in which the directories are listed and
    read: when it returns, the directories are as they were, and the files
    of the chain are what the collected paths compile to, taken in
    ascending order of the comparator, the paths that do not compile left
    out. When no path compiles, the rule set is left as it was. *)
Theorem X15_rule_set_is_linked_in_comparator_order :
  forall (host : Host) (authority authority' : PolkitBackendKeyfileAuthorityPrivate),
    load_rules authority = Ok authority' ->
    rules_dirs authority' = rules_dirs authority
    /\ exists sorted,
         sorted ≡ₚ collect_rules_files (rules_dirs authority)
         /\ StronglySorted rules_file_lt sorted
         /\ (omap compiled_file sorted = [] -> policy authority' = policy authority)
         /\ (omap compiled_file sorted <> [] ->
             List.map file_rules (rule_set_files (policy authority'))
             = List.map file_rules (omap compiled_file sorted)).
Proof.
  intros host authority authority'. unfold load_rules.
  destruct (collect_rules_files_sort (rules_dirs authority))
    as [(Hnd & sorted & -> & Hperm & Hsorted)|(Hdup & ->)]; simpl; [|done].
  rewrite link_rules_files_spec.
  destruct (compile_rules_files sorted) as [compiled|] eqn:Hc; simpl; [|done].
  apply omap_compiled_file in Hc as Hcomp.
  pose proof (link_files_rules compiled) as Hrules.
  destruct (link_files compiled) as [head|] eqn:Hhead; intros [= <-]; simpl;
    (split; [done|]); exists sorted; (split; [done|]); (split; [done|]);
    rewrite <- Hcomp.
  - split; [|done]. intros ->. done.
  - split; [done|]. by destruct compiled.
Qed.

Lemma X15_rule_set_is_linked_in_comparator_order_witness :
  exists authority' sorted,
    load_rules (host := Samples.samples_host) Samples.etc_only = Ok authority'
    /\ sorted ≡ₚ ["/etc/polkit-1/rules.d/10-full.keyrules";
                  "/etc/polkit-1/rules.d/.hidden.keyrules"]
    /\ StronglySorted rules_file_lt sorted.
Proof.
  eexists.
  destruct (X15_rule_set_is_linked_in_comparator_order Samples.samples_host
              Samples.etc_only _ eq_refl) as (_ & sorted & Hperm & Hsorted & _).
  exists sorted. split; [reflexivity|]. split; [exact Hperm|exact Hsorted].
Defined.

(** ** The admin identities *)

Lemma build_admin_spec `{Host} (ret : list PolkitIdentity) (grouping : list string)
    (id_prefix : string) :
  polkit_backend_keyfile_internal_build_admin ret grouping id_prefix
  = rev (omap (admin_identity id_prefix) grouping) ++ ret.
Proof.
  unfold polkit_backend_keyfile_internal_build_admin.
  revert ret. induction grouping as [|item grouping IH]; intros ret; [done|].
  cbn [fold_left]. rewrite IH. cbn [omap list_omap].
  unfold admin_identity at 2, wheel_substitute.
  destruct (polkit_identity_from_string _) as [i|err]; [|done].
  cbn [rev]. by rewrite <- app_assoc.
Qed.

Lemma admin_of_policy_spec `{Host} (policy : Policy) (ret : list PolkitIdentity) :
  admin_of_policy policy ret = rev (policy_admin_identities policy) ++ ret.
Proof.
  unfold admin_of_policy, policy_admin_identities.
  destruct (has_constraint _ PF_CONSTRAINT_UNIX_GROUPS),
    (has_constraint _ PF_CONSTRAINT_UNIX_NAMES),
    (has_constraint _ PF_CONSTRAINT_NET_GROUPS);
    rewrite ?build_admin_spec, ?rev_app_distr, ?app_nil_r; simpl;
    by rewrite <- ?app_assoc.
Qed.

Lemma admin_of_chain_spec `{Host} (policy : Policy) (ret : list PolkitIdentity) :
  admin_of_chain policy ret
  = rev (flat_map policy_admin_identities (chain_policies policy)) ++ ret.
Proof.
  revert ret. induction policy as [p Hp|p n Hp IH] using Policy_chain_ind;
    intros ret;
    replace (admin_of_chain p ret)
      with (let ret := admin_of_policy p ret in
            match next p with
            | Some n => admin_of_chain n ret
            | None => ret
            end) by (by destruct p);
    rewrite chain_policies_unfold, Hp; cbn [opt_chain_policies flat_map];
    cbv zeta; rewrite ?IH, admin_of_policy_spec.
  - by rewrite app_nil_r.
  - by rewrite rev_app_distr, <- app_assoc.
Qed.

Lemma admin_of_files_spec `{Host} (file : PolicyFile) (ret : list PolkitIdentity) :
  admin_of_files file ret
  = rev (flat_map (fun f => flat_map policy_admin_identities
                              (opt_chain_policies (rules_admin f)))
           (chain_files file)) ++ ret.
Proof.
  assert (forall f ret,
            match rules_admin f with
            | Some policy => admin_of_chain policy ret
            | None => ret
            end
            = rev (flat_map policy_admin_identities
                     (opt_chain_policies (rules_admin f))) ++ ret) as Hone.
  { intros f r. destruct (rules_admin f); [apply admin_of_chain_spec|done]. }
  revert ret. induction file as [f Hf|f n Hf IH] using PolicyFile_chain_ind;
    intros ret; specialize (Hone f ret);
    destruct f as [nx rn ra]; simpl in *; subst nx; rewrite Hone.
  - by rewrite app_nil_r.
  - by rewrite IH, rev_app_distr, <- app_assoc.
Qed.

(** X16. The admin identities are harvested in the order of the rule set:
    file by file, within a file rule by rule of its admin chain, within a
    rule its groups, then its users, then its netgroups, each list in its
    order; an entry stands for the identity that its kind and its stripped
    text name, the wheel alias replaced, and is left out when that string
    parses to none. Neither the action id nor the subject selects among the
    admin rules: what the entry point returns is that list, or the
    superuser alone. *)
Theorem X16_admin_identities_follow_the_rule_set :
  forall (host : Host) (authority : PolkitBackendKeyfileAuthorityPrivate),
    harvest_admin_identities authority
    = flat_map (fun f => flat_map policy_admin_identities
                           (opt_chain_policies (rules_admin f)))
        (rule_set_files (policy authority))
    /\ forall (caller subject : PolkitSubject) (user_for_subject : PolkitIdentity)
              (subject_is_local subject_is_active : bool) (action_id : string)
              (identities : list PolkitIdentity),
         polkit_backend_keyfile_authority_get_admin_auth_identities authority caller
           subject user_for_subject subject_is_local subject_is_active action_id
         = Ok identities ->
         identities = harvest_admin_identities authority
         \/ identities = [polkit_unix_user_new 0].
Proof.
  intros host authority. split.
  - unfold harvest_admin_identities, rule_set_files.
    destruct (policy authority) as [file|]; [|done].
    by rewrite admin_of_files_spec, app_nil_r, rev_involutive.
  - intros caller subject user local active action_id identities.
    unfold polkit_backend_keyfile_authority_get_admin_auth_identities.
    destruct (polkit_backend_keyfile_internal_prepare_context _) as [[context|]|];
      simpl; [|by intros [= <-]; right|done].
    destruct (harvest_admin_identities authority); intros [= <-]; auto.
Qed.

(** ** The authorization check *)

Lemma policy_file_test_verdict_source `{Host} (file : PolicyFile) (action_id : string)
    (context : PolicyContext) :
  policy_file_test file action_id context <> POLKIT_IMPLICIT_AUTHORIZATION_UNKNOWN ->
  exists g chain r,
    g ∈ chain_files file /\ rules_normal g = Some chain /\ r ∈ chain_policies chain
    /\ verdict_of_rule r action_id context (policy_file_test file action_id context).
Proof.
  rewrite policy_file_test_first_known.
  set (verdict := fun f => file_verdict f action_id context).
  change (List.map verdict (chain_files file)) with (verdict <$> chain_files file).
  destruct (first_known_spec (verdict <$> chain_files file))
    as [[Hf _]|(_ & n & Hn & _)]; [done|].
  intros Hv. rewrite list_lookup_fmap in Hn.
  destruct (chain_files file !! n) as [g|] eqn:Hg; [|done].
  injection Hn as Hn. apply list_elem_of_lookup_2 in Hg.
  rewrite <- Hn in Hv |- *. unfold verdict, file_verdict in Hv |- *.
  destruct (rules_normal g) as [chain|] eqn:Hchain; [|done].
  destruct (policy_test_verdict_source chain action_id context Hv) as (r & Hr & Hrule).
  by exists g, chain, r.
Qed.

(** X17. What the authorization check returns has one of three sources. It
    is [NOT_AUTHORIZED] because the context could not be prepared; or it is
    the implicit verdict of the caller, every file of the rule set yielding
    [UNKNOWN]; or it is the verdict, not [UNKNOWN], that a rule of the
    normal chain of a file gives on its own for the action id and the
    prepared context. The admin chains play no part, and the check returns
    [UNKNOWN] only when the implicit verdict is [UNKNOWN]. When the check
    does not return, an assertion of the context preparation failed, or the
    authority has no rule set. *)
Theorem X17_check_returns_a_rule_verdict_or_the_implicit_one :
  forall (host : Host) (authority : PolkitBackendKeyfileAuthorityPrivate)
         (caller subject : PolkitSubject) (user_for_subject : PolkitIdentity)
         (subject_is_local subject_is_active : bool) (action_id : string)
         (implicit : PolkitImplicitAuthorization),
    let prepared :=
      polkit_backend_keyfile_internal_prepare_context
        (initial_context subject user_for_subject subject_is_local subject_is_active) in
    let check :=
      polkit_backend_keyfile_authority_check_authorization_sync authority caller subject
        user_for_subject subject_is_local subject_is_active action_id implicit in
    (forall v, check = Ok v ->
       (v = POLKIT_IMPLICIT_AUTHORIZATION_NOT_AUTHORIZED /\ prepared = Ok None)
       \/ exists context file,
            prepared = Ok (Some context) /\ policy authority = Some file
            /\ ((v = implicit
                 /\ forall g, g ∈ chain_files file ->
                      file_verdict g action_id context
                      = POLKIT_IMPLICIT_AUTHORIZATION_UNKNOWN)
                \/ (v <> POLKIT_IMPLICIT_AUTHORIZATION_UNKNOWN
                    /\ exists g chain r,
                         g ∈ chain_files file /\ rules_normal g = Some chain
                         /\ r ∈ chain_policies chain
                         /\ verdict_of_rule r action_id context v)))
    /\ (check = Ok POLKIT_IMPLICIT_AUTHORIZATION_UNKNOWN ->
        implicit = POLKIT_IMPLICIT_AUTHORIZATION_UNKNOWN)
    /\ (forall c, check = Crash c ->
          prepared = Crash c
          \/ (c = NullDereference /\ policy authority = None
              /\ exists context, prepared = Ok (Some context))).
Proof.
  intros host authority caller subject user local active action_id implicit.
  cbv zeta. unfold polkit_backend_keyfile_authority_check_authorization_sync.
  destruct (polkit_backend_keyfile_internal_prepare_context _)
    as [[context|]|c'] eqn:Hprep; simpl.
  - destruct (policy authority) as [file|] eqn:Hpol.
    + destruct (is_unknown (policy_file_test file action_id context)) eqn:Eu.
      * apply is_unknown_spec in Eu.
        split; [|split; [congruence|done]].
        intros v [= <-]. right. exists context, file. split; [done|]. split; [done|].
        left. split; [done|]. intros g Hg.
        rewrite policy_file_test_first_known in Eu.
        destruct (first_known_spec
                    (List.map (fun f => file_verdict f action_id context)
                       (chain_files file))) as [[_ Hall]|[Hne _]]; [|done].
        apply Hall, list_elem_of_In,
          (in_map (fun f => file_verdict f action_id context)).
        by apply list_elem_of_In.
      * assert (policy_file_test file action_id context
                <> POLKIT_IMPLICIT_AUTHORIZATION_UNKNOWN) as Hne
          by (intros Hu; apply is_unknown_spec in Hu; congruence).
        split; [|split; [congruence|done]].
        intros v [= <-]. right. exists context, file. split; [done|]. split; [done|].
        right. split; [done|]. by apply policy_file_test_verdict_source.
    + split; [done|]. split; [done|].
      intros c [= <-]. right. split; [done|]. split; [done|]. by exists context.
  - split; [|split; [done|done]]. intros v [= <-]. by left.
  - split; [done|]. split; [done|]. intros c [= <-]. by left.
Qed.

(** ** The context preparation *)

(** X18. [polkit_backend_keyfile_internal_prepare_context] returns [FALSE]
    exactly when the subject is a bus name whose process cannot be found,
    whatever the identity of the user; when it does not return, an assertion
    failed. It never reads the groups and the user name of the context it is
    given, and keeps the other four members. When it returns [TRUE], the
    user is a [unix-user]; the user name is that of its [passwd] entry and
    the groups are the names of the group ids of [getgrouplist], in order;
    with no [passwd] entry the user name is the printed uid. With no
    [passwd] entry, or with [getgrouplist] failing, the context has no
    group, and the group test of the evaluator fails for every rule. *)
Theorem X18_prepared_context_comes_from_the_user_database :
  forall (host : Host) (context : PolicyContext),
    (polkit_backend_keyfile_internal_prepare_context context = Ok None
     <-> exists name err,
           subject context = PolkitSystemBusName name
           /\ polkit_system_bus_name_get_process_sync name = inr err)
    /\ (forall c, polkit_backend_keyfile_internal_prepare_context context = Crash c ->
          c = AssertionFailed)
    /\ (forall groups' username',
          polkit_backend_keyfile_internal_prepare_context
            (Build_PolicyContext (subject context) (user_for_subject context)
               (subject_is_local context) (subject_is_active context) groups' username')
          = polkit_backend_keyfile_internal_prepare_context context)
    /\ (forall context',
          polkit_backend_keyfile_internal_prepare_context context = Ok (Some context') ->
          subject context' = subject context
          /\ user_for_subject context' = user_for_subject context
          /\ subject_is_local context' = subject_is_local context
          /\ subject_is_active context' = subject_is_active context
          /\ exists uid,
               user_for_subject context = PolkitUnixUser uid
               /\ username context'
                  = match getpwuid uid with
                    | Some pw => pw_name pw
                    | None => printf_d uid
                    end
               /\ groups context'
                  = match getpwuid uid with
                    | Some pw =>
                        match getgrouplist (pw_name pw) (pw_gid pw) with
                        | Some gids => List.map group_name gids
                        | None => []
                        end
                    | None => []
                    end
               /\ (getpwuid uid = None
                   \/ (exists pw, getpwuid uid = Some pw
                                  /\ getgrouplist (pw_name pw) (pw_gid pw) = None) ->
                   groups context' = []
                   /\ forall policy, unix_groups_loop policy context' = false)).
Proof.
  intros host context.
  assert (forall policy context', groups context' = [] ->
                                  unix_groups_loop policy context' = false) as Hnone.
  { intros policy context' Hg. unfold unix_groups_loop. rewrite Hg.
    by induction (unix_groups policy). }
  unfold polkit_backend_keyfile_internal_prepare_context.
  destruct context as [subj user local active grps name]. cbn [subject user_for_subject
    subject_is_local subject_is_active].
  split; [|split; [|split; [done|]]].
  - destruct subj as [pid|bus|session].
    + split; [|by intros (? & ? & ? & ?)].
      destruct user as [uid| |]; [|done..]. by destruct (getpwuid uid).
    + destruct (polkit_system_bus_name_get_process_sync bus) as [pid|err] eqn:Hbus.
      * split; [|intros (? & ? & [= <-] & ?); congruence].
        destruct user as [uid| |]; [|done..]. by destruct (getpwuid uid).
      * split; [|done]. intros _. by exists bus, err.
    + split; [done|]. by intros (? & ? & ? & ?).
  - intros c. destruct subj as [pid|bus|session];
      [|destruct (polkit_system_bus_name_get_process_sync bus)|];
      try (destruct user as [uid| |]; [destruct (getpwuid uid)|..]);
      try done; by intros [= <-].
  - intros context'.
    assert ((match user with
             | PolkitUnixUser uid =>
                 match getpwuid uid with
                 | Some pw =>
                     Ok (Some (Build_PolicyContext subj user local active
                                 match getgrouplist (pw_name pw) (pw_gid pw) with
                                 | Some gids => List.map group_name gids
                                 | None => []
                                 end (pw_name pw)))
                 | None =>
                     Ok (Some (Build_PolicyContext subj user local active []
                                 (printf_d uid)))
                 end
             | _ => Crash AssertionFailed
             end = Ok (Some context')) ->
            subject context' = subj /\ user_for_subject context' = user
            /\ subject_is_local context' = local /\ subject_is_active context' = active
            /\ exists uid,
                 user = PolkitUnixUser uid
                 /\ username context'
                    = match getpwuid uid with
                      | Some pw => pw_name pw
                      | None => printf_d uid
                      end
                 /\ groups context'
                    = match getpwuid uid with
                      | Some pw =>
                          match getgrouplist (pw_name pw) (pw_gid pw) with
                          | Some gids => List.map group_name gids
                          | None => []
                          end
                      | None => []
                      end
                 /\ (getpwuid uid = None
                     \/ (exists pw, getpwuid uid = Some pw
                                    /\ getgrouplist (pw_name pw) (pw_gid pw) = None) ->
                     groups context' = []
                     /\ forall policy, unix_groups_loop policy context' = false)) as Huser.
    { destruct user as [uid| |]; [|done..].
      destruct (getpwuid uid) as [pw|] eqn:Hpw; intros [= <-]; cbn;
        (split; [done|]); (split; [done|]); (split; [done|]); (split; [done|]);
        exists uid; rewrite Hpw; (split; [done|]); (split; [done|]); (split; [done|]).
      - intros [?|(pw' & [= <-] & Hgl)]; [done|]. rewrite Hgl.
        split; [done|]. intros policy. by apply Hnone.
      - intros _. split; [done|]. intros policy. by apply Hnone. }
    destruct subj as [pid|bus|session]; [exact Huser| |done].
    destruct (polkit_system_bus_name_get_process_sync bus); [exact Huser|done].
Qed.

(** ** The directory monitor *)

(** X19. The loader and the monitor do not agree on the names of the rule
    files: a name that ends in [.keyrules] and starts with [.] or [#] is
    collected by [load_rules] from a listed directory, and no event on it
    makes [on_dir_monitor_changed] reload the rules. *)
Theorem X19_hidden_rule_files_are_loaded_but_not_watched :
  forall (host : Host) (authority : PolkitBackendKeyfileAuthorityPrivate)
         (dirs names : list string) (d name : string) (event_type : GFileMonitorEvent),
    rules_dirs authority = Some dirs -> d ∈ dirs ->
    g_dir_read_names d = inl names -> name ∈ names ->
    g_str_has_suffix name ".keyrules" = true ->
    g_str_has_prefix name "." = true \/ g_str_has_prefix name "#" = true ->
    (d +:+ "/" +:+ name) ∈ collect_rules_files (rules_dirs authority)
    /\ on_dir_monitor_changed authority (Some name) event_type = Ok authority.
Proof.
  intros host authority dirs names d name event_type Hdirs Hd Hnames Hname Hsuf Hpre.
  split.
  - rewrite Hdirs. apply collect_rules_files_elem. by exists d, names, name.
  - unfold on_dir_monitor_changed, monitor_reloads.
    by destruct Hpre as [-> | ->]; rewrite ?andb_false_r.
Qed.

Lemma X19_hidden_rule_files_are_loaded_but_not_watched_witness :
  "/etc/polkit-1/rules.d/.hidden.keyrules"
    ∈ collect_rules_files (host := Samples.samples_host) (rules_dirs Samples.etc_only)
  /\ on_dir_monitor_changed (host := Samples.samples_host) Samples.etc_only
       (Some ".hidden.keyrules") G_FILE_MONITOR_EVENT_CHANGES_DONE_HINT
     = Ok Samples.etc_only.
Proof.
  apply (X19_hidden_rule_files_are_loaded_but_not_watched Samples.samples_host
           Samples.etc_only [Demo.etc_dir] [".hidden.keyrules"; "10-full.keyrules"]
           Demo.etc_dir ".hidden.keyrules" G_FILE_MONITOR_EVENT_CHANGES_DONE_HINT).
  - reflexivity.
  - apply list_elem_of_here.
  - reflexivity.
  - apply list_elem_of_here.
  - reflexivity.
  - left. reflexivity.
Defined.

(** ** Blank entries *)

(** X20. An entry of [ActionContains] that is empty or white space only
    matches every action id: stripped, it is the empty string, which
    [strstr] finds in every string. *)
Theorem X20_blank_action_contains_entry_matches_every_action :
  forall (policy : Policy) (entry action_id : string),
    has_constraint (constraints policy) PF_CONSTRAINT_ACTION_CONTAINS = true ->
    entry ∈ action_contains policy ->
    g_strstrip entry = EmptyString ->
    action_matched policy action_id = true.
Proof.
  intros policy entry action_id Hc Hin Hblank. unfold action_matched. rewrite Hc.
  assert (action_contains_loop policy action_id = true) as ->.
  { apply action_contains_loop_spec. exists entry. split; [done|].
    rewrite Hblank. by exists EmptyString, action_id. }
  by destruct (has_constraint (constraints policy) PF_CONSTRAINT_ACTIONS).
Qed.

Lemma X20_blank_action_contains_entry_matches_every_action_witness :
  action_matched
    (add_constraint (set_action_contains (Demo.blank "any") ["example"; "  "])
       PF_CONSTRAINT_ACTION_CONTAINS)
    "org.freedesktop.login1.reboot"
  = true.
Proof.
  apply (X20_blank_action_contains_entry_matches_every_action _ "  ").
  - reflexivity.
  - apply list_elem_of_further, list_elem_of_here.
  - reflexivity.
Defined.

(** ** One rule of a chain *)

(** [policy_test] on a rule whose action matches, by the tests it makes. *)
Lemma policy_test_matched `{Host} (policy : Policy) (action_id : string)
    (context : PolicyContext) :
  action_matched policy action_id = true ->
  policy_test policy action_id context
  = if has_constraint (constraints policy) PF_CONSTRAINT_SUBJECT_ACTIVE
       && negb (Bool.eqb (subject_is_active context) (require_active policy))
    then rest_of_chain policy action_id context
    else if (has_constraint (constraints policy) PF_CONSTRAINT_SUBJECT_LOCAL
             && negb (Bool.eqb (subject_is_local context) (require_local policy)))
            || (has_constraint (constraints policy) PF_CONSTRAINT_UNIX_GROUPS
                && negb (unix_groups_loop policy context))
            || (has_constraint (constraints policy) PF_CONSTRAINT_UNIX_NAMES
                && negb (unix_names_loop policy context))
    then (if has_constraint (constraints policy) PF_CONSTRAINT_RESULT_INVERSE
          then response_inverse policy
          else rest_of_chain policy action_id context)
    else if has_constraint (constraints policy) PF_CONSTRAINT_RESULT
            && negb (is_unknown (response policy))
    then response policy
    else rest_of_chain policy action_id context.
Proof.
  intros E. rewrite policy_test_unfold.
  unfold policy_test_to_unmatched, rest_of_chain. rewrite E. cbv zeta. simpl negb.
  cbn iota.
  destruct (has_constraint (constraints policy) PF_CONSTRAINT_SUBJECT_ACTIVE
            && negb (Bool.eqb (subject_is_active context) (require_active policy)));
    [simpl; by destruct (next policy)|].
  destruct (has_constraint (constraints policy) PF_CONSTRAINT_SUBJECT_LOCAL
            && negb (Bool.eqb (subject_is_local context) (require_local policy)));
    [simpl; by destruct (has_constraint _ PF_CONSTRAINT_RESULT_INVERSE),
                      (next policy)|].
  destruct (has_constraint (constraints policy) PF_CONSTRAINT_UNIX_GROUPS
            && negb (unix_groups_loop policy context));
    [simpl; by destruct (has_constraint _ PF_CONSTRAINT_RESULT_INVERSE),
                      (next policy)|].
  destruct (has_constraint (constraints policy) PF_CONSTRAINT_UNIX_NAMES
            && negb (unix_names_loop policy context));
    [simpl; by destruct (has_constraint _ PF_CONSTRAINT_RESULT_INVERSE),
                      (next policy)|].
  simpl. destruct (has_constraint _ PF_CONSTRAINT_RESULT); simpl;
    [|by destruct (next policy)].
  destruct (is_unknown (response policy)) eqn:Eu; simpl;
    [|by destruct (next policy)].
  apply is_unknown_spec in Eu. rewrite Eu. by destruct (next policy).
Qed.

(** X21. What a rule whose action matches does. When [SubjectActive] is
    declared and differs from the context, it hands over to the rest of its
    chain, whether or not it declares [ResultInverse]. Otherwise, when
    [SubjectLocal], [InUnixGroups] or [InUserNames] is declared and fails,
    it returns its [ResultInverse] if it declares one, and that ends the
    evaluation of the chain also when the inverse verdict is [UNKNOWN];
    without [ResultInverse] it hands over. When nothing fails, it returns
    its [Result] if it declares one that is not [UNKNOWN], and hands over
    otherwise. *)
Theorem X21_what_a_matching_rule_does :
  forall (host : Host) (policy : Policy) (action_id : string) (context : PolicyContext),
    action_matched policy action_id = true ->
    let active_agrees :=
      has_constraint (constraints policy) PF_CONSTRAINT_SUBJECT_ACTIVE = true ->
      subject_is_active context = require_active policy in
    let another_fails :=
      (has_constraint (constraints policy) PF_CONSTRAINT_SUBJECT_LOCAL = true
       /\ subject_is_local context <> require_local policy)
      \/ (has_constraint (constraints policy) PF_CONSTRAINT_UNIX_GROUPS = true
          /\ unix_groups_loop policy context = false)
      \/ (has_constraint (constraints policy) PF_CONSTRAINT_UNIX_NAMES = true
          /\ unix_names_loop policy context = false) in
    (~ active_agrees ->
     policy_test policy action_id context = rest_of_chain policy action_id context)
    /\ (active_agrees -> another_fails ->
        policy_test policy action_id context
        = if has_constraint (constraints policy) PF_CONSTRAINT_RESULT_INVERSE
          then response_inverse policy
          else rest_of_chain policy action_id context)
    /\ (active_agrees -> ~ another_fails ->
        policy_test policy action_id context
        = if has_constraint (constraints policy) PF_CONSTRAINT_RESULT
             && negb (is_unknown (response policy))
          then response policy
          else rest_of_chain policy action_id context).
Proof.
  intros host policy action_id context E. cbv zeta.
  rewrite (policy_test_matched policy action_id context E).
  assert (has_constraint (constraints policy) PF_CONSTRAINT_SUBJECT_ACTIVE
          && negb (Bool.eqb (subject_is_active context) (require_active policy)) = true
          <-> ~ (has_constraint (constraints policy) PF_CONSTRAINT_SUBJECT_ACTIVE = true ->
                 subject_is_active context = require_active policy)) as Hactive.
  { rewrite andb_true_iff, negb_true_iff, Bool.eqb_false_iff.
    destruct (has_constraint (constraints policy) PF_CONSTRAINT_SUBJECT_ACTIVE).
    - split; [intros [_ Hne] Hag; by apply Hne, Hag|].
      intros Hn. split; [done|]. intros Heq. by apply Hn.
    - split; [by intros [? _]|]. intros Hn. by destruct Hn. }
  assert ((has_constraint (constraints policy) PF_CONSTRAINT_SUBJECT_LOCAL
           && negb (Bool.eqb (subject_is_local context) (require_local policy)))
          || (has_constraint (constraints policy) PF_CONSTRAINT_UNIX_GROUPS
              && negb (unix_groups_loop policy context))
          || (has_constraint (constraints policy) PF_CONSTRAINT_UNIX_NAMES
              && negb (unix_names_loop policy context)) = true
          <-> (has_constraint (constraints policy) PF_CONSTRAINT_SUBJECT_LOCAL = true
               /\ subject_is_local context <> require_local policy)
              \/ (has_constraint (constraints policy) PF_CONSTRAINT_UNIX_GROUPS = true
                  /\ unix_groups_loop policy context = false)
              \/ (has_constraint (constraints policy) PF_CONSTRAINT_UNIX_NAMES = true
                  /\ unix_names_loop policy context = false)) as Hother.
  { rewrite !orb_true_iff, !andb_true_iff, !negb_true_iff, Bool.eqb_false_iff.
    tauto. }
  destruct (has_constraint (constraints policy) PF_CONSTRAINT_SUBJECT_ACTIVE
            && negb (Bool.eqb (subject_is_active context) (require_active policy))).
  - split; [done|]. split; intros Hag; by destruct (proj1 Hactive eq_refl).
  - split; [intros Hn; by apply Hactive in Hn|].
    destruct (_ || _ || _).
    + split; [done|]. intros _ Hn. by destruct Hn; apply Hother.
    + split; [|done]. intros _ Hf. by apply Hother in Hf.
Qed.

Lemma X21_what_a_matching_rule_does_witness :
  policy_test (host := Demo.bare_host) Demo.active_rule "org.example.action"
    Demo.alice_inactive
  = rest_of_chain (H := Demo.bare_host) Demo.active_rule "org.example.action"
      Demo.alice_inactive.
Proof.
  refine (proj1 (X21_what_a_matching_rule_does Demo.bare_host Demo.active_rule
                   "org.example.action" Demo.alice_inactive eq_refl) _).
  intros Hag. discriminate (Hag eq_refl).
Defined.

(** ** The order of the directories *)

Lemma collect_rules_files_perm `{Host} (dirs1 dirs2 : list string) :
  dirs1 ≡ₚ dirs2 ->
  collect_rules_files (Some dirs1) ≡ₚ collect_rules_files (Some dirs2).
Proof.
  intros Hperm. unfold collect_rules_files.
  rewrite <- !Permutation_rev. by apply Permutation_flat_map.
Qed.

Lemma load_rules_perm `{Host} (dirs1 dirs2 : list string) (rules : option PolicyFile) :
  dirs1 ≡ₚ dirs2 ->
  same_rule_set
    (load_rules (Build_PolkitBackendKeyfileAuthorityPrivate (Some dirs1) rules))
    (load_rules (Build_PolkitBackendKeyfileAuthorityPrivate (Some dirs2) rules)).
Proof.
  intros Hdirs. pose proof (collect_rules_files_perm dirs1 dirs2 Hdirs) as Hperm.
  unfold load_rules. cbn [rules_dirs].
  destruct (collect_rules_files_sort (Some dirs1))
    as [(Hnd1 & s1 & -> & Hp1 & Hs1)|(Hdup1 & ->)];
    destruct (collect_rules_files_sort (Some dirs2))
      as [(Hnd2 & s2 & -> & Hp2 & Hs2)|(Hdup2 & ->)]; simpl.
  - assert (s1 = s2) as ->.
    { apply (StronglySorted_unique_strong rules_file_lt); [|done|done|].
      - intros x y _ _ Hxy Hyx. destruct (rules_file_name_cmp_irrefl x).
        by apply (rules_file_name_cmp_trans x y x).
      - by rewrite Hp1, Hp2. }
    by destruct (link_rules_files s2) as [[file|]|c].
  - destruct Hdup2. by rewrite <- Hperm.
  - destruct Hdup1. by rewrite Hperm.
  - done.
Qed.

(** X22. The order in which the directories are listed does not matter to
    the rule set: [load_rules] on two arrangements of the same directories
    ends alike, with the same chain of files or failing in the same way;
    and so does the construction of the authority with its two default
    directories named in either order. *)
Theorem X22_the_order_of_the_directories_is_immaterial :
  forall (host : Host) (dirs1 dirs2 : list string) (rules : option PolicyFile)
         (sysconf_dir data_dir : string),
    dirs1 ≡ₚ dirs2 ->
    same_rule_set
      (load_rules (Build_PolkitBackendKeyfileAuthorityPrivate (Some dirs1) rules))
      (load_rules (Build_PolkitBackendKeyfileAuthorityPrivate (Some dirs2) rules))
    /\ same_rule_set
         (polkit_backend_keyfile_authority_constructed sysconf_dir data_dir
            (Build_PolkitBackendKeyfileAuthorityPrivate None rules))
         (polkit_backend_keyfile_authority_constructed data_dir sysconf_dir
            (Build_PolkitBackendKeyfileAuthorityPrivate None rules))
    /\ polkit_backend_keyfile_authority_constructed sysconf_dir data_dir
         (Build_PolkitBackendKeyfileAuthorityPrivate (Some dirs1) rules)
       = load_rules (Build_PolkitBackendKeyfileAuthorityPrivate (Some dirs1) rules).
Proof.
  intros host dirs1 dirs2 rules sysconf_dir data_dir Hperm.
  split; [by apply load_rules_perm|]. split; [|done].
  unfold polkit_backend_keyfile_authority_constructed. cbn [rules_dirs policy].
  apply load_rules_perm, Permutation_swap.
Qed.

Lemma X22_the_order_of_the_directories_is_immaterial_witness :
  same_rule_set
    (load_rules (host := Demo.two_dirs_host)
       (Build_PolkitBackendKeyfileAuthorityPrivate
          (Some [Demo.usr_dir; Demo.etc_dir]) None))
    (load_rules (host := Demo.two_dirs_host)
       (Build_PolkitBackendKeyfileAuthorityPrivate
          (Some [Demo.etc_dir; Demo.usr_dir]) None)).
Proof.
  apply (proj1 (X22_the_order_of_the_directories_is_immaterial Demo.two_dirs_host
                  [Demo.usr_dir; Demo.etc_dir] [Demo.etc_dir; Demo.usr_dir] None
                  "/etc" "/usr/share" (Permutation_swap _ _ _))).
Defined.
